(** * buildtool/git.py: semantic versions, commit logs and repository summaries

    A shallow embedding of the text-processing core of [buildtool/git.py]
    (Python 2): [RemoteGitRepository], [SemanticVersion], [CommitTag],
    [CommitMessage], and of [GitRunner] the methods that assemble a
    [RepositorySummary], compare repository addresses, clone one of several
    branches and delete a local branch.

    Python 2 [str] values are byte strings; they are modelled as lists of
    [ascii].  Exceptions are modelled by the [exc] monad.  The [re] patterns
    of the file are written as terms of [regex] and run by a backtracking
    matcher with Python's priorities (leftmost start, ordered alternatives,
    greedy and lazy repetition). *)

From Stdlib Require Import String.
From Stdlib Require Import List Ascii ZArith Lia Bool Arith PeanoNat.
From Stdlib Require Import Sorting.Sorted.
Import ListNotations.

Set Implicit Arguments.

Local Open Scope list_scope.
Local Open Scope nat_scope.

(** ** Python strings *)

Definition str := list ascii.

Notation "$ s" := (String.list_ascii_of_string s%string) (at level 1, s at level 0, only parsing).

Definition NL : ascii := "010"%char.
Definition SP : ascii := " "%char.
Definition DQUOTE : ascii := "034"%char.

Definition str_eqb (a b : str) : bool :=
  if list_eq_dec ascii_dec a b then true else false.

(** [str.isspace] on one byte, and [\s] of [re] on byte strings:
    space, \t, \n, \v, \f, \r. *)
Definition isspace (c : ascii) : bool :=
  let n := nat_of_ascii c in
  (n =? 32) || ((9 <=? n) && (n <=? 13)).

Fixpoint dropwhile (p : ascii -> bool) (s : str) : str :=
  match s with
  | [] => []
  | c :: t => if p c then dropwhile p t else s
  end.

Definition lstrip (s : str) : str := dropwhile isspace s.
Definition rstrip (s : str) : str := rev (dropwhile isspace (rev s)).
Definition strip (s : str) : str := rstrip (lstrip s).

Fixpoint startswith (p s : str) : bool :=
  match p, s with
  | [], _ => true
  | a :: p', b :: s' => Ascii.eqb a b && startswith p' s'
  | _ :: _, [] => false
  end.

(** [s.split(sep)] for a non-empty separator: occurrences are found from the
    left and do not overlap.  [skip] counts the bytes of a separator that was
    just recognised and is still to be passed over; [cur] is the current
    piece, reversed. *)
Fixpoint split_aux (sep : str) (skip : nat) (cur : str) (s : str) : list str :=
  match s with
  | [] => [rev cur]
  | c :: t =>
      match skip with
      | S n => split_aux sep n cur t
      | O => if startswith sep s
             then rev cur :: split_aux sep (length sep - 1) [] t
             else split_aux sep 0 (c :: cur) t
      end
  end.

Definition split (sep s : str) : list str := split_aux sep 0 [] s.

(** [sep.join(pieces)] *)
Fixpoint join (sep : str) (l : list str) : str :=
  match l with
  | [] => []
  | [x] => x
  | x :: t => x ++ sep ++ join sep t
  end.

Fixpoint dropwhile_list {A} (p : A -> bool) (l : list A) : list A :=
  match l with
  | [] => []
  | x :: t => if p x then dropwhile_list p t else l
  end.

(** [l[a:b]] for [0 <= a], [0 <= b] *)
Definition slice {A} (l : list A) (a b : nat) : list A := firstn (b - a) (skipn a l).

(** [s.endswith(suffix)] *)
Definition endswith (suffix s : str) : bool := startswith (rev suffix) (rev s).

(** [s.find(sub) >= 0] *)
Fixpoint contains (sub s : str) : bool :=
  startswith sub s || match s with
                      | [] => false
                      | _ :: t => contains sub t
                      end.

(** [s.rfind(c)] for a one-byte [c]: the greatest index of [c] in [s], or -1;
    [i] is the index of the head of [s], [found] the result so far *)
Fixpoint rfind_from (c : ascii) (s : str) (i : nat) (found : Z) : Z :=
  match s with
  | [] => found
  | x :: t => rfind_from c t (S i) (if Ascii.eqb x c then Z.of_nat i else found)
  end.

Definition rfind (c : ascii) (s : str) : Z := rfind_from c s 0 (-1)%Z.

(** ** Exceptions *)

Inductive error :=
| ValueError (msg : str)
| AttributeError (msg : str)
| IndexError (msg : str)
| RuntimeError (msg : str).

Inductive exc (A : Type) :=
| Ok (a : A)
| Raise (e : error).
Arguments Ok {A} a.
Arguments Raise {A} e.

Definition bind {A B} (x : exc A) (f : A -> exc B) : exc B :=
  match x with
  | Ok a => f a
  | Raise e => Raise e
  end.

Notation "x <- c ;; k" := (bind c (fun x => k))
  (at level 61, c at next level, right associativity).

(** a Python list comprehension or [for ... append] loop whose body may raise *)
Fixpoint mapM {A B} (f : A -> exc B) (l : list A) : exc (list B) :=
  match l with
  | [] => Ok []
  | a :: t => b <- f a ;; bs <- mapM f t ;; Ok (b :: bs)
  end.

(** ** Decimal text of integers: [str(n)], ['{0}'.format(n)] and [int(s)] *)

Definition digit_char (d : Z) : ascii := ascii_of_nat (48 + Z.to_nat d).

Definition isdigit (c : ascii) : bool :=
  let n := nat_of_ascii c in (48 <=? n) && (n <=? 57).

Definition digit_val (c : ascii) : Z := Z.of_nat (nat_of_ascii c - 48).

Fixpoint digits (fuel : nat) (n : Z) : str :=
  match fuel with
  | O => []
  | S f => if (n <? 10)%Z then [digit_char n]
           else digits f (n / 10) ++ [digit_char (n mod 10)]
  end.

Definition str_of_nonneg (n : Z) : str := digits (S (Z.to_nat (Z.log2 n))) n.

Definition str_of_int (n : Z) : str :=
  if (n <? 0)%Z then "-"%char :: str_of_nonneg (- n) else str_of_nonneg n.

Definition decimal_value (s : str) : Z :=
  fold_left (fun a c => (10 * a + digit_val c)%Z) s 0%Z.

(** [int(s)] on the texts this file passes to it, which are matches of [\d+];
    any other text is rejected here (Python also takes signs and blanks). *)
Definition int (s : str) : exc Z :=
  match s with
  | [] => Raise (ValueError ($"invalid literal for int() with base 10"))
  | _ => if forallb isdigit s
         then Ok (decimal_value s)
         else Raise (ValueError ($"invalid literal for int() with base 10"))
  end.

(** ** Regular expressions *)

Inductive regex :=
| Eps
| Chr (c : ascii)
| Cls (p : ascii -> bool)
| Seq (a b : regex)
| Alt (a b : regex)                       (* [a|b], and [a?] as [Alt a Eps] *)
| Rep (greedy : bool) (lo : nat) (p : ascii -> bool)
                                          (* [p*], [p+] ([lo] = 0, 1), lazy when [greedy = false] *)
| Grp (i : nat) (a : regex)               (* capture group number [i] *)
| Bol                                     (* [^] under [re.MULTILINE] *)
| Bos                                     (* [^] without [re.MULTILINE] *)
| Eos.                                    (* [$] without [re.MULTILINE] *)

Fixpoint lit (s : str) : regex :=
  match s with
  | [] => Eps
  | c :: t => Seq (Chr c) (lit t)
  end.

Definition seqs (l : list regex) : regex := fold_right Seq Eps l.

Fixpoint alts (l : list regex) : regex :=
  match l with
  | [] => Eps
  | [a] => a
  | a :: t => Alt a (alts t)
  end.

Definition opt (a : regex) : regex := Alt a Eps.

Definition star (p : ascii -> bool) := Rep true 0 p.
Definition plus (p : ascii -> bool) := Rep true 1 p.
Definition lazy_star (p : ascii -> bool) := Rep false 0 p.
Definition lazy_plus (p : ascii -> bool) := Rep false 1 p.

(** character classes *)
Definition dot (c : ascii) : bool := negb (Ascii.eqb c NL).      (* [.] *)
Definition only (x : ascii) (c : ascii) : bool := Ascii.eqb c x.
Definition between (a b : ascii) (c : ascii) : bool :=
  (nat_of_ascii a <=? nat_of_ascii c) && (nat_of_ascii c <=? nat_of_ascii b).
Definition either (p q : ascii -> bool) (c : ascii) : bool := p c || q c.

(** number of groups of a pattern, the length of [match.groups()] *)
Fixpoint ngroups (r : regex) : nat :=
  match r with
  | Seq a b | Alt a b => Nat.max (ngroups a) (ngroups b)
  | Grp i a => Nat.max i (ngroups a)
  | _ => 0
  end.

(** spans of the groups that took part, latest first *)
Definition caps := list (nat * (nat * nat)).

Record mres := { res_end : nat; res_caps : caps }.

(** A continuation takes the byte before the cursor, the cursor's index, the
    text from the cursor on, and the captures so far. *)
Definition cont := option ascii -> nat -> str -> caps -> option mres.

Fixpoint rep_greedy (p : ascii -> bool) (k : cont) (lo : nat)
    (prev : option ascii) (pos : nat) (rest : str) (cs : caps) {struct rest} : option mres :=
  let stop := if lo =? 0 then k prev pos rest cs else None in
  match rest with
  | c :: t =>
      if p c then
        match rep_greedy p k (pred lo) (Some c) (S pos) t cs with
        | Some r => Some r
        | None => stop
        end
      else stop
  | [] => stop
  end.

Fixpoint rep_lazy (p : ascii -> bool) (k : cont) (lo : nat)
    (prev : option ascii) (pos : nat) (rest : str) (cs : caps) {struct rest} : option mres :=
  match (if lo =? 0 then k prev pos rest cs else None) with
  | Some r => Some r
  | None =>
      match rest with
      | c :: t => if p c then rep_lazy p k (pred lo) (Some c) (S pos) t cs else None
      | [] => None
      end
  end.

Definition at_bol (prev : option ascii) : bool :=
  match prev with
  | None => true
  | Some c => Ascii.eqb c NL
  end.

Definition at_bos (prev : option ascii) (pos : nat) : bool := pos =? 0.

Definition at_eos (rest : str) : bool :=
  match rest with
  | [] => true
  | [c] => Ascii.eqb c NL
  | _ => false
  end.

Fixpoint run (r : regex) (k : cont) (prev : option ascii) (pos : nat) (rest : str)
    (cs : caps) {struct r} : option mres :=
  match r with
  | Eps => k prev pos rest cs
  | Chr c =>
      match rest with
      | d :: t => if Ascii.eqb d c then k (Some d) (S pos) t cs else None
      | [] => None
      end
  | Cls p =>
      match rest with
      | d :: t => if p d then k (Some d) (S pos) t cs else None
      | [] => None
      end
  | Seq a b => run a (run b k) prev pos rest cs
  | Alt a b =>
      match run a k prev pos rest cs with
      | Some x => Some x
      | None => run b k prev pos rest cs
      end
  | Rep true lo p => rep_greedy p k lo prev pos rest cs
  | Rep false lo p => rep_lazy p k lo prev pos rest cs
  | Grp i a => run a (fun prev' pos' rest' cs' => k prev' pos' rest' ((i, (pos, pos')) :: cs'))
                 prev pos rest cs
  | Bol => if at_bol prev then k prev pos rest cs else None
  | Bos => if at_bos prev pos then k prev pos rest cs else None
  | Eos => if at_eos rest then k prev pos rest cs else None
  end.

Definition accept : cont := fun _ pos _ cs => Some {| res_end := pos; res_caps := cs |}.

(** a match object: the subject, the span of the whole match, the groups *)
Record Match := {
  m_string : str;
  m_start : nat;
  m_end : nat;
  m_caps : caps
}.

Fixpoint span_of (cs : caps) (i : nat) : option (nat * nat) :=
  match cs with
  | [] => None
  | (j, sp) :: t => if j =? i then Some sp else span_of t i
  end.

(** [pattern.match(s)] *)
Definition re_match (r : regex) (s : str) : option Match :=
  match run r accept None 0 s [] with
  | Some res => Some {| m_string := s; m_start := 0; m_end := res_end res; m_caps := res_caps res |}
  | None => None
  end.

Fixpoint search_from (r : regex) (whole : str) (prev : option ascii) (pos : nat) (rest : str)
    : option Match :=
  match run r accept prev pos rest [] with
  | Some res => Some {| m_string := whole; m_start := pos; m_end := res_end res;
                        m_caps := res_caps res |}
  | None =>
      match rest with
      | [] => None
      | c :: t => search_from r whole (Some c) (S pos) t
      end
  end.

(** [pattern.search(s)] *)
Definition re_search (r : regex) (s : str) : option Match := search_from r s None 0 s.

(** [match.start(i)], [match.end(i)], [match.group(i)] for a group that took
    part in the match (every group of the patterns below always does). *)
Definition start (m : Match) (i : nat) : nat :=
  match span_of (m_caps m) i with Some (a, _) => a | None => 0 end.
Definition end_ (m : Match) (i : nat) : nat :=
  match span_of (m_caps m) i with Some (_, b) => b | None => 0 end.
Definition group (m : Match) (i : nat) : str :=
  slice (m_string m) (start m i) (end_ m i).

(** ** class RemoteGitRepository *)

Module RemoteGitRepository.

(** [upstream_ref] is another repository, or [None] *)
#[warnings="-register-all"]
Inductive t := Build (name : str) (url : str) (upstream_ref : option t).

Definition name (self : t) : str := let 'Build n _ _ := self in n.
Definition url (self : t) : str := let 'Build _ u _ := self in u.
Definition upstream_ref (self : t) : option t := let 'Build _ _ r := self in r.

(** [url[url.rfind('/') + 1:]] is the name *)
Definition make_from_url (url : str) (upstream_ref : option t) : t :=
  let name := skipn (Z.to_nat (rfind "/" url + 1)) url in
  Build name url upstream_ref.

Definition upstream_url (self : t) : option str :=
  match upstream_ref self with
  | None => None
  | Some r => Some (url r)
  end.

End RemoteGitRepository.

(** ** class SemanticVersion *)

Module SemanticVersion.

Record t := {
  series_name : str;
  major : Z;
  minor : Z;
  patch : Z
}.

(** group 1 [.+], [-], group 2 [\d+], [\.], group 3 [\d+], [\.], group 4 [\d+] *)
Definition SEMVER_MATCHER : regex :=
  seqs [Grp 1 (plus dot); Chr "-"; Grp 2 (plus isdigit); Chr ".";
        Grp 3 (plus isdigit); Chr "."; Grp 4 (plus isdigit)].

Definition TAG_INDEX : Z := 0.
Definition MAJOR_INDEX : Z := 1.
Definition MINOR_INDEX : Z := 2.
Definition PATCH_INDEX : Z := 3.

Definition malformed_tag (tag : str) : error :=
  ValueError ($"Malformed tag " ++ [DQUOTE] ++ tag ++ [DQUOTE]).

Definition make (tag : str) : exc t :=
  match re_match SEMVER_MATCHER tag with
  | None => Raise (malformed_tag tag)
  | Some found =>
      ma <- int (group found 2) ;;
      mi <- int (group found 3) ;;
      pa <- int (group found 4) ;;
      Ok {| series_name := group found 1; major := ma; minor := mi; patch := pa |}
  end.

Definition most_significant_diff_index (self arg : t) : option Z :=
  if negb (str_eqb (series_name arg) (series_name self)) then Some TAG_INDEX
  else if negb (major arg =? major self)%Z then Some MAJOR_INDEX
  else if negb (minor arg =? minor self)%Z then Some MINOR_INDEX
  else if negb (patch arg =? patch self)%Z then Some PATCH_INDEX
  else None.

Definition to_version (self : t) : str :=
  str_of_int (major self) ++ $"." ++ str_of_int (minor self) ++ $"." ++ str_of_int (patch self).

Definition to_tag (self : t) : str :=
  series_name self ++ $"-" ++ str_of_int (major self) ++ $"." ++ str_of_int (minor self)
    ++ $"." ++ str_of_int (patch self).

Definition invalid_index : error := ValueError ($"Invalid index").

(** [at_index] is [None] or one of the [*_INDEX] integers *)
Definition next (self : t) (at_index : option Z) : exc t :=
  match at_index with
  | None => Raise invalid_index
  | Some i =>
      if (i =? PATCH_INDEX)%Z then
        Ok {| series_name := series_name self; major := major self; minor := minor self;
              patch := (patch self + 1)%Z |}
      else if (i =? MINOR_INDEX)%Z then
        Ok {| series_name := series_name self; major := major self;
              minor := (minor self + 1)%Z; patch := 0%Z |}
      else if (i =? MAJOR_INDEX)%Z then
        Ok {| series_name := series_name self; major := (major self + 1)%Z;
              minor := 0%Z; patch := 0%Z |}
      else Raise invalid_index
  end.

End SemanticVersion.

(** ** class CommitTag *)

(** [a < b] on byte strings: lexicographic order of the bytes *)
Fixpoint str_ltb (a b : str) : bool :=
  match a, b with
  | _, [] => false
  | [], _ :: _ => true
  | x :: a', y :: b' =>
      (nat_of_ascii x <? nat_of_ascii y)
      || ((nat_of_ascii x =? nat_of_ascii y) && str_ltb a' b')
  end.

Module CommitTag.

(** [version] is [LooseVersion(tag)]; no code of the file reads it, and it
    is kept here by the text it was built from. *)
Record t := {
  commit_id : str;
  tag : str;
  version : str
}.

Definition make (ref_line : str) : exc t :=
  let tokens := split [SP] ref_line in
  let line_id := hd [] tokens in
  match nth_error tokens 1 with
  | None => Raise (IndexError ($"list index out of range"))
  | Some tok1 =>
      let tag_parts := split ["/"%char] tok1 in
      let tag := nth (length tag_parts - 1) tag_parts [] in
      Ok {| commit_id := line_id; tag := tag; version := tag |}
  end.

(** [__lt__]: instances compare by their tags *)
Definition lt (self other : t) : bool := str_ltb (tag self) (tag other).

End CommitTag.

(** [sorted(l)]: Python's sort is stable and calls only [<]. *)
Fixpoint insert_sorted {A} (ltb : A -> A -> bool) (x : A) (l : list A) : list A :=
  match l with
  | [] => [x]
  | y :: l' => if ltb y x then y :: insert_sorted ltb x l' else x :: l
  end.

Definition sorted {A} (ltb : A -> A -> bool) (l : list A) : list A :=
  fold_right (insert_sorted ltb) [] l.

(** [sorted(l, reverse=True)] keeps equal elements in their original order *)
Definition sorted_reverse {A} (ltb : A -> A -> bool) (l : list A) : list A :=
  rev (sorted ltb (rev l)).

(** ** class CommitMessage *)

Definition hexdigit : ascii -> bool := either (between "a" "f") (between "0" "9").
Definition lower : ascii -> bool := between "a" "z".

(** how the optional arguments [major_regexs], [minor_regexs], [patch_regexs]
    can be passed: [None], one compiled pattern, or a list of them *)
Inductive regex_spec :=
| SpecNone
| SpecOne (r : regex)
| SpecList (l : list regex).

(** [match.groups()]: one entry per group of the pattern, [None] for a group
    that took no part *)
Definition groups (r : regex) (m : Match) : list (option str) :=
  map (fun i => match span_of (m_caps m) i with
                | Some (a, b) => Some (slice (m_string m) a b)
                | None => None
                end)
      (seq 1 (ngroups r)).

Module CommitMessage.

Record t := {
  commit_id : str;
  author : str;
  date : str;
  message : str
}.

(** group 1 [.+], then [\nAuthor:], [ *], group 2 [.+], then [\nDate:], [ *],
    group 3 [.*], then [\n] *)
Definition _MEDIUM_PRETTY_COMMIT_MATCHER : regex :=
  seqs [Grp 1 (plus dot); lit (NL :: $"Author:"); star (only SP); Grp 2 (plus dot);
        lit (NL :: $"Date:"); star (only SP); Grp 3 (star dot); Chr NL].

(** under MULTILINE, three lines: [^], group 1 [ *], [commit [a-f0-9]+\n];
    [^\s*Author: .+\n]; [^\s*Date:   .+\n] *)
Definition _EMBEDDED_COMMIT_MATCHER : regex :=
  seqs [Bol; Grp 1 (star (only SP)); lit ($"commit "); plus hexdigit; Chr NL;
        Bol; star isspace; lit ($"Author: "); plus dot; Chr NL;
        Bol; star isspace; lit ($"Date:   "); plus dot; Chr NL].

(** under MULTILINE: [^\s*], optionally [\*\s*], then [[a-z]+\(], lazy [.+?],
    then [\): ] and [.+] *)
Definition _EMBEDDED_SUMMARY_MATCHER : regex :=
  seqs [Bol; star isspace; opt (Seq (Chr "*") (star isspace)); plus lower;
        Chr "("; lazy_plus dot; lit ($"): "); plus dot].

(** under MULTILINE: [^\s*], optionally [\*\s+], then group 1:
    [fix|bug|docs?|test], one of [\(:], [.*] *)
Definition DEFAULT_PATCH_REGEXS : list regex :=
  [seqs [Bol; star isspace; opt (Seq (Chr "*") (plus isspace));
         Grp 1 (seqs [alts [lit ($"fix"); lit ($"bug");
                            Seq (lit ($"doc")) (opt (Chr "s")); lit ($"test")];
                      Cls (either (only "(") (only ":")); star dot])]].

(** under MULTILINE: [^\s*], optionally [\*\s+], then group 1:
    [feat|feature|chore|refactor|perf|config], one of [\(:], [.*] *)
Definition DEFAULT_MINOR_REGEXS : list regex :=
  [seqs [Bol; star isspace; opt (Seq (Chr "*") (plus isspace));
         Grp 1 (seqs [alts [lit ($"feat"); lit ($"feature"); lit ($"chore");
                            lit ($"refactor"); lit ($"perf"); lit ($"config")];
                      Cls (either (only "(") (only ":")); star dot])]].

(** under MULTILINE: [^\s*], then group 1: lazy [.*?], [BREAKING CHANGE], [.*] *)
Definition DEFAULT_MAJOR_REGEXS : list regex :=
  [seqs [Bol; star isspace;
         Grp 1 (seqs [lazy_star dot; lit ($"BREAKING CHANGE"); star dot])]].

Definition none_has_no_end : error :=
  AttributeError ($"'NoneType' object has no attribute 'end'").

Definition is_empty (s : str) : bool := match s with [] => true | _ => false end.

Definition make (entry : str) : exc t :=
  match re_match _MEDIUM_PRETTY_COMMIT_MATCHER entry with
  | None => Raise none_has_no_end          (* [match.end(3)] with [match] being [None] *)
  | Some found =>
      let text := skipn (end_ found 3) entry in
      let lines := map rstrip (split [NL] text) in
      let lines := dropwhile_list is_empty lines in
      let lines := rev (dropwhile_list is_empty (rev lines)) in
      let text := join [NL] lines in
      Ok {| commit_id := group found 1; author := group found 2;
            date := group found 3; message := text |}
  end.

Definition make_list_from_result (response_text : str) : exc (list t) :=
  let all_entries := tl (split (NL :: $"commit ") (NL :: strip response_text)) in
  mapM make all_entries.

(** the inner [for line in text_lines] loop of [_unpack_embedded_commits];
    [None] when the loop ends by [break] *)
Fixpoint prune (group1 : str) (offset : nat) (text_lines pruned_lines : list str)
    : option (list str) :=
  match text_lines with
  | [] => Some pruned_lines
  | line :: rest =>
      if startswith group1 line then prune group1 offset rest (pruned_lines ++ [skipn offset line])
      else if is_empty line then prune group1 offset rest (pruned_lines ++ [line])
      else None
  end.

Definition unpack_embedded_commit (commit_message : t) : exc (list t) :=
  let text := message commit_message in
  match re_search _EMBEDDED_COMMIT_MATCHER text with
  | None => Ok [commit_message]
  | Some found =>
      let text_lines := split [NL] (skipn (start found 1) text) in
      let offset := end_ found 1 - start found 1 in
      match prune (group found 1) offset text_lines [] with
      | None => Ok [commit_message]
      | Some [] => Ok []
      | Some pruned_lines => make_list_from_result (join [NL] pruned_lines)
      end
  end.

Fixpoint _unpack_embedded_commits (msg_list : list t) : exc (list t) :=
  match msg_list with
  | [] => Ok []
  | commit_message :: rest =>
      l <- unpack_embedded_commit commit_message ;;
      ls <- _unpack_embedded_commits rest ;;
      Ok (l ++ ls)
  end.

(** the [for index, line in enumerate(lines)] loop of
    [_unpack_embedded_summaries]; returns [prev] and the records appended *)
Fixpoint summaries_loop (mk : str -> t) (lines : list str) (todo : list str) (index : nat)
    (prev : Z) (result : list t) : Z * list t :=
  match todo with
  | [] => (prev, result)
  | line :: rest =>
      match re_match _EMBEDDED_SUMMARY_MATCHER line with
      | Some _ =>
          let result :=
            if (prev >=? 0)%Z
            then result ++ [mk (rstrip (join [NL] (slice lines (Z.to_nat prev) index)))]
            else result in
          summaries_loop mk lines rest (S index) (Z.of_nat index) result
      | None => summaries_loop mk lines rest (S index) prev result
      end
  end.

Definition unpack_embedded_summary (commit_message : t) : list t :=
  let mk text := {| commit_id := commit_id commit_message; author := author commit_message;
                    date := date commit_message; message := text |} in
  let lines := split [NL] (message commit_message) in
  let '(prev, result) := summaries_loop mk lines lines 0 (-1)%Z [] in
  let prev := if (prev <? 0)%Z then 0%Z else prev in
  result ++ [mk (rstrip (join [NL] (skipn (Z.to_nat prev) lines)))].

Definition _unpack_embedded_summaries (msg_list : list t) : list t :=
  flat_map unpack_embedded_summary msg_list.

Definition normalize_message_list (msg_list : list t) : exc (list t) :=
  msg_list <- _unpack_embedded_commits msg_list ;;
  Ok (_unpack_embedded_summaries msg_list).

(** [is_compliant(spec)]: the groups of the first pattern found in the text *)
Fixpoint first_groups (text : str) (spec : list regex) : option (list (option str)) :=
  match spec with
  | [] => None
  | matcher :: rest =>
      match re_search matcher text with
      | Some found => Some (groups matcher found)
      | None => first_groups text rest
      end
  end.

Definition is_compliant (self : t) (spec : regex_spec) : option (list (option str)) :=
  match spec with
  | SpecNone => None
  | SpecList [] => None
  | SpecOne r => first_groups (strip (message self)) [r]
  | SpecList l => first_groups (strip (message self)) l
  end.

(** truth value of [is_compliant]'s result: [None] and the empty tuple are false *)
Definition truthy (reason : option (list (option str))) : bool :=
  match reason with
  | None | Some [] => false
  | Some (_ :: _) => true
  end.

Definition or_default (spec : regex_spec) (default : list regex) : regex_spec :=
  match spec with
  | SpecNone => SpecList default
  | _ => spec
  end.

Definition determine_semver_implication (self : t)
    (major_regexs minor_regexs patch_regexs : regex_spec) (default_semver_index : Z) : Z :=
  let major_regexs := or_default major_regexs DEFAULT_MAJOR_REGEXS in
  let minor_regexs := or_default minor_regexs DEFAULT_MINOR_REGEXS in
  let patch_regexs := or_default patch_regexs DEFAULT_PATCH_REGEXS in
  if truthy (is_compliant self major_regexs) then SemanticVersion.MAJOR_INDEX
  else if truthy (is_compliant self minor_regexs) then SemanticVersion.MINOR_INDEX
  else if truthy (is_compliant self patch_regexs) then SemanticVersion.PATCH_INDEX
  else default_semver_index.

Definition determine_semver_implication_on_list (msg_list : list t)
    (major_regexs minor_regexs patch_regexs : regex_spec) (default_semver_index : Z)
    : option Z :=
  match msg_list with
  | [] => None
  | _ =>
      Some (fold_left
              (fun msi commit_message =>
                 Z.min msi (determine_semver_implication commit_message
                              major_regexs minor_regexs patch_regexs default_semver_index))
              msg_list (SemanticVersion.PATCH_INDEX + 1)%Z)
  end.

End CommitMessage.

(** ** class RepositorySummary *)

Module RepositorySummary.

Record t := {
  commit_id : str;
  tag : str;
  version : str;
  commit_messages : list CommitMessage.t
}.

End RepositorySummary.

(** ** class GitRunner *)

(** a Python [dict] with string keys: the latest binding of a key is the one found *)
Definition dict := list (str * str).

Fixpoint dict_get (d : dict) (k : str) : option str :=
  match d with
  | [] => None
  | (k', v) :: d' => if str_eqb k' k then Some v else dict_get d' k
  end.

Definition dict_set (d : dict) (k v : str) : dict := (k, v) :: d.

(** [line.split(' ', 1)[0]] *)
Fixpoint first_token (line : str) : str :=
  match line with
  | [] => []
  | c :: t => if Ascii.eqb c SP then [] else c :: first_token t
  end.

Module GitRunner.

(** what [__normalize_repo_url] returns: the groups of the pattern that
    matched, or the absolute path of a local directory *)
Inductive repo_key :=
| KeyGroups (groups : list (option str))
| KeyPath (path : str).

Definition group_eqb (a b : option str) : bool :=
  match a, b with
  | Some x, Some y => str_eqb x y
  | None, None => true
  | _, _ => false
  end.

Fixpoint groups_eqb (g1 g2 : list (option str)) : bool :=
  match g1, g2 with
  | [], [] => true
  | a :: g1', b :: g2' => group_eqb a b && groups_eqb g1' g2'
  | _, _ => false
  end.

(** [==] on these values: a tuple and a string are never equal *)
Definition repo_key_eqb (a b : repo_key) : bool :=
  match a, b with
  | KeyGroups g1, KeyGroups g2 => groups_eqb g1 g2
  | KeyPath p1, KeyPath p2 => str_eqb p1 p2
  | _, _ => false
  end.

(** [[a-z0-9]+://([^/]+)/([^/]+)/(.+)] with three groups *)
Definition url_pattern : regex :=
  seqs [plus (either lower (between "0" "9")); lit ($"://");
        Grp 1 (plus (fun c => negb (only "/" c))); Chr "/";
        Grp 2 (plus (fun c => negb (only "/" c))); Chr "/";
        Grp 3 (plus dot)].

(** [git@([^:]+):([^/]+)/(.+)] with three groups *)
Definition ssh_pattern : regex :=
  seqs [lit ($"git@");
        Grp 1 (plus (fun c => negb (only ":" c))); Chr ":";
        Grp 2 (plus (fun c => negb (only "/" c))); Chr "/";
        Grp 3 (plus dot)].

Section WithPaths.

(** [os.path.abspath] *)
Variable abspath : str -> str.

Definition __normalize_repo_url (url : str) : repo_key :=
  let dot_git := $".git" in
  let gitless_url :=
    if endswith dot_git url then firstn (length url - length dot_git) url else url in
  match re_match url_pattern gitless_url with
  | Some found => KeyGroups (groups url_pattern found)
  | None =>
      match re_match ssh_pattern gitless_url with
      | Some found => KeyGroups (groups ssh_pattern found)
      | None => KeyPath (abspath url)
      end
  end.

Definition is_same_repo (first second : str) : bool :=
  let normalized_first := __normalize_repo_url first in
  let normalized_second := __normalize_repo_url second in
  repo_key_eqb normalized_first normalized_second.

End WithPaths.

(** how [__check_clone_branch] ends: it returns, or raises [IndexError]
    ([pop] from an empty list), [CalledProcessError] with its three fields,
    or the [ValueError] whose message is made of [branches] and [origin_url] *)
Inductive clone_outcome :=
| Cloned
| PopFromEmptyList
| CalledProcessError (cmd : str) (returncode : Z) (output : str)
| BranchesDoNotExist (branches : list str) (origin_url : str).

Section WithRunGit.

(** [run_git(git_dir, command)] runs git: from the state of the file system
    and the remote before the call it gives the return code and the output
    of git, and the state after the call *)
Variable world : Type.
Variable run_git : world -> str -> str -> (Z * str) * world.

(** the [while True] loop of [__check_clone_branch]; each turn pops the
    head of [remaining_branches] *)
Fixpoint clone_loop (w : world) (origin_url base_dir clone_command : str) (branches : list str)
    (remaining_branches : list str) : clone_outcome * world :=
  match remaining_branches with
  | [] => (PopFromEmptyList, w)
  | branch :: remaining_branches =>
      let cmd := clone_command ++ $" -b " ++ branch in
      let '((retcode, stdout), w) := run_git w base_dir cmd in
      if (retcode =? 0)%Z then (Cloned, w)
      else
        let not_found := contains ($"Remote branch " ++ branch ++ $" not found") stdout in
        if negb not_found then
          let full_command := $"git -C " ++ [DQUOTE] ++ base_dir ++ [DQUOTE] ++ $" " ++ cmd in
          (CalledProcessError full_command retcode stdout, w)
        else
          match remaining_branches with
          | _ :: _ => clone_loop w origin_url base_dir clone_command branches remaining_branches
          | [] => (BranchesDoNotExist branches origin_url, w)
          end
  end.

Definition __check_clone_branch (w : world) (origin_url base_dir clone_command : str)
    (branches : list str) : clone_outcome * world :=
  clone_loop w origin_url base_dir clone_command branches branches.

End WithRunGit.

Section WithGitState.

(** [check_git(git_dir, command)] runs git: from the state before the call
    it gives the text git prints, or the exception [check_subprocess]
    raises, and the state after the call *)
Variable world : Type.
Variable check_git : world -> str -> str -> exc str * world.

Definition delete_local_branch_if_exists (w : world) (git_dir branch : str)
    : exc unit * world :=
  match check_git w git_dir ($"branch -l") with
  | (Raise e, w) => (Raise e, w)
  | (Ok result, w) =>
      let branches :=
        map (fun elem => if startswith ($"*") elem then strip (skipn 1 elem) else elem)
            (split [NL] result) in
      if existsb (str_eqb branch) branches then
        match check_git w git_dir ($"branch -D " ++ branch) with
        | (Raise e, w) => (Raise e, w)
        | (Ok _, w) => (Ok tt, w)
        end
      else (Ok tt, w)
  end.

End WithGitState.

Section WithGit.

(** [check_git(git_dir, command)]: the text git prints, or the exception
    [check_subprocess] raises *)
Variable check_git : str -> str -> exc str.

(** [id_to_newest_tag], filled from [sorted(commit_tags)] *)
Definition id_to_newest_tag (commit_tags : list CommitTag.t) : dict :=
  fold_left (fun d commit_tag =>
               dict_set d (CommitTag.commit_id commit_tag) (CommitTag.tag commit_tag))
            (sorted CommitTag.lt commit_tags) [].

(** the [for line in lines] loop that looks for the baseline: the last
    value of [tag] and the number of lines passed *)
Fixpoint find_baseline (d : dict) (lines : list str) (tag : option str) (count : nat)
    : option str * nat :=
  match lines with
  | [] => (tag, count)
  | line :: rest =>
      let line_id := first_token line in
      let tag := dict_get d line_id in
      match tag with
      | Some (_ :: _) => (tag, count)                      (* [if tag: break] *)
      | _ => find_baseline d rest tag (S count)
      end
  end.

Definition no_baseline (commit_id git_dir : str) : error :=
  ValueError ($"There is no baseline tag for commit " ++ [DQUOTE] ++ commit_id
                ++ [DQUOTE] ++ $" in " ++ git_dir ++ $".").

Definition query_local_repository_commits_to_existing_tag_from_id
    (git_dir commit_id : str) (commit_tags : list CommitTag.t)
    : exc (str * list CommitMessage.t) :=
  let d := id_to_newest_tag commit_tags in
  match dict_get d commit_id with
  | Some tag => Ok (tag, [])
  | None =>
      result <- check_git git_dir ($"log --pretty=oneline " ++ commit_id) ;;
      let lines := split [NL] result in
      let '(tag, count) := find_baseline d lines None 0 in
      match tag with
      | None => Raise (no_baseline commit_id git_dir)
      | Some tag =>
          result <- check_git git_dir
                      ($"log -n " ++ str_of_int (Z.of_nat count)
                         ++ $" --pretty=medium " ++ commit_id) ;;
          messages <- CommitMessage.make_list_from_result result ;;
          Ok (tag, messages)
      end
  end.

Definition query_local_repository_commit_id (git_dir : str) : exc str :=
  check_git git_dir ($"rev-parse HEAD").

Definition query_tag_commits (git_dir : str) (tag_pattern : regex)
    : exc (list CommitTag.t) :=
  tag_ref_result <- check_git git_dir ($"show-ref --tags") ;;
  let ref_lines := split [NL] tag_ref_result in
  commit_tags <- mapM CommitTag.make ref_lines ;;
  let filtered :=
    filter (fun ct => match re_match tag_pattern (CommitTag.tag ct) with
                      | Some _ => true
                      | None => false
                      end) commit_tags in
  Ok (sorted_reverse CommitTag.lt filtered).

(** [^version-[0-9]+\.[0-9]+\.[0-9]+$], without MULTILINE *)
Definition version_tag_pattern : regex :=
  seqs [Bos; lit ($"version-"); plus (between "0" "9"); Chr ".";
        plus (between "0" "9"); Chr "."; plus (between "0" "9"); Eos].

Definition collect_repository_summary (git_dir : str) : exc RepositorySummary.t :=
  all_tags <- query_tag_commits git_dir version_tag_pattern ;;
  current_id <- query_local_repository_commit_id git_dir ;;
  r <- query_local_repository_commits_to_existing_tag_from_id git_dir current_id all_tags ;;
  let '(tag, msgs) := r in
  current_semver <- SemanticVersion.make tag ;;
  match msgs with
  | _ :: _ =>
      let semver_significance :=
        CommitMessage.determine_semver_implication_on_list msgs
          SpecNone SpecNone SpecNone SemanticVersion.MINOR_INDEX in
      next_semver <- SemanticVersion.next current_semver semver_significance ;;
      Ok {| RepositorySummary.commit_id := current_id;
            RepositorySummary.tag := SemanticVersion.to_tag next_semver;
            RepositorySummary.version := SemanticVersion.to_version next_semver;
            RepositorySummary.commit_messages := msgs |}
  | [] =>
      Ok {| RepositorySummary.commit_id := current_id;
            RepositorySummary.tag := tag;
            RepositorySummary.version := SemanticVersion.to_version current_semver;
            RepositorySummary.commit_messages := msgs |}
  end.

End WithGit.

End GitRunner.

(** * Vocabulary of the statements, and sample inputs *)

(** a text given by its lines *)
Definition lines_text (l : list string) : str :=
  join [NL] (map list_ascii_of_string l).

(** the byte before the cursor once [w] has been read *)
Definition last_of (prev : option ascii) (w : str) : option ascii :=
  fold_left (fun _ c => Some c) w prev.

(** [<series>-<a>.<b>.<c>] followed by [rest] *)
Definition semver_text (series a b c rest : str) : str :=
  series ++ "-"%char :: a ++ "."%char :: b ++ "."%char :: c ++ rest.

(** a non-empty run of decimal digits *)
Definition digit_run (a : str) : Prop := a <> [] /\ forallb isdigit a = true.

(** the spans of the four groups of [SEMVER_MATCHER] on such a text *)
Definition semver_caps (series a b c : str) : caps :=
  let p1 := length series in
  let p2 := S p1 in
  let p3 := S (p2 + length a) in
  let p4 := S (p3 + length b) in
  [(4, (p4, p4 + length c)); (3, (p3, p3 + length b)); (2, (p2, p2 + length a)); (1, (0, p1))].

Definition not_dash (c : ascii) : bool := negb (Ascii.eqb c "-").

(** a text that begins with [<series>-<major>.<minor>.<patch>] *)
Definition semver_prefixed (tag : str) : Prop :=
  exists series a b c rest,
    tag = semver_text series a b c rest /\
    series <> [] /\ forallb dot series = true /\
    digit_run a /\ digit_run b /\ digit_run c.

(** a text that is [<series>-<major>.<minor>.<patch>] from its first byte to
    its last, for any non-empty series *)
Definition semver_form (tag : str) : Prop :=
  exists series a b c,
    tag = semver_text series a b c [] /\
    series <> [] /\ digit_run a /\ digit_run b /\ digit_run c.

Definition sample_version : SemanticVersion.t :=
  {| SemanticVersion.series_name := $"release"; SemanticVersion.major := 1;
     SemanticVersion.minor := 20; SemanticVersion.patch := 3 |}.

Definition line_feed_version : SemanticVersion.t :=
  {| SemanticVersion.series_name := $"a" ++ [NL] ++ $"b"; SemanticVersion.major := 1;
     SemanticVersion.minor := 2; SemanticVersion.patch := 3 |}.

(** a series that holds [-<digits>.<digits>.<digits>] somewhere *)
Definition has_numeric_suffix (series : str) : Prop :=
  exists pre a b c post,
    series = semver_text pre a b c post /\ digit_run a /\ digit_run b /\ digit_run c.

(** one of the three levels a commit can have *)
Definition is_severity (i : Z) : Prop :=
  i = SemanticVersion.MAJOR_INDEX \/ i = SemanticVersion.MINOR_INDEX \/
  i = SemanticVersion.PATCH_INDEX.

Definition message_of (text : list string) : CommitMessage.t :=
  {| CommitMessage.commit_id := $"abc"; CommitMessage.author := $"Ann";
     CommitMessage.date := $"today"; CommitMessage.message := lines_text text |}.

Definition three_commits : list CommitMessage.t :=
  [message_of ["fix: a"%string]; message_of ["feat: b"%string];
   message_of ["chore: BREAKING CHANGE"%string]].

(** [pattern.search(text)] finds a match *)
Definition is_found (r : regex) (text : str) : bool :=
  match re_search r text with Some _ => true | None => false end.

(** some pattern of the rule set is found in the text *)
Definition rule_set_matches (spec : regex_spec) (text : str) : bool :=
  match spec with
  | SpecNone => false
  | SpecOne r => is_found r text
  | SpecList l => existsb (fun r => is_found r text) l
  end.

(** every pattern of the rule set has a capture group *)
Definition rule_set_grouped (spec : regex_spec) : Prop :=
  match spec with
  | SpecNone => True
  | SpecOne r => 1 <= ngroups r
  | SpecList l => Forall (fun r => 1 <= ngroups r) l
  end.

(** a MAJOR rule given as a pattern without a capture group *)
Definition plain_breaking_rule : regex_spec := SpecList [lit ($"BREAKING CHANGE")].

Definition breaking_commit : CommitMessage.t := message_of ["BREAKING CHANGE: drop the old API"%string].

(** a merge commit whose second embedded commit is indented by two blanks
    where the first one set four *)
Definition ragged_merge : CommitMessage.t :=
  message_of ["Merge branch topic";
              "";
              "    commit abc123";
              "    Author: Ann <ann@example.com>";
              "    Date:   Mon Jan 1 00:00:00 2018 +0000";
              "";
              "        fix(core): first";
              "";
              "  commit def456";
              "  Author: Bob <bob@example.com>";
              "  Date:   Tue Jan 2 00:00:00 2018 +0000";
              "";
              "      feat(web): second"]%string.

(** the same merge with both embedded commits indented by four blanks *)
Definition even_merge : CommitMessage.t :=
  message_of ["Merge branch topic";
              "";
              "    commit abc123";
              "    Author: Ann <ann@example.com>";
              "    Date:   Mon Jan 1 00:00:00 2018 +0000";
              "";
              "        fix(core): first";
              "";
              "    commit def456";
              "    Author: Bob <bob@example.com>";
              "    Date:   Tue Jan 2 00:00:00 2018 +0000";
              "";
              "        feat(web): second"]%string.

(** the embedded header found in [ragged_merge]: group 1 is its four blanks *)
Definition ragged_found : Match :=
  {| m_string := CommitMessage.message ragged_merge; m_start := 20; m_end := 114;
     m_caps := [(1, (20, 24))] |}.

(** [_EMBEDDED_SUMMARY_MATCHER.match(line)] succeeds *)
Definition is_summary_line (line : str) : bool :=
  match re_match CommitMessage._EMBEDDED_SUMMARY_MATCHER line with
  | Some _ => true
  | None => false
  end.

(** the lines from a summary line on, cut before each later summary line;
    [cur] is the block being filled *)
Fixpoint summary_blocks (cur : list str) (todo : list str) : list (list str) :=
  match todo with
  | [] => [cur]
  | line :: rest =>
      if is_summary_line line then cur :: summary_blocks [line] rest
      else summary_blocks (cur ++ [line]) rest
  end.

Definition with_message (commit_message : CommitMessage.t) (text : str) : CommitMessage.t :=
  {| CommitMessage.commit_id := CommitMessage.commit_id commit_message;
     CommitMessage.author := CommitMessage.author commit_message;
     CommitMessage.date := CommitMessage.date commit_message;
     CommitMessage.message := text |}.

Definition block_record (commit_message : CommitMessage.t) (block : list str) : CommitMessage.t :=
  with_message commit_message (rstrip (join [NL] block)).

Definition squashed_commit : CommitMessage.t :=
  message_of ["Merge pull request 12 from topic";
              "";
              "fix(core): first";
              "more about first";
              "* feat(web): second"]%string.

(** [a <= b]: [b] is not below [a] *)
Definition str_le (a b : str) : Prop := str_ltb b a = false.

Definition tag_le (x y : CommitTag.t) : Prop := str_le (CommitTag.tag x) (CommitTag.tag y).

(** [id_to_newest_tag[commit_tag.commit_id] = commit_tag.tag] *)
Definition bind_tag (d : dict) (commit_tag : CommitTag.t) : dict :=
  dict_set d (CommitTag.commit_id commit_tag) (CommitTag.tag commit_tag).

Definition tag_record (id tag : string) : CommitTag.t :=
  {| CommitTag.commit_id := $id; CommitTag.tag := $tag; CommitTag.version := $tag |}.

Definition twice_tagged : list CommitTag.t :=
  [tag_record "a1" "release-10.0.0"; tag_record "b2" "release-9.5.0";
   tag_record "a1" "release-9.0.0"; tag_record "a1" "release-1.0.0"].

(** [sep] occurs in [s] *)
Definition occurs (sep s : str) : Prop := exists a b, s = a ++ sep ++ b.

(** the text that starts a commit block inside a log *)
Definition commit_sep : str := NL :: $"commit ".

(** the text that marks a breaking change *)
Definition breaking_text : str := $"BREAKING CHANGE".

Definition one_commit_log : str :=
  lines_text ["commit abc123";
              "Author: Ann <ann@example.com>";
              "Date:   Mon Jan 1 00:00:00 2018 +0000";
              "";
              "    fix(core): first"]%string.

Definition one_commit_record : CommitMessage.t :=
  {| CommitMessage.commit_id := $"abc123";
     CommitMessage.author := $"Ann <ann@example.com>";
     CommitMessage.date := $"Mon Jan 1 00:00:00 2018 +0000";
     CommitMessage.message := $"    fix(core): first" |}.

(** the same log after a line of other output *)
Definition log_after_warning : str := $"warning: refname is ambiguous" ++ [NL] ++ one_commit_log.

(** the same log after an indented line that reads [commit x] *)
Definition log_after_indented_commit : str := $"  commit x" ++ [NL] ++ one_commit_log.

(** a log of two blocks; the second has no [Date:] line *)
Definition log_with_malformed_block : str :=
  one_commit_log ++ [NL; NL] ++
  lines_text ["commit def456";
              "Author: Bob <bob@example.com>";
              "";
              "    feat(web): second"]%string.

Definition malformed_entry : str :=
  lines_text ["def456";
              "Author: Bob <bob@example.com>";
              "";
              "    feat(web): second"]%string.

(** a repository with the tag [version-1.0.0] on commit [a1] and two commits
    above it; HEAD is [c3] *)
Definition pending_log : str :=
  lines_text ["commit c3";
              "Author: Ann <ann@example.com>";
              "Date:   Tue Jan 2 00:00:00 2018 +0000";
              "";
              "    Squash of topic, with a BREAKING CHANGE to the API";
              "    fix(core): first";
              "    feat(web): second";
              "";
              "commit b2";
              "Author: Bob <bob@example.com>";
              "Date:   Mon Jan 1 00:00:00 2018 +0000";
              "";
              "    fix(build): tidy"]%string.

Definition pending_git (git_dir command : str) : exc str :=
  if str_eqb command ($"show-ref --tags") then Ok ($"a1 refs/tags/version-1.0.0")
  else if str_eqb command ($"rev-parse HEAD") then Ok ($"c3")
  else if str_eqb command ($"log --pretty=oneline c3")
       then Ok (lines_text ["c3 squash of topic"; "b2 tidy"; "a1 first release"]%string)
  else if str_eqb command ($"log -n 2 --pretty=medium c3") then Ok pending_log
  else Raise (RuntimeError ($"unexpected git command")).

Definition ann_commit (text : list string) : CommitMessage.t :=
  {| CommitMessage.commit_id := $"c3"; CommitMessage.author := $"Ann <ann@example.com>";
     CommitMessage.date := $"Tue Jan 2 00:00:00 2018 +0000";
     CommitMessage.message := lines_text text |}.

Definition bob_commit (text : list string) : CommitMessage.t :=
  {| CommitMessage.commit_id := $"b2"; CommitMessage.author := $"Bob <bob@example.com>";
     CommitMessage.date := $"Mon Jan 1 00:00:00 2018 +0000";
     CommitMessage.message := lines_text text |}.

Definition pending_parsed : list CommitMessage.t :=
  [ann_commit ["    Squash of topic, with a BREAKING CHANGE to the API";
               "    fix(core): first";
               "    feat(web): second"]%string;
   bob_commit ["    fix(build): tidy"]%string].

Definition pending_normalized : list CommitMessage.t :=
  [ann_commit ["    fix(core): first"]%string;
   ann_commit ["    feat(web): second"]%string;
   bob_commit ["    fix(build): tidy"]%string].

Definition pending_summary : RepositorySummary.t :=
  {| RepositorySummary.commit_id := $"c3";
     RepositorySummary.tag := $"version-2.0.0";
     RepositorySummary.version := $"2.0.0";
     RepositorySummary.commit_messages := pending_parsed |}.

(** a version fit to be written as a tag: the series is not empty and holds
    no line feed, and no component is negative *)
Definition writable_version (v : SemanticVersion.t) : Prop :=
  SemanticVersion.series_name v <> [] /\
  forallb dot (SemanticVersion.series_name v) = true /\
  (0 <= SemanticVersion.major v)%Z /\
  (0 <= SemanticVersion.minor v)%Z /\
  (0 <= SemanticVersion.patch v)%Z.

(** the byte [c] does not occur in [s] *)
Definition free_of (c : ascii) (s : str) : bool :=
  forallb (fun x => negb (Ascii.eqb c x)) s.

(** [x] stands at or above [y] in the order of the tags *)
Definition tag_ge (x y : CommitTag.t) : Prop := tag_le y x.

(** [pattern.match(commit_tag.tag)] succeeds *)
Definition tag_matches (pattern : regex) (ct : CommitTag.t) : bool :=
  match re_match pattern (CommitTag.tag ct) with
  | Some _ => true
  | None => false
  end.

Definition index_error : error := IndexError ($"list index out of range").

(** the output of [git show-ref --tags] in a repository with three tags *)
Definition show_ref_output : str :=
  lines_text ["a1 refs/tags/version-1.0.0";
              "b2 refs/tags/nightly";
              "c3 refs/tags/version-1.10.0";
              "d4 refs/tags/version-1.9.0"]%string.

(** a repository whose HEAD, [c3], carries the tag [version-1.10.0] *)
Definition tagged_git (git_dir command : str) : exc str :=
  if str_eqb command ($"show-ref --tags")
  then Ok (lines_text ["c3 refs/tags/version-1.10.0"; "b2 refs/tags/nightly"]%string)
  else if str_eqb command ($"rev-parse HEAD") then Ok ($"c3")
  else Raise (RuntimeError ($"unexpected git command")).

(** a block of [git log --pretty=medium] without its leading [commit ]: the
    id, the author and the date on three lines, then the rest *)
Definition medium_entry (id blanks1 author blanks2 date body : str) : str :=
  id ++ NL :: $"Author:" ++ blanks1 ++ author ++ NL :: $"Date:" ++ blanks2 ++ date ++ NL :: body.

Definition starts_with_blank (s : str) : bool :=
  match s with
  | c :: _ => Ascii.eqb c SP
  | [] => false
  end.

(** the lines of [body] without trailing white space, and without the blank
    lines at both ends *)
Definition message_text (body : str) : str :=
  join [NL] (rev (dropwhile_list CommitMessage.is_empty
                    (rev (dropwhile_list CommitMessage.is_empty
                            (map rstrip (split [NL] body)))))).

(** a commit whose message has no summary line *)
Definition plain_commit : CommitMessage.t :=
  message_of ["Merge pull request 12 from topic";
              "";
              "tidy the build  "]%string.

(** a block of a log whose message has no summary line, and its record *)
Definition plain_entry : str :=
  lines_text ["abc123";
              "Author: Ann <ann@example.com>";
              "Date:   Mon Jan 1 00:00:00 2018 +0000";
              "";
              "    tidy the build";
              ""]%string.

Definition plain_record : CommitMessage.t :=
  {| CommitMessage.commit_id := $"abc123";
     CommitMessage.author := $"Ann <ann@example.com>";
     CommitMessage.date := $"Mon Jan 1 00:00:00 2018 +0000";
     CommitMessage.message := $"    tidy the build" |}.

(** the answer of git to a clone of [branch] is a failure that says that the
    remote has no such branch *)
Definition reports_missing (branch : str) (answer : Z * str) : bool :=
  negb (fst answer =? 0)%Z &&
  contains ($"Remote branch " ++ branch ++ $" not found") (snd answer).

(** the clone command for one branch *)
Definition branch_command (clone_command branch : str) : str :=
  clone_command ++ $" -b " ++ branch.

(** clones of the branches [tried], attempted in this order from the state
    [w], are all answered with [reports_missing]; the result is the state
    after the last of them *)
Fixpoint missing_until {world : Type} (run_git : world -> str -> str -> (Z * str) * world)
    (w : world) (base_dir clone_command : str) (tried : list str) : option world :=
  match tried with
  | [] => Some w
  | branch :: tried =>
      let '(answer, w) := run_git w base_dir (branch_command clone_command branch) in
      if reports_missing branch answer
      then missing_until run_git w base_dir clone_command tried
      else None
  end.

(** a remote that has the branch [master] only; the state counts the calls *)
Definition master_only (w : nat) (git_dir command : str) : (Z * str) * nat :=
  if str_eqb command ($"clone origin -b master") then ((0%Z, $"Cloning into 'repo'..."), S w)
  else if str_eqb command ($"clone origin -b release-1.0.x")
  then ((128%Z, $"fatal: Remote branch release-1.0.x not found in upstream origin"), S w)
  else ((128%Z, $"fatal: unable to access the remote"), S w).

(** the two ways of writing the address of a repository on a git host *)
Definition web_url (proto host owner path : str) : str :=
  proto ++ $"://" ++ host ++ "/"%char :: owner ++ "/"%char :: path.

Definition ssh_url (host owner path : str) : str :=
  $"git@" ++ host ++ ":"%char :: owner ++ "/"%char :: path.

(** nothing, or the postfix [.git] *)
Definition optional_dot_git (suffix : str) : Prop := suffix = [] \/ suffix = $".git".

(** [os.path.abspath] for absolute paths without [.] and [..] *)
Definition abspath_of_absolute (path : str) : str := path.

(** a repository whose HEAD, [c3], lies two commits above the commit [a1],
    which carries the tag [version-1.0.0]; an older tag lies further down *)
Definition two_above_git (git_dir command : str) : exc str :=
  if str_eqb command ($"log --pretty=oneline c3")
  then Ok (lines_text ["c3 squash of topic"; "b2 tidy"; "a1 first release"; "z0 start"]%string)
  else if str_eqb command ($"log -n 2 --pretty=medium c3") then Ok pending_log
  else Raise (RuntimeError ($"unexpected git command")).

(** a repository with the branches [master], checked out, and [feature];
    the state counts the calls of git *)
Definition two_branches_git (w : nat) (git_dir command : str) : exc str * nat :=
  if str_eqb command ($"branch -l")
  then (Ok (lines_text ["* master"; "  feature"; ""]%string), S w)
  else (Ok ($"Deleted branch"), S w).

(** * Properties *)

Unset Implicit Arguments.

(** ** The matcher *)

Lemma last_of_app prev w1 w2 : last_of prev (w1 ++ w2) = last_of (last_of prev w1) w2.
Proof. unfold last_of. apply fold_left_app. Qed.

Section RepGreedy.

Variable p : ascii -> bool.
Variable k : cont.

(** no way of stopping works, so the repetition fails *)
Lemma rep_greedy_none : forall u lo prev pos cs,
  (forall u1 u2, u = u1 ++ u2 -> lo <= length u1 -> forallb p u1 = true ->
     k (last_of prev u1) (pos + length u1) u2 cs = None) ->
  rep_greedy p k lo prev pos u cs = None.
Proof.
  induction u as [|c t IH]; intros lo prev pos cs H; simpl.
  - destruct (Nat.eqb_spec lo 0) as [->|]; [|reflexivity].
    specialize (H [] [] eq_refl (Nat.le_refl _) eq_refl). simpl in H.
    now rewrite Nat.add_0_r in H.
  - assert (Hstop : (if lo =? 0 then k prev pos (c :: t) cs else None) = None).
    { destruct (Nat.eqb_spec lo 0) as [->|]; [|reflexivity].
      specialize (H [] (c :: t) eq_refl (Nat.le_refl _) eq_refl). simpl in H.
      now rewrite Nat.add_0_r in H. }
    destruct (p c) eqn:Hc; [|exact Hstop].
    rewrite IH; [exact Hstop|].
    intros u1 u2 -> Hlo Hall.
    specialize (H (c :: u1) u2 eq_refl). simpl in H.
    rewrite Hc, Nat.add_succ_r in H. simpl in H. apply H; [lia|exact Hall].
Qed.

(** the longest stop at which the continuation succeeds is the one taken *)
Lemma rep_greedy_longest : forall w u lo prev pos cs r,
  forallb p w = true -> lo <= length w ->
  k (last_of prev w) (pos + length w) u cs = Some r ->
  (forall u1 u2, u = u1 ++ u2 -> u1 <> [] -> forallb p u1 = true ->
     k (last_of prev (w ++ u1)) (pos + length (w ++ u1)) u2 cs = None) ->
  rep_greedy p k lo prev pos (w ++ u) cs = Some r.
Proof.
  induction w as [|c w IH]; intros u lo prev pos cs r Hw Hlo Hk Hfail.
  - simpl in *. assert (lo = 0) by lia. subst lo. rewrite Nat.add_0_r in Hk.
    destruct u as [|c t]; simpl; [exact Hk|].
    destruct (p c) eqn:Hc; [|exact Hk].
    rewrite rep_greedy_none; [exact Hk|].
    intros u1 u2 -> _ Hall.
    specialize (Hfail (c :: u1) u2 eq_refl). simpl in Hfail.
    rewrite Hc, Nat.add_succ_r in Hfail. apply Hfail; [discriminate|exact Hall].
  - simpl in Hw. apply andb_prop in Hw as [Hc Hw]. simpl. rewrite Hc.
    rewrite (IH u (pred lo) (Some c) (S pos) cs r); auto.
    + simpl in Hlo. lia.
    + simpl in Hk. now rewrite Nat.add_succ_r in Hk.
    + intros u1 u2 E Hne Hall. specialize (Hfail u1 u2 E Hne Hall).
      simpl in Hfail. now rewrite Nat.add_succ_r in Hfail.
Qed.

(** a maximal run of the class followed by a success of the continuation *)
Lemma rep_greedy_munch w u lo prev pos cs r :
  forallb p w = true -> lo <= length w ->
  match u with [] => True | c :: _ => p c = false end ->
  k (last_of prev w) (pos + length w) u cs = Some r ->
  rep_greedy p k lo prev pos (w ++ u) cs = Some r.
Proof.
  intros Hw Hlo Hu Hk. apply rep_greedy_longest; auto.
  intros u1 u2 -> Hne Hall. destruct u1 as [|c u1]; [congruence|].
  simpl in Hu, Hall. rewrite Hu in Hall. discriminate.
Qed.

(** a success stops after some run of the class *)
Lemma rep_greedy_some : forall u lo prev pos cs r,
  rep_greedy p k lo prev pos u cs = Some r ->
  exists u1 u2, u = u1 ++ u2 /\ lo <= length u1 /\ forallb p u1 = true /\
                k (last_of prev u1) (pos + length u1) u2 cs = Some r.
Proof.
  induction u as [|c t IH]; intros lo prev pos cs r H; simpl in H.
  - destruct (Nat.eqb_spec lo 0) as [->|]; [|discriminate].
    exists [], []. simpl. rewrite Nat.add_0_r. auto.
  - assert (Hstop : (if lo =? 0 then k prev pos (c :: t) cs else None) = Some r ->
              exists u1 u2, c :: t = u1 ++ u2 /\ lo <= length u1 /\ forallb p u1 = true /\
                k (last_of prev u1) (pos + length u1) u2 cs = Some r).
    { destruct (Nat.eqb_spec lo 0) as [->|]; [|discriminate].
      intros Hk. exists [], (c :: t). simpl. rewrite Nat.add_0_r. auto. }
    destruct (p c) eqn:Hc; [|auto].
    destruct (rep_greedy p k (pred lo) (Some c) (S pos) t cs) eqn:Hin; [|auto].
    injection H as ->. apply IH in Hin as (u1 & u2 & -> & Hlo & Hall & Hk).
    exists (c :: u1), u2. simpl. rewrite Hc, Nat.add_succ_r.
    repeat split; auto. lia.
Qed.

(** a failure means that no stop works *)
Lemma rep_greedy_none_inv : forall u lo prev pos cs,
  rep_greedy p k lo prev pos u cs = None ->
  forall u1 u2, u = u1 ++ u2 -> lo <= length u1 -> forallb p u1 = true ->
    k (last_of prev u1) (pos + length u1) u2 cs = None.
Proof.
  induction u as [|c t IH]; intros lo prev pos cs H u1 u2 E Hlo Hall; simpl in H.
  - symmetry in E. apply app_eq_nil in E as [-> ->]. simpl in *.
    assert (lo = 0) by lia. subst lo. now rewrite Nat.add_0_r.
  - destruct u1 as [|d u1].
    + simpl in *. subst u2. assert (lo = 0) by lia. subst lo. rewrite Nat.add_0_r.
      simpl in H. destruct (p c); [|exact H].
      destruct (rep_greedy p k 0 (Some c) (S pos) t cs); [discriminate|exact H].
    + simpl in E. injection E as <- ->. simpl in Hall. apply andb_prop in Hall as [Hc Hall].
      rewrite Hc in H.
      destruct (rep_greedy p k (pred lo) (Some c) (S pos) (u1 ++ u2) cs) eqn:Hin;
        [discriminate|].
      simpl. rewrite Nat.add_succ_r.
      apply (IH (pred lo) (Some c) (S pos) cs Hin u1 u2 eq_refl); auto.
      simpl in Hlo. lia.
Qed.

End RepGreedy.

(** ** Decimal text *)

Arguments digit_char : simpl never.
Arguments isdigit : simpl never.
Arguments digit_val : simpl never.
Arguments isspace : simpl never.
Arguments dot : simpl never.

Lemma digit_char_code d : (0 <= d < 10)%Z -> nat_of_ascii (digit_char d) = 48 + Z.to_nat d.
Proof. intros H. unfold digit_char. apply nat_ascii_embedding. lia. Qed.

Lemma isdigit_digit_char d : (0 <= d < 10)%Z -> isdigit (digit_char d) = true.
Proof.
  intros H. unfold isdigit. rewrite digit_char_code by exact H.
  apply andb_true_intro. split; apply Nat.leb_le; lia.
Qed.

Lemma digit_val_digit_char d : (0 <= d < 10)%Z -> digit_val (digit_char d) = d.
Proof. intros H. unfold digit_val. rewrite digit_char_code by exact H. lia. Qed.

Lemma decimal_value_snoc s c : decimal_value (s ++ [c]) = (10 * decimal_value s + digit_val c)%Z.
Proof. unfold decimal_value. now rewrite fold_left_app. Qed.

Lemma digits_nonempty fuel n : digits (S fuel) n <> [].
Proof.
  cbn [digits]. destruct (n <? 10)%Z; [discriminate|].
  intros E. apply app_eq_nil in E as [_ E]. discriminate.
Qed.

Lemma digits_isdigit : forall fuel n, (0 <= n)%Z -> forallb isdigit (digits fuel n) = true.
Proof.
  induction fuel as [|f IH]; intros n Hn; [reflexivity|].
  cbn [digits]. destruct (Z.ltb_spec n 10).
  - cbn [forallb]. rewrite isdigit_digit_char by lia. reflexivity.
  - rewrite forallb_app, IH by (apply Z.div_pos; lia). cbn [forallb].
    rewrite isdigit_digit_char; [reflexivity|]. apply Z.mod_pos_bound. lia.
Qed.

Lemma digits_value : forall fuel n,
  (0 <= n < 2 ^ Z.of_nat fuel)%Z -> decimal_value (digits fuel n) = n.
Proof.
  induction fuel as [|f IH]; intros n Hn.
  - change (2 ^ Z.of_nat 0)%Z with 1%Z in Hn. assert (n = 0%Z) by lia. subst. reflexivity.
  - cbn [digits]. destruct (Z.ltb_spec n 10).
    + unfold decimal_value. cbn [fold_left]. rewrite digit_val_digit_char; lia.
    + rewrite decimal_value_snoc, IH.
      * rewrite digit_val_digit_char by (apply Z.mod_pos_bound; lia).
        symmetry. apply Z.div_mod. lia.
      * rewrite Nat2Z.inj_succ, Z.pow_succ_r in Hn by lia.
        split; [apply Z.div_pos; lia|].
        apply Z.div_lt_upper_bound; lia.
Qed.

Lemma str_of_nonneg_value n : (0 <= n)%Z -> decimal_value (str_of_nonneg n) = n.
Proof.
  intros Hn. unfold str_of_nonneg. apply digits_value.
  split; [exact Hn|].
  rewrite Nat2Z.inj_succ, Z2Nat.id by apply Z.log2_nonneg.
  destruct (Z.eq_dec n 0) as [->|]; [reflexivity|].
  apply Z.log2_spec. lia.
Qed.

Lemma int_str_of_int n : (0 <= n)%Z -> int (str_of_int n) = Ok n.
Proof.
  intros Hn. unfold str_of_int. destruct (Z.ltb_spec n 0); [lia|].
  unfold int. assert (Hd := digits_isdigit (S (Z.to_nat (Z.log2 n))) n Hn).
  assert (Hne := digits_nonempty (Z.to_nat (Z.log2 n)) n).
  fold (str_of_nonneg n) in Hd, Hne.
  destruct (str_of_nonneg n) eqn:E; [congruence|].
  rewrite Hd. f_equal. rewrite <- E. now apply str_of_nonneg_value.
Qed.

Lemma str_of_int_digits n :
  (0 <= n)%Z -> str_of_int n <> [] /\ forallb isdigit (str_of_int n) = true.
Proof.
  intros Hn. unfold str_of_int. destruct (Z.ltb_spec n 0); [lia|]. split.
  - apply digits_nonempty.
  - now apply digits_isdigit.
Qed.

(** ** SemanticVersion: tag texts *)

Lemma nonempty_length {A} (l : list A) : l <> [] -> 1 <= length l.
Proof. destruct l; [congruence|simpl; lia]. Qed.

Lemma suffix_of_cons {A} (x : A) l u1 u2 :
  x :: l = u1 ++ u2 -> u1 <> [] -> exists l1, l = l1 ++ u2.
Proof.
  destruct u1 as [|y u1]; [congruence|]. simpl. intros E _. injection E as _ ->. now exists u1.
Qed.

Lemma forallb_suffix {A} (p : A -> bool) l1 l2 : forallb p (l1 ++ l2) = true -> forallb p l2 = true.
Proof. rewrite forallb_app. intros H. now apply andb_prop in H. Qed.

Lemma isdigit_not_dash a : forallb isdigit a = true -> forallb not_dash a = true.
Proof.
  induction a as [|x a IH]; [reflexivity|]. cbn [forallb]. intros H.
  apply andb_prop in H as [Hx Ha]. rewrite (IH Ha), andb_true_r.
  unfold not_dash. destruct (Ascii.eqb_spec x "-"); [subst; discriminate|reflexivity].
Qed.

Lemma semver_run_exact series a b c :
  series <> [] -> forallb dot series = true ->
  digit_run a -> digit_run b -> digit_run c ->
  exists e, run SemanticVersion.SEMVER_MATCHER accept None 0 (semver_text series a b c []) []
  = Some {| res_end := e; res_caps := semver_caps series a b c |}.
Proof.
  intros Hne Hdot [Ha Hda] [Hb Hdb] [Hc Hdc].
  unfold SemanticVersion.SEMVER_MATCHER, seqs, plus, semver_text.
  cbn [fold_right run].
  eexists.
  apply rep_greedy_longest.
  - exact Hdot.
  - now apply nonempty_length.
  - cbn [run Ascii.eqb Bool.eqb].
    apply rep_greedy_munch; [exact Hda|now apply nonempty_length|reflexivity|].
    cbn [Ascii.eqb Bool.eqb].
    apply rep_greedy_munch; [exact Hdb|now apply nonempty_length|reflexivity|].
    cbn [Ascii.eqb Bool.eqb].
    apply rep_greedy_munch; [exact Hdc|now apply nonempty_length|exact I|].
    unfold accept, semver_caps. cbn [Nat.add]. reflexivity.
  - intros u1 u2 E Hu1 _. apply suffix_of_cons in E as [l1 E]; [|exact Hu1].
    assert (H : forallb not_dash (a ++ "."%char :: b ++ "."%char :: c ++ []) = true).
    { repeat first [rewrite forallb_app | progress cbn [forallb]].
      rewrite !isdigit_not_dash by assumption. reflexivity. }
    rewrite E in H. apply forallb_suffix in H.
    cbn [run]. destruct u2 as [|d t]; [reflexivity|].
    cbn [forallb] in H. apply andb_prop in H as [H _]. unfold not_dash in H.
    destruct (Ascii.eqb d "-"); [discriminate|reflexivity].
Qed.

Lemma slice_mid {A} (x y z : list A) i j :
  i = length x -> j = i + length y -> slice (x ++ y ++ z) i j = y.
Proof.
  intros -> ->. unfold slice.
  rewrite skipn_app, skipn_all, Nat.sub_diag. cbn [skipn app].
  replace (length x + length y - length x) with (length y) by lia.
  rewrite firstn_app, firstn_all, Nat.sub_diag. cbn [firstn]. apply app_nil_r.
Qed.

Lemma group_span (m : Match) i x y z a b :
  m_string m = x ++ y ++ z -> span_of (m_caps m) i = Some (a, b) ->
  a = length x -> b = a + length y -> group m i = y.
Proof.
  intros Hs Hc Ha Hb. unfold group, start, end_. rewrite Hc, Hs. now apply slice_mid.
Qed.

Lemma int_digit_run a : digit_run a -> int a = Ok (decimal_value a).
Proof.
  intros [Hne Hd]. unfold int. destruct a; [congruence|]. now rewrite Hd.
Qed.

Lemma make_of_run tag res series a b c rest :
  run SemanticVersion.SEMVER_MATCHER accept None 0 tag [] = Some res ->
  tag = semver_text series a b c rest ->
  res_caps res = semver_caps series a b c ->
  digit_run a -> digit_run b -> digit_run c ->
  SemanticVersion.make tag =
  Ok {| SemanticVersion.series_name := series;
        SemanticVersion.major := decimal_value a;
        SemanticVersion.minor := decimal_value b;
        SemanticVersion.patch := decimal_value c |}.
Proof.
  intros Hrun Htag Hcaps Ha Hb Hc.
  unfold SemanticVersion.make, re_match. rewrite Hrun, Hcaps.
  set (m := {| m_string := tag; m_start := 0; m_end := res_end res;
               m_caps := semver_caps series a b c |}).
  assert (G1 : group m 1 = series).
  { apply (@group_span m 1 [] series ("-"%char :: a ++ "."%char :: b ++ "."%char :: c ++ rest)
             0 (length series)); [exact Htag|reflexivity|reflexivity|reflexivity]. }
  assert (G2 : group m 2 = a).
  { apply (@group_span m 2 (series ++ ["-"%char]) a ("."%char :: b ++ "."%char :: c ++ rest)
             (S (length series)) (S (length series) + length a)).
    - cbn [m_string m]. rewrite Htag. unfold semver_text. now rewrite <- app_assoc.
    - reflexivity.
    - rewrite length_app. simpl. lia.
    - reflexivity. }
  assert (G3 : group m 3 = b).
  { apply (@group_span m 3 (series ++ "-"%char :: a ++ ["."%char]) b ("."%char :: c ++ rest)
             (S (S (length series) + length a)) (S (S (length series) + length a) + length b)).
    - cbn [m_string m]. rewrite Htag. unfold semver_text.
      rewrite <- !app_assoc. cbn [app]. now rewrite <- !app_assoc.
    - reflexivity.
    - rewrite length_app. cbn [length]. rewrite length_app. simpl. lia.
    - reflexivity. }
  assert (G4 : group m 4 = c).
  { apply (@group_span m 4 (series ++ "-"%char :: a ++ "."%char :: b ++ ["."%char]) c rest
             (S (S (S (length series) + length a) + length b))
             (S (S (S (length series) + length a) + length b) + length c)).
    - cbn [m_string m]. rewrite Htag. unfold semver_text.
      rewrite <- !app_assoc. cbn [app]. rewrite <- !app_assoc. cbn [app].
      now rewrite <- !app_assoc.
    - reflexivity.
    - rewrite length_app. cbn [length]. rewrite length_app. cbn [length].
      rewrite length_app. simpl. lia.
    - reflexivity. }
  rewrite G1, G2, G3, G4.
  rewrite (int_digit_run _ Ha), (int_digit_run _ Hb), (int_digit_run _ Hc). reflexivity.
Qed.

(** every success of the pattern reads a series, three digit runs and the
    separators between them, and records their spans *)
Lemma semver_run_inv tag res :
  run SemanticVersion.SEMVER_MATCHER accept None 0 tag [] = Some res ->
  exists series a b c rest,
    tag = semver_text series a b c rest /\
    series <> [] /\ forallb dot series = true /\
    digit_run a /\ digit_run b /\ digit_run c /\
    res_caps res = semver_caps series a b c.
Proof.
  unfold SemanticVersion.SEMVER_MATCHER, seqs, plus. cbn [fold_right run]. intros H.
  apply rep_greedy_some in H as (series & u & -> & Hl1 & Hd1 & H).
  destruct u as [|d u]; [discriminate|].
  destruct (Ascii.eqb_spec d "-"); [subst d|discriminate].
  apply rep_greedy_some in H as (a & u' & -> & Hl2 & Hd2 & H).
  destruct u' as [|d u]; [discriminate|].
  destruct (Ascii.eqb_spec d "."); [subst d|discriminate].
  apply rep_greedy_some in H as (b & u' & -> & Hl3 & Hd3 & H).
  destruct u' as [|d u]; [discriminate|].
  destruct (Ascii.eqb_spec d "."); [subst d|discriminate].
  apply rep_greedy_some in H as (c & rest & -> & Hl4 & Hd4 & H).
  unfold accept in H. injection H as <-.
  exists series, a, b, c, rest. unfold digit_run, semver_caps. cbn [res_caps Nat.add].
  repeat split; try assumption;
    try (intros ->; simpl in *; lia).
Qed.

(** a text that starts as a version tag is matched *)
Lemma semver_run_complete series a b c rest :
  series <> [] -> forallb dot series = true ->
  digit_run a -> digit_run b -> digit_run c ->
  run SemanticVersion.SEMVER_MATCHER accept None 0 (semver_text series a b c rest) [] <> None.
Proof.
  intros Hne Hdot [Ha Hda] [Hb Hdb] [Hc Hdc].
  unfold SemanticVersion.SEMVER_MATCHER, seqs, plus, semver_text. cbn [fold_right run].
  intros H.
  apply (fun H => @rep_greedy_none_inv _ _ _ _ _ _ _ H series _ eq_refl) in H;
    [|now apply nonempty_length|exact Hdot].
  cbn [Ascii.eqb Bool.eqb] in H.
  apply (fun H => @rep_greedy_none_inv _ _ _ _ _ _ _ H a _ eq_refl) in H;
    [|now apply nonempty_length|exact Hda].
  cbn [Ascii.eqb Bool.eqb] in H.
  apply (fun H => @rep_greedy_none_inv _ _ _ _ _ _ _ H b _ eq_refl) in H;
    [|now apply nonempty_length|exact Hdb].
  cbn [Ascii.eqb Bool.eqb] in H.
  apply (fun H => @rep_greedy_none_inv _ _ _ _ _ _ _ H c _ eq_refl) in H;
    [|now apply nonempty_length|exact Hdc].
  discriminate.
Qed.

Lemma last_app_nonempty {A} (l1 l2 : list A) d : l2 <> [] -> last (l1 ++ l2) d = last l2 d.
Proof.
  intros Hne. induction l1 as [|x l1 IH]; [reflexivity|].
  cbn [app]. destruct (l1 ++ l2) eqn:E.
  - apply app_eq_nil in E as [_ E]. congruence.
  - rewrite <- IH. reflexivity.
Qed.

Lemma forallb_last {A} (p : A -> bool) l d : l <> [] -> forallb p l = true -> p (last l d) = true.
Proof.
  induction l as [|x l IH]; [congruence|]. intros _ H. cbn [forallb] in H.
  apply andb_prop in H as [Hx Hl]. destruct l as [|y l]; [exact Hx|].
  apply IH; [discriminate|exact Hl].
Qed.

Lemma semver_form_ends_with_digit tag d : semver_form tag -> isdigit (last tag d) = true.
Proof.
  intros (series & a & b & c & -> & _ & _ & _ & Hc & Hd).
  unfold semver_text. rewrite app_nil_r.
  replace (series ++ "-"%char :: a ++ "."%char :: b ++ "."%char :: c)
    with ((series ++ "-"%char :: a ++ "."%char :: b ++ ["."%char]) ++ c).
  - rewrite last_app_nonempty by exact Hc. now apply forallb_last.
  - rewrite <- !app_assoc. cbn [app]. rewrite <- !app_assoc. cbn [app].
    now rewrite <- !app_assoc.
Qed.

Lemma to_tag_text v :
  SemanticVersion.to_tag v =
  semver_text (SemanticVersion.series_name v) (str_of_int (SemanticVersion.major v))
    (str_of_int (SemanticVersion.minor v)) (str_of_int (SemanticVersion.patch v)) [].
Proof. unfold SemanticVersion.to_tag, semver_text. cbn [list_ascii_of_string app]. now rewrite app_nil_r. Qed.

(** C4, as the code has it: [SemanticVersion.make] accepts exactly the texts
    that begin with [<series>-<major>.<minor>.<patch>], the series being a
    non-empty run of bytes other than line feed and each component a non-empty
    run of decimal digits; whatever follows is ignored.  On success the
    version read is one such reading of the text; on every other text the
    call raises [ValueError] with the message [Malformed tag "<text>"]. *)
Theorem make_accepts_version_prefix (tag : str) :
  (forall v, SemanticVersion.make tag = Ok v ->
     exists series a b c rest,
       tag = semver_text series a b c rest /\
       series <> [] /\ forallb dot series = true /\
       digit_run a /\ digit_run b /\ digit_run c /\
       v = {| SemanticVersion.series_name := series;
              SemanticVersion.major := decimal_value a;
              SemanticVersion.minor := decimal_value b;
              SemanticVersion.patch := decimal_value c |}) /\
  (semver_prefixed tag -> exists v, SemanticVersion.make tag = Ok v) /\
  (~ semver_prefixed tag ->
     SemanticVersion.make tag = Raise (SemanticVersion.malformed_tag tag)).
Proof.
  assert (Hok : forall res,
            run SemanticVersion.SEMVER_MATCHER accept None 0 tag [] = Some res ->
            exists series a b c rest,
              tag = semver_text series a b c rest /\
              series <> [] /\ forallb dot series = true /\
              digit_run a /\ digit_run b /\ digit_run c /\
              SemanticVersion.make tag =
              Ok {| SemanticVersion.series_name := series;
                    SemanticVersion.major := decimal_value a;
                    SemanticVersion.minor := decimal_value b;
                    SemanticVersion.patch := decimal_value c |}).
  { intros res Hrun.
    destruct (semver_run_inv _ _ Hrun) as (series & a & b & c & rest & E & H1 & H2 & Ha & Hb & Hc & Hcaps).
    exists series, a, b, c, rest. repeat split; try assumption; try apply Ha; try apply Hb; try apply Hc.
    now apply (make_of_run _ _ _ _ _ _ _ Hrun E Hcaps). }
  split; [|split].
  - intros v Hv.
    destruct (run SemanticVersion.SEMVER_MATCHER accept None 0 tag []) as [res|] eqn:Hrun.
    + destruct (Hok res eq_refl) as (series & a & b & c & rest & E & H1 & H2 & Ha & Hb & Hc & Hm).
      exists series, a, b, c, rest. rewrite Hm in Hv. injection Hv as <-.
      repeat split; try assumption; try apply Ha; try apply Hb; try apply Hc.
    + unfold SemanticVersion.make, re_match in Hv. rewrite Hrun in Hv. discriminate.
  - intros (series & a & b & c & rest & -> & H1 & H2 & Ha & Hb & Hc).
    destruct (run SemanticVersion.SEMVER_MATCHER accept None 0
                (semver_text series a b c rest) []) as [res|] eqn:Hrun.
    + destruct (Hok res eq_refl) as (s' & a' & b' & c' & r' & _ & _ & _ & _ & _ & _ & Hm).
      eexists. exact Hm.
    + exfalso. now apply (@semver_run_complete series a b c rest).
  - intros Hno.
    destruct (run SemanticVersion.SEMVER_MATCHER accept None 0 tag []) as [res|] eqn:Hrun.
    + exfalso. apply Hno.
      destruct (Hok res eq_refl) as (series & a & b & c & rest & E & H1 & H2 & Ha & Hb & Hc & _).
      now exists series, a, b, c, rest.
    + unfold SemanticVersion.make, re_match. now rewrite Hrun.
Qed.

Lemma make_accepts_version_prefix_witness :
  exists v, SemanticVersion.make ($"release-1.2.3rc") = Ok v.
Proof.
  apply (proj1 (proj2 (make_accepts_version_prefix ($"release-1.2.3rc")))).
  exists ($"release"), ($"1"), ($"2"), ($"3"), ($"rc").
  repeat split; try discriminate; reflexivity.
Defined.

(** C4 as stated fails: a text with bytes after the patch number is not of
    the form [<series>-<major>.<minor>.<patch>], and it is parsed. *)
Lemma make_accepts_trailing_text :
  SemanticVersion.make ($"release-1.2.3rc") =
    Ok {| SemanticVersion.series_name := $"release"; SemanticVersion.major := 1;
          SemanticVersion.minor := 2; SemanticVersion.patch := 3 |}
  /\ ~ semver_form ($"release-1.2.3rc").
Proof.
  split; [reflexivity|].
  intros H. apply (semver_form_ends_with_digit _ " "%char) in H. discriminate.
Qed.

(** C8, as the code has it: for every version with a non-empty series that
    holds no line feed and with non-negative components, parsing the tag text
    that [to_tag] writes gives the version back.  (A series with a numeric
    suffix of its own is covered: the pattern takes the longest series.) *)
Theorem parse_format_round_trip (v : SemanticVersion.t) :
  SemanticVersion.series_name v <> [] ->
  forallb dot (SemanticVersion.series_name v) = true ->
  (0 <= SemanticVersion.major v)%Z ->
  (0 <= SemanticVersion.minor v)%Z ->
  (0 <= SemanticVersion.patch v)%Z ->
  SemanticVersion.make (SemanticVersion.to_tag v) = Ok v.
Proof.
  intros Hne Hdot Hma Hmi Hpa. destruct v as [series ma mi pa].
  cbn [SemanticVersion.series_name SemanticVersion.major
       SemanticVersion.minor SemanticVersion.patch] in Hne, Hdot, Hma, Hmi, Hpa.
  rewrite to_tag_text. cbn [SemanticVersion.series_name SemanticVersion.major
                             SemanticVersion.minor SemanticVersion.patch].
  destruct (@semver_run_exact series (str_of_int ma) (str_of_int mi) (str_of_int pa))
    as [e Hrun]; try assumption; try (now apply str_of_int_digits).
  rewrite (make_of_run _ _ _ _ _ _ _ Hrun eq_refl eq_refl); try (now apply str_of_int_digits).
  unfold decimal_value.
  pose proof (int_str_of_int _ Hma) as Ia. pose proof (int_str_of_int _ Hmi) as Ib.
  pose proof (int_str_of_int _ Hpa) as Ic.
  rewrite (int_digit_run _ (str_of_int_digits _ Hma)) in Ia.
  rewrite (int_digit_run _ (str_of_int_digits _ Hmi)) in Ib.
  rewrite (int_digit_run _ (str_of_int_digits _ Hpa)) in Ic.
  injection Ia as Ia. injection Ib as Ib. injection Ic as Ic.
  unfold decimal_value in Ia, Ib, Ic. now rewrite Ia, Ib, Ic.
Qed.

Lemma parse_format_round_trip_witness :
  SemanticVersion.make (SemanticVersion.to_tag sample_version) = Ok sample_version.
Proof.
  apply parse_format_round_trip; [discriminate|reflexivity|discriminate|discriminate|discriminate].
Defined.

(** C8 as stated fails: a version whose series holds a line feed satisfies
    the claim's conditions, and the tag text written for it is refused. *)
Lemma round_trip_fails_on_line_feed :
  SemanticVersion.series_name line_feed_version <> [] /\
  ~ has_numeric_suffix (SemanticVersion.series_name line_feed_version) /\
  (0 <= SemanticVersion.major line_feed_version)%Z /\
  (0 <= SemanticVersion.minor line_feed_version)%Z /\
  (0 <= SemanticVersion.patch line_feed_version)%Z /\
  SemanticVersion.make (SemanticVersion.to_tag line_feed_version) =
    Raise (SemanticVersion.malformed_tag (SemanticVersion.to_tag line_feed_version)) /\
  SemanticVersion.make (SemanticVersion.to_tag line_feed_version) <> Ok line_feed_version.
Proof.
  repeat split; try discriminate.
  intros (pre & a & b & c & post & E & _).
  assert (H : In "-"%char (SemanticVersion.series_name line_feed_version)).
  { rewrite E. unfold semver_text. apply in_or_app. right. now left. }
  cbn in H. intuition discriminate.
Qed.

(** ** SemanticVersion: successors *)


Lemma next_of_sample_version :
  SemanticVersion.next sample_version (Some SemanticVersion.PATCH_INDEX)
    = SemanticVersion.make ($"release-1.20.4") /\
  SemanticVersion.next sample_version (Some SemanticVersion.MINOR_INDEX)
    = SemanticVersion.make ($"release-1.21.0") /\
  SemanticVersion.next sample_version (Some SemanticVersion.MAJOR_INDEX)
    = SemanticVersion.make ($"release-2.0.0").
Proof. repeat split. Qed.

(** ** Finding BREAKING CHANGE *)

Lemma rep_lazy_none_inv p k : forall u lo prev pos cs,
  rep_lazy p k lo prev pos u cs = None ->
  forall u1 u2, u = u1 ++ u2 -> lo <= length u1 -> forallb p u1 = true ->
    k (last_of prev u1) (pos + length u1) u2 cs = None.
Proof.
  induction u as [|c t IH]; intros lo prev pos cs H u1 u2 E Hlo Hall; cbn [rep_lazy] in H.
  - symmetry in E. apply app_eq_nil in E as [-> ->]. cbn in *.
    assert (lo = 0) by lia. subst lo. rewrite Nat.add_0_r.
    cbn in H. destruct (k prev pos [] cs); [discriminate|reflexivity].
  - destruct u1 as [|d u1].
    + cbn in *. subst u2. assert (lo = 0) by lia. subst lo. rewrite Nat.add_0_r.
      cbn in H. destruct (k prev pos (c :: t) cs); [discriminate|reflexivity].
    + cbn [app] in E. injection E as <- ->. cbn [forallb] in Hall.
      apply andb_prop in Hall as [Hc Hall].
      destruct (if lo =? 0 then k prev pos (c :: u1 ++ u2) cs else None); [discriminate|].
      rewrite Hc in H. cbn [last_of fold_left length]. rewrite Nat.add_succ_r.
      apply (IH (pred lo) (Some c) (S pos) cs H u1 u2 eq_refl); [cbn in Hlo; lia|exact Hall].
Qed.

Lemma search_from_none_inv r whole : forall x rest prev pos,
  search_from r whole prev pos (x ++ rest) = None ->
  run r accept (last_of prev x) (pos + length x) rest [] = None.
Proof.
  induction x as [|c x IH]; intros rest prev pos H.
  - cbn [app length last_of fold_left]. rewrite Nat.add_0_r.
    destruct rest; cbn [app search_from] in H;
      destruct (run r accept prev pos _ []); congruence.
  - cbn [app search_from] in H. destruct (run r accept prev pos (c :: x ++ rest) []); [discriminate|].
    cbn [length]. rewrite Nat.add_succ_r. apply (IH rest (Some c) (S pos) H).
Qed.

(** a text is cut at its last line feed *)
Lemma last_line_start : forall a,
  exists a1 a2, a = a1 ++ a2 /\ forallb dot a2 = true /\ at_bol (last_of None a1) = true.
Proof.
  assert (H : forall a prev, exists a1 a2, a = a1 ++ a2 /\ forallb dot a2 = true /\
                (a1 = [] \/ at_bol (last_of prev a1) = true)).
  { induction a as [|c a IH]; intros prev.
    - exists [], []. auto.
    - destruct (IH (Some c)) as (a1 & a2 & -> & Hd & H).
      destruct H as [->|H].
      + destruct (dot c) eqn:Ec.
        * exists [], (c :: a2). cbn [forallb app]. rewrite Ec. auto.
        * exists [c], a2. repeat split; auto. right. cbn.
          unfold dot in Ec. now destruct (Ascii.eqb c NL).
      + exists (c :: a1), a2. repeat split; auto. }
  intros a. destruct (H a None) as (a1 & a2 & E & Hd & Hb). exists a1, a2.
  repeat split; auto. destruct Hb as [->|Hb]; [reflexivity|exact Hb].
Qed.

Lemma breaking_change_found text :
  occurs breaking_text text ->
  existsb (fun r => is_found r text) CommitMessage.DEFAULT_MAJOR_REGEXS = true.
Proof.
  intros (a & b & ->). destruct (last_line_start a) as (a1 & a2 & -> & Hd & Hb).
  cbn [CommitMessage.DEFAULT_MAJOR_REGEXS existsb]. rewrite orb_false_r.
  unfold is_found, re_search.
  match goal with |- context [search_from ?r ?w ?p ?i ?s] =>
    destruct (search_from r w p i s) eqn:E end; [reflexivity|exfalso].
  rewrite <- app_assoc in E. apply search_from_none_inv in E.
  unfold seqs, star, lazy_star in E. cbn [fold_right run] in E. rewrite Hb in E.
  apply (fun H => rep_greedy_none_inv _ _ _ _ _ _ _ H [] _ eq_refl (Nat.le_refl _) eq_refl) in E.
  cbn [last_of fold_left length] in E.
  apply (fun H => rep_lazy_none_inv _ _ _ _ _ _ _ H a2 _ eq_refl (Nat.le_0_l _) Hd) in E.
  unfold breaking_text in E. cbn [list_ascii_of_string app lit run Ascii.eqb Bool.eqb] in E.
  apply (fun H => rep_greedy_none_inv _ _ _ _ _ _ _ H [] _ eq_refl (Nat.le_refl _) eq_refl) in E.
  discriminate.
Qed.

Lemma dropwhile_app_stop p c t : forall a,
  p c = false -> dropwhile p (a ++ c :: t) = dropwhile p a ++ c :: t.
Proof.
  induction a as [|x a IH]; intros Hc; cbn [app dropwhile].
  - now rewrite Hc.
  - destruct (p x); [now apply IH|reflexivity].
Qed.

(** stripping a text keeps what stands between two bytes that are not blank *)
Lemma strip_keeps_occurrence w c wt d wr s :
  w = c :: wt -> rev w = d :: wr -> isspace c = false -> isspace d = false ->
  occurs w s -> occurs w (strip s).
Proof.
  intros -> Hr Hc Hd (a & b & ->). unfold strip, lstrip, rstrip.
  cbn [app]. rewrite dropwhile_app_stop by exact Hc.
  set (a' := dropwhile isspace a).
  assert (E : rev (a' ++ c :: wt ++ b) = rev b ++ d :: (wr ++ rev a')).
  { change (a' ++ c :: wt ++ b) with (a' ++ (c :: wt) ++ b).
    rewrite !rev_app_distr, Hr, <- app_assoc. reflexivity. }
  rewrite E, dropwhile_app_stop by exact Hd.
  exists a', (rev (dropwhile isspace (rev b))).
  rewrite rev_app_distr.
  assert (E2 : rev (d :: wr ++ rev a') = a' ++ c :: wt).
  { change (d :: wr ++ rev a') with ((d :: wr) ++ rev a').
    rewrite rev_app_distr, rev_involutive, <- Hr, rev_involutive. reflexivity. }
  rewrite E2, <- app_assoc. reflexivity.
Qed.

Lemma breaking_change_survives_strip s :
  occurs breaking_text s -> occurs breaking_text (strip s).
Proof.
  apply (strip_keeps_occurrence breaking_text "B" ($"REAKING CHANGE")
           "E" (rev ($"BREAKING CHANG"))); reflexivity.
Qed.

(** ** Severity of one commit *)

Lemma groups_nonempty r m : 1 <= ngroups r -> groups r m <> [].
Proof.
  unfold groups. intros H E. apply (f_equal (@length _)) in E.
  rewrite length_map, length_seq in E. cbn [length] in E. lia.
Qed.

Lemma first_groups_truthy text : forall l,
  Forall (fun r => 1 <= ngroups r) l ->
  CommitMessage.truthy (CommitMessage.first_groups text l) = existsb (fun r => is_found r text) l.
Proof.
  induction l as [|r l IH]; intros H; [reflexivity|].
  inversion H as [|? ? Hr Hl]; subst. cbn [CommitMessage.first_groups existsb]. unfold is_found at 1.
  destruct (re_search r text) as [m|].
  - cbn [CommitMessage.truthy orb]. pose proof (groups_nonempty r m Hr).
    destruct (groups r m); [congruence|reflexivity].
  - cbn [orb]. now apply IH.
Qed.

Lemma is_compliant_truthy self spec :
  rule_set_grouped spec ->
  CommitMessage.truthy (CommitMessage.is_compliant self spec)
  = rule_set_matches spec (strip (CommitMessage.message self)).
Proof.
  destruct spec as [|r|l]; cbn [rule_set_grouped rule_set_matches CommitMessage.is_compliant].
  - reflexivity.
  - intros H. rewrite first_groups_truthy by (constructor; [exact H|constructor]).
    cbn [existsb]. apply orb_false_r.
  - intros H. destruct l as [|r l]; [reflexivity|]. now apply first_groups_truthy.
Qed.

Lemma default_rules_grouped :
  rule_set_grouped (SpecList CommitMessage.DEFAULT_MAJOR_REGEXS) /\
  rule_set_grouped (SpecList CommitMessage.DEFAULT_MINOR_REGEXS) /\
  rule_set_grouped (SpecList CommitMessage.DEFAULT_PATCH_REGEXS).
Proof. repeat split; repeat constructor. Qed.

Lemma or_default_grouped spec default :
  rule_set_grouped spec -> rule_set_grouped (SpecList default) ->
  rule_set_grouped (CommitMessage.or_default spec default).
Proof. destruct spec; auto. Qed.

(** X1: for rule sets whose patterns all have a capture group, the sets are
    tried in the order MAJOR, MINOR, PATCH, the first one with a pattern
    found in the stripped message gives the index, and the default index is
    returned when none has one. *)
Theorem grouped_rules_first_match_wins self major minor patch default :
  rule_set_grouped major -> rule_set_grouped minor -> rule_set_grouped patch ->
  let text := strip (CommitMessage.message self) in
  CommitMessage.determine_semver_implication self major minor patch default =
    if rule_set_matches (CommitMessage.or_default major CommitMessage.DEFAULT_MAJOR_REGEXS) text
    then SemanticVersion.MAJOR_INDEX
    else if rule_set_matches (CommitMessage.or_default minor CommitMessage.DEFAULT_MINOR_REGEXS) text
    then SemanticVersion.MINOR_INDEX
    else if rule_set_matches (CommitMessage.or_default patch CommitMessage.DEFAULT_PATCH_REGEXS) text
    then SemanticVersion.PATCH_INDEX
    else default.
Proof.
  intros H1 H2 H3 text. unfold CommitMessage.determine_semver_implication.
  rewrite !is_compliant_truthy; [reflexivity| | |];
    apply or_default_grouped; try assumption; apply default_rules_grouped.
Qed.

Lemma grouped_rules_first_match_wins_example :
  CommitMessage.determine_semver_implication (message_of ["feat(x): y"; ""; "BREAKING CHANGE: z"]%string)
    SpecNone SpecNone SpecNone SemanticVersion.MINOR_INDEX = SemanticVersion.MAJOR_INDEX /\
  CommitMessage.determine_semver_implication (message_of ["fix(x): y"]%string)
    SpecNone SpecNone SpecNone SemanticVersion.MINOR_INDEX = SemanticVersion.PATCH_INDEX /\
  CommitMessage.determine_semver_implication (message_of ["feat(x): y"]%string)
    SpecNone SpecNone SpecNone SemanticVersion.MINOR_INDEX = SemanticVersion.MINOR_INDEX /\
  CommitMessage.determine_semver_implication (message_of ["random text"]%string)
    SpecNone SpecNone SpecNone SemanticVersion.MINOR_INDEX = SemanticVersion.MINOR_INDEX /\
  CommitMessage.determine_semver_implication (message_of ["random text"]%string)
    SpecNone SpecNone SpecNone SemanticVersion.PATCH_INDEX = SemanticVersion.PATCH_INDEX.
Proof. repeat split. Qed.

Lemma grouped_rules_first_match_wins_witness :
  CommitMessage.determine_semver_implication
    (message_of ["feat(x): y"; ""; "BREAKING CHANGE: z"]%string)
    SpecNone SpecNone SpecNone SemanticVersion.MINOR_INDEX = SemanticVersion.MAJOR_INDEX.
Proof.
  apply (grouped_rules_first_match_wins
           (message_of ["feat(x): y"; ""; "BREAKING CHANGE: z"]%string)
           SpecNone SpecNone SpecNone SemanticVersion.MINOR_INDEX I I I).
Defined.

(** C7 at a rule mapping whose MAJOR pattern has no capture group: the
    pattern is found in the message, and the message is classified by the
    default index, MINOR, as if the MAJOR rule set had not matched. *)
Theorem groupless_major_rule_is_passed_over :
  rule_set_matches plain_breaking_rule (strip (CommitMessage.message breaking_commit)) = true /\
  CommitMessage.is_compliant breaking_commit plain_breaking_rule = Some [] /\
  CommitMessage.determine_semver_implication breaking_commit
    plain_breaking_rule SpecNone SpecNone SemanticVersion.MINOR_INDEX
  = SemanticVersion.MINOR_INDEX.
Proof. repeat split. Qed.

Lemma breaking_text_is_compliant self :
  occurs breaking_text (CommitMessage.message self) ->
  CommitMessage.truthy
    (CommitMessage.is_compliant self (SpecList CommitMessage.DEFAULT_MAJOR_REGEXS)) = true.
Proof.
  intros H. rewrite is_compliant_truthy by apply default_rules_grouped.
  cbn [rule_set_matches]. apply breaking_change_found.
  now apply breaking_change_survives_strip.
Qed.

(** X3: under the default MAJOR rule a message whose text holds BREAKING
    CHANGE anywhere is classified MAJOR, whatever the MINOR and PATCH rules
    and the default index are. *)
Theorem breaking_change_is_major self minor patch default :
  occurs breaking_text (CommitMessage.message self) ->
  CommitMessage.determine_semver_implication self SpecNone minor patch default
  = SemanticVersion.MAJOR_INDEX.
Proof.
  intros H. unfold CommitMessage.determine_semver_implication. cbn [CommitMessage.or_default].
  now rewrite breaking_text_is_compliant.
Qed.

Lemma breaking_change_is_major_witness :
  CommitMessage.determine_semver_implication
    (message_of ["fix(api): rename"; ""; "  This is a BREAKING CHANGE for callers."]%string)
    SpecNone SpecNone SpecNone SemanticVersion.PATCH_INDEX = SemanticVersion.MAJOR_INDEX.
Proof.
  apply (breaking_change_is_major
           (message_of ["fix(api): rename"; ""; "  This is a BREAKING CHANGE for callers."]%string)
           SpecNone SpecNone SemanticVersion.PATCH_INDEX).
  exists (lines_text ["fix(api): rename"; ""; "  This is a "]%string), ($" for callers.").
  reflexivity.
Defined.

(** ** Severity of a list of commits *)

Section Severity.

Variables major_regexs minor_regexs patch_regexs : regex_spec.
Variable default_semver_index : Z.

Local Notation "'classify' m" :=
  (CommitMessage.determine_semver_implication m major_regexs minor_regexs patch_regexs
     default_semver_index) (at level 10, m at level 9).

Local Notation "'classify_all' l" :=
  (CommitMessage.determine_semver_implication_on_list l major_regexs minor_regexs
     patch_regexs default_semver_index) (at level 10, l at level 9).

Lemma classify_cases m :
  classify m = SemanticVersion.MAJOR_INDEX \/ classify m = SemanticVersion.MINOR_INDEX \/
  classify m = SemanticVersion.PATCH_INDEX \/ classify m = default_semver_index.
Proof.
  unfold CommitMessage.determine_semver_implication.
  repeat match goal with |- context [if ?b then _ else _] => destruct b end; auto.
Qed.

Lemma classify_is_severity m : is_severity default_semver_index -> is_severity (classify m).
Proof.
  intros Hd. unfold is_severity in *. destruct (classify_cases m) as [H|[H|[H|H]]]; rewrite H; auto.
Qed.

Lemma fold_min_spec (f : CommitMessage.t -> Z) : forall l a,
  (fold_left (fun msi m => Z.min msi (f m)) l a <= a)%Z /\
  (forall m, In m l -> (fold_left (fun msi m => Z.min msi (f m)) l a <= f m)%Z) /\
  (fold_left (fun msi m => Z.min msi (f m)) l a = a \/
   exists m, In m l /\ fold_left (fun msi m => Z.min msi (f m)) l a = f m).
Proof.
  induction l as [|x l IH]; intros a; cbn [fold_left].
  - repeat split; [apply Z.le_refl|intros m []|now left].
  - destruct (IH (Z.min a (f x))) as (H1 & H2 & H3).
    repeat split.
    + eapply Z.le_trans; [exact H1|apply Z.le_min_l].
    + intros m [<-|Hm]; [|now apply H2].
      eapply Z.le_trans; [exact H1|apply Z.le_min_r].
    + destruct H3 as [H3|(m & Hm & H3)].
      * destruct (Z.min_spec a (f x)) as [[_ E]|[_ E]].
        -- left. now rewrite H3.
        -- right. exists x. split; [now left|now rewrite H3].
      * right. exists m. split; [now right|exact H3].
Qed.

(** C6: [determine_semver_implication_on_list] gives no index exactly for the
    empty list; for a non-empty list it gives the most significant index
    (the least, MAJOR = 1 before MINOR = 2 before PATCH = 3) among those of
    the messages, so that a message classified MAJOR anywhere in the list
    makes the result MAJOR; under the default MAJOR rule that is every
    message whose text holds BREAKING CHANGE.  The default index is one of
    the three levels. *)
Theorem most_significant_severity_wins (msgs : list CommitMessage.t) :
  is_severity default_semver_index ->
  (classify_all msgs = None <-> msgs = []) /\
  (msgs <> [] ->
     exists s, classify_all msgs = Some s /\
               (exists m, In m msgs /\ classify m = s) /\
               (forall m, In m msgs -> (s <= classify m)%Z)) /\
  (forall m, In m msgs -> classify m = SemanticVersion.MAJOR_INDEX ->
     classify_all msgs = Some SemanticVersion.MAJOR_INDEX) /\
  (major_regexs = SpecNone ->
   forall m, In m msgs -> occurs breaking_text (CommitMessage.message m) ->
     classify_all msgs = Some SemanticVersion.MAJOR_INDEX).
Proof.
  intros Hd.
  assert (Hne : msgs <> [] ->
     exists s, classify_all msgs = Some s /\
               (exists m, In m msgs /\ classify m = s) /\
               (forall m, In m msgs -> (s <= classify m)%Z)).
  { intros Hm. unfold CommitMessage.determine_semver_implication_on_list.
    destruct msgs as [|x l]; [congruence|]. eexists. split; [reflexivity|].
    destruct (fold_min_spec (fun m => classify m) (x :: l) (SemanticVersion.PATCH_INDEX + 1)%Z)
      as (H1 & H2 & H3).
    split; [|exact H2].
    destruct H3 as [H3|(m & Hm' & H3)]; [|now exists m].
    exfalso. specialize (H2 x (or_introl eq_refl)). rewrite H3 in H2.
    destruct (classify_is_severity x Hd) as [E|[E|E]]; rewrite E in H2;
      unfold SemanticVersion.PATCH_INDEX, SemanticVersion.MAJOR_INDEX,
             SemanticVersion.MINOR_INDEX in H2; lia. }
  assert (Hmajor : forall m, In m msgs -> classify m = SemanticVersion.MAJOR_INDEX ->
            classify_all msgs = Some SemanticVersion.MAJOR_INDEX).
  { intros m Hm Hmaj.
    destruct Hne as (s & Hs & (m' & Hm' & Hs') & Hle); [intros ->; destruct Hm|].
    rewrite Hs. f_equal. specialize (Hle m Hm). rewrite Hmaj in Hle.
    destruct (classify_is_severity m' Hd) as [E|[E|E]]; rewrite Hs' in E; rewrite E in *;
      unfold SemanticVersion.PATCH_INDEX, SemanticVersion.MAJOR_INDEX,
             SemanticVersion.MINOR_INDEX in *; lia. }
  split; [|split; [|split]].
  - split.
    + intros H. destruct msgs; [reflexivity|]. discriminate H.
    + intros ->. reflexivity.
  - exact Hne.
  - exact Hmajor.
  - intros E m Hm Hocc. apply (Hmajor m Hm). rewrite E.
    unfold CommitMessage.determine_semver_implication. cbn [CommitMessage.or_default].
    now rewrite breaking_text_is_compliant.
Qed.

End Severity.

Lemma most_significant_severity_wins_witness :
  CommitMessage.determine_semver_implication_on_list three_commits SpecNone SpecNone SpecNone
    SemanticVersion.MINOR_INDEX = Some SemanticVersion.MAJOR_INDEX.
Proof.
  apply (proj2 (proj2 (proj2 (most_significant_severity_wins SpecNone SpecNone SpecNone
                                SemanticVersion.MINOR_INDEX three_commits
                                (or_intror (or_introl eq_refl)))))
           eq_refl (message_of ["chore: BREAKING CHANGE"%string])).
  - right. right. left. reflexivity.
  - exists ($"chore: "), []. reflexivity.
Defined.

(** ** Pass A: embedded commits *)

Lemma prune_breaks group1 offset : forall text_lines pruned_lines line,
  In line text_lines -> line <> [] -> startswith group1 line = false ->
  CommitMessage.prune group1 offset text_lines pruned_lines = None.
Proof.
  induction text_lines as [|l rest IH]; intros pruned_lines line Hin Hne Hst; [destruct Hin|].
  cbn [CommitMessage.prune]. destruct Hin as [->|Hin].
  - rewrite Hst. destruct line; [congruence|reflexivity].
  - destruct (startswith group1 l); [now apply (IH _ line)|].
    destruct (CommitMessage.is_empty l); [now apply (IH _ line)|reflexivity].
Qed.

Lemma unpack_embedded_commits_app : forall l1 l2,
  CommitMessage._unpack_embedded_commits (l1 ++ l2) =
  (a <- CommitMessage._unpack_embedded_commits l1 ;;
   b <- CommitMessage._unpack_embedded_commits l2 ;;
   Ok (a ++ b)).
Proof.
  induction l1 as [|x l1 IH]; intros l2; cbn [app CommitMessage._unpack_embedded_commits bind].
  - destruct (CommitMessage._unpack_embedded_commits l2); reflexivity.
  - destruct (CommitMessage.unpack_embedded_commit x) as [l|e]; cbn [bind]; [|reflexivity].
    rewrite IH. destruct (CommitMessage._unpack_embedded_commits l1) as [a|e]; cbn [bind]; [|reflexivity].
    destruct (CommitMessage._unpack_embedded_commits l2) as [b|e]; cbn [bind]; [|reflexivity].
    now rewrite app_assoc.
Qed.

(** C5: a record whose message holds an embedded commit header, and in which
    some line from that header on is neither empty nor starts with the
    header's indentation, is kept as it is: its own unpacking raises nothing
    and gives the record alone, and in the result for a whole list it stands
    between the results of the records before it and of those after it. *)
Theorem inconsistent_indentation_keeps_record
    (before after : list CommitMessage.t) (commit_message : CommitMessage.t) (found : Match) :
  re_search CommitMessage._EMBEDDED_COMMIT_MATCHER (CommitMessage.message commit_message)
    = Some found ->
  (exists line,
      In line (split [NL] (skipn (start found 1) (CommitMessage.message commit_message))) /\
      line <> [] /\ startswith (group found 1) line = false) ->
  CommitMessage.unpack_embedded_commit commit_message = Ok [commit_message] /\
  CommitMessage._unpack_embedded_commits (before ++ commit_message :: after) =
    (a <- CommitMessage._unpack_embedded_commits before ;;
     b <- CommitMessage._unpack_embedded_commits after ;;
     Ok (a ++ commit_message :: b)).
Proof.
  intros Hfound (line & Hin & Hne & Hst).
  assert (H1 : CommitMessage.unpack_embedded_commit commit_message = Ok [commit_message]).
  { unfold CommitMessage.unpack_embedded_commit. rewrite Hfound.
    now rewrite (prune_breaks _ _ _ _ line Hin Hne Hst). }
  split; [exact H1|].
  rewrite unpack_embedded_commits_app. cbn [CommitMessage._unpack_embedded_commits].
  rewrite H1. cbn [bind].
  destruct (CommitMessage._unpack_embedded_commits before) as [a|e]; cbn [bind]; [|reflexivity].
  destruct (CommitMessage._unpack_embedded_commits after) as [b|e]; cbn [bind]; reflexivity.
Qed.

Lemma inconsistent_indentation_keeps_record_witness :
  CommitMessage._unpack_embedded_commits ([even_merge] ++ ragged_merge :: [even_merge]) =
    (a <- CommitMessage._unpack_embedded_commits [even_merge] ;;
     b <- CommitMessage._unpack_embedded_commits [even_merge] ;;
     Ok (a ++ ragged_merge :: b)).
Proof.
  apply (inconsistent_indentation_keeps_record [even_merge] [even_merge] ragged_merge ragged_found).
  - reflexivity.
  - exists ($"  commit def456"). repeat split.
    + cbn. tauto.
    + discriminate.
Defined.

(** a merge whose embedded commits are indented alike gives one record for
    each of them, with the indentation of the headers taken off *)
Lemma even_merge_is_unpacked :
  CommitMessage._unpack_embedded_commits [even_merge] =
    Ok [{| CommitMessage.commit_id := $"abc123";
           CommitMessage.author := $"Ann <ann@example.com>";
           CommitMessage.date := $"Mon Jan 1 00:00:00 2018 +0000";
           CommitMessage.message := $"    fix(core): first" |};
        {| CommitMessage.commit_id := $"def456";
           CommitMessage.author := $"Bob <bob@example.com>";
           CommitMessage.date := $"Tue Jan 2 00:00:00 2018 +0000";
           CommitMessage.message := $"    feat(web): second" |}] /\
  CommitMessage._unpack_embedded_commits [ragged_merge] = Ok [ragged_merge].
Proof. split; reflexivity. Qed.

(** ** Pass B: embedded summaries *)

Lemma slice_to_end {A} (x y : list A) : skipn (length x) (x ++ y) = y.
Proof. rewrite skipn_app, skipn_all, Nat.sub_diag. reflexivity. Qed.

Section SummariesLoop.

Variable mk : str -> CommitMessage.t.

(** before the first summary line nothing is appended *)
Lemma summaries_loop_skip lines : forall pre todo index result,
  forallb (fun l => negb (is_summary_line l)) pre = true ->
  CommitMessage.summaries_loop mk lines (pre ++ todo) index (-1)%Z result =
  CommitMessage.summaries_loop mk lines todo (index + length pre) (-1)%Z result.
Proof.
  induction pre as [|l pre IH]; intros todo index result H; cbn [app length].
  - now rewrite Nat.add_0_r.
  - cbn [forallb] in H. apply andb_prop in H as [Hl Hpre].
    cbn [CommitMessage.summaries_loop]. unfold is_summary_line in Hl.
    destruct (re_match CommitMessage._EMBEDDED_SUMMARY_MATCHER l); [discriminate|].
    rewrite IH by exact Hpre. f_equal. lia.
Qed.

(** from a summary line on: [before] has been passed, [cur] is the block
    that began at the last summary line, [todo] is still to be read *)
Lemma summaries_loop_blocks : forall todo before cur result,
  let lines := before ++ cur ++ todo in
  let '(prev, result') :=
    CommitMessage.summaries_loop mk lines todo (length before + length cur)
      (Z.of_nat (length before)) result in
  (0 <= prev)%Z /\
  result' ++ [mk (rstrip (join [NL] (skipn (Z.to_nat prev) lines)))] =
  result ++ map (fun b => mk (rstrip (join [NL] b))) (summary_blocks cur todo).
Proof.
  induction todo as [|line rest IH]; intros before cur result; cbn zeta.
  - cbn [CommitMessage.summaries_loop summary_blocks map]. split; [lia|].
    rewrite Nat2Z.id, app_nil_r, slice_to_end. reflexivity.
  - cbn [CommitMessage.summaries_loop summary_blocks]. unfold is_summary_line.
    destruct (re_match CommitMessage._EMBEDDED_SUMMARY_MATCHER line) as [m|].
    + assert (Hge : (Z.of_nat (length before) >=? 0)%Z = true) by (apply Z.geb_le; lia).
      rewrite Hge, Nat2Z.id.
      replace (slice (before ++ cur ++ line :: rest) (length before) (length before + length cur))
        with cur by (symmetry; now apply slice_mid).
      specialize (IH (before ++ cur) [line] (result ++ [mk (rstrip (join [NL] cur))])).
      cbn zeta in IH. rewrite length_app in IH. cbn [length] in IH.
      replace (length before + length cur + 1) with (S (length before + length cur)) in IH by lia.
      rewrite <- app_assoc in IH. cbn [app] in IH.
      rewrite Nat2Z.inj_add in IH. rewrite Nat2Z.inj_add.
      destruct (CommitMessage.summaries_loop mk (before ++ cur ++ line :: rest) rest
                  (S (length before + length cur))
                  (Z.of_nat (length before) + Z.of_nat (length cur)) _) as [prev result'].
      destruct IH as [Hp IH]. split; [exact Hp|]. rewrite IH.
      cbn [map]. rewrite <- app_assoc. reflexivity.
    + specialize (IH before (cur ++ [line]) result).
      cbn zeta in IH. rewrite length_app in IH. cbn [length] in IH.
      replace (length before + (length cur + 1)) with (S (length before + length cur)) in IH by lia.
      rewrite <- app_assoc in IH. cbn [app] in IH. exact IH.
Qed.

End SummariesLoop.

(** C2, as the code has it: when the first summary line of a message is not
    its first line, the lines before it are emitted in no block.  The record
    gives one block for each summary line, from that line up to the next
    summary line or the end, right-stripped, each with the commit id, author
    and date of the record. *)
Theorem leading_text_is_dropped
    (commit_message : CommitMessage.t) (leading : list str) (line : str) (rest : list str) :
  split [NL] (CommitMessage.message commit_message) = leading ++ line :: rest ->
  forallb (fun l => negb (is_summary_line l)) leading = true ->
  is_summary_line line = true ->
  CommitMessage.unpack_embedded_summary commit_message =
    map (block_record commit_message) (summary_blocks [line] rest).
Proof.
  intros Hsplit Hlead Hline. unfold CommitMessage.unpack_embedded_summary.
  rewrite Hsplit, summaries_loop_skip by exact Hlead.
  cbn [CommitMessage.summaries_loop Nat.add]. unfold is_summary_line in Hline.
  destruct (re_match CommitMessage._EMBEDDED_SUMMARY_MATCHER line); [|discriminate].
  replace ((-1 >=? 0)%Z) with false by reflexivity.
  pose proof (summaries_loop_blocks
                (fun text => with_message commit_message text) rest leading [line] []) as H.
  cbn zeta in H. cbn [length app] in H.
  replace (length leading + 1) with (S (length leading)) in H by lia.
  destruct (CommitMessage.summaries_loop _ (leading ++ line :: rest) rest (S (length leading))
              (Z.of_nat (length leading)) []) as [prev result].
  destruct H as [Hp H].
  destruct (Z.ltb_spec prev 0); [lia|]. exact H.
Qed.

Lemma leading_text_is_dropped_witness :
  CommitMessage.unpack_embedded_summary squashed_commit =
    map (block_record squashed_commit)
      (summary_blocks [$"fix(core): first"] [$"more about first"; $"* feat(web): second"]).
Proof.
  apply (leading_text_is_dropped squashed_commit [$"Merge pull request 12 from topic"; []]);
    reflexivity.
Defined.

(** C2 as stated fails: the message below has two lines before its first
    summary line; two blocks come out, one for each summary line, and the
    leading text is in neither. *)
Lemma leading_text_gives_no_block :
  is_summary_line ($"Merge pull request 12 from topic") = false /\
  CommitMessage._unpack_embedded_summaries [squashed_commit] =
    [with_message squashed_commit (lines_text ["fix(core): first"; "more about first"]%string);
     with_message squashed_commit ($"* feat(web): second")] /\
  (forall block, In block (CommitMessage._unpack_embedded_summaries [squashed_commit]) ->
     startswith ($"Merge") (CommitMessage.message block) = false).
Proof.
  split; [reflexivity|]. split; [reflexivity|].
  intros block H. cbn in H. destruct H as [<-|[<-|[]]]; reflexivity.
Qed.

(** ** The order of tags *)

Lemma str_ltb_irrefl : forall a, str_ltb a a = false.
Proof.
  induction a as [|x a IH]; [reflexivity|]. cbn [str_ltb].
  rewrite Nat.ltb_irrefl, Nat.eqb_refl, IH. reflexivity.
Qed.

Lemma str_ltb_cons x y a b :
  str_ltb (x :: a) (y :: b) = true <->
  nat_of_ascii x < nat_of_ascii y \/ (nat_of_ascii x = nat_of_ascii y /\ str_ltb a b = true).
Proof.
  cbn [str_ltb]. rewrite orb_true_iff, andb_true_iff, Nat.ltb_lt, Nat.eqb_eq. reflexivity.
Qed.

Lemma str_ltb_trans : forall a b c,
  str_ltb a b = true -> str_ltb b c = true -> str_ltb a c = true.
Proof.
  induction a as [|x a IH]; intros [|y b] [|z c] H1 H2; try discriminate; try reflexivity.
  apply str_ltb_cons in H1, H2. apply str_ltb_cons.
  destruct H1 as [H1|[E1 H1]], H2 as [H2|[E2 H2]].
  - left. lia.
  - left. lia.
  - left. lia.
  - right. split; [lia|]. now apply (IH b c).
Qed.

(** the order is total: of two different texts one is below the other *)
Lemma str_ltb_total : forall a b, str_ltb a b = false -> str_ltb b a = false -> a = b.
Proof.
  induction a as [|x a IH]; intros [|y b] H1 H2; try discriminate; [reflexivity|].
  cbn [str_ltb] in H1, H2.
  apply orb_false_elim in H1 as [L1 R1]. apply orb_false_elim in H2 as [L2 R2].
  apply Nat.ltb_ge in L1, L2. assert (E : nat_of_ascii x = nat_of_ascii y) by lia.
  rewrite E, Nat.eqb_refl in R1, R2. cbn [andb] in R1, R2.
  f_equal.
  - rewrite <- (ascii_nat_embedding x), <- (ascii_nat_embedding y). now rewrite E.
  - now apply IH.
Qed.

Lemma str_le_refl a : str_le a a.
Proof. apply str_ltb_irrefl. Qed.

Lemma str_ltb_le a b : str_ltb a b = true -> str_le a b.
Proof.
  intros H. unfold str_le. destruct (str_ltb b a) eqn:E; [|reflexivity].
  pose proof (str_ltb_trans _ _ _ H E) as C. now rewrite str_ltb_irrefl in C.
Qed.

Lemma str_le_trans a b c : str_le a b -> str_le b c -> str_le a c.
Proof.
  unfold str_le. intros H1 H2. destruct (str_ltb c a) eqn:E; [|reflexivity].
  destruct (str_ltb a b) eqn:Eab.
  - pose proof (str_ltb_trans _ _ _ E Eab) as C. congruence.
  - assert (a = b) by now apply str_ltb_total. subst. congruence.
Qed.

(** ** [sorted] *)

Lemma insert_sorted_in x y : forall l,
  In y (insert_sorted CommitTag.lt x l) <-> y = x \/ In y l.
Proof.
  induction l as [|z l IH]; cbn [insert_sorted].
  - cbn. intuition.
  - destruct (CommitTag.lt z x); cbn [In]; [rewrite IH|]; intuition.
Qed.

Lemma sorted_in y : forall l, In y (sorted CommitTag.lt l) <-> In y l.
Proof.
  induction l as [|x l IH]; [reflexivity|].
  cbn [sorted fold_right]. fold (sorted CommitTag.lt l).
  rewrite insert_sorted_in, IH. cbn [In]. intuition.
Qed.

Lemma insert_sorted_ordered x : forall l,
  StronglySorted tag_le l -> StronglySorted tag_le (insert_sorted CommitTag.lt x l).
Proof.
  induction l as [|z l IH]; intros H; cbn [insert_sorted].
  - repeat constructor.
  - inversion H as [|? ? Hl Hz]; subst.
    destruct (CommitTag.lt z x) eqn:E.
    + constructor; [now apply IH|].
      apply Forall_forall. intros y Hy. apply insert_sorted_in in Hy as [->|Hy].
      * now apply str_ltb_le.
      * rewrite Forall_forall in Hz. now apply Hz.
    + constructor; [exact H|].
      constructor; [exact E|].
      apply Forall_forall. intros y Hy. rewrite Forall_forall in Hz.
      apply (str_le_trans _ (CommitTag.tag z)); [exact E|now apply Hz].
Qed.

Lemma sorted_ordered : forall l, StronglySorted tag_le (sorted CommitTag.lt l).
Proof.
  induction l as [|x l IH]; [constructor|].
  cbn [sorted fold_right]. now apply insert_sorted_ordered.
Qed.

(** ** The mapping from commit ids to tags *)

Lemma str_eqb_eq a b : str_eqb a b = true <-> a = b.
Proof. unfold str_eqb. destruct (list_eq_dec ascii_dec a b); split; congruence. Qed.

(** after the records of an ordered list have been entered, an id is bound
    to the greatest tag among its records, or as it was before *)
Lemma fold_bind_tag_greatest id : forall l d t,
  StronglySorted tag_le l ->
  dict_get (fold_left bind_tag l d) id = Some t ->
  (exists ct, In ct l /\ CommitTag.commit_id ct = id /\ CommitTag.tag ct = t /\
              forall ct', In ct' l -> CommitTag.commit_id ct' = id -> str_le (CommitTag.tag ct') t)
  \/ ((forall ct', In ct' l -> CommitTag.commit_id ct' <> id) /\ dict_get d id = Some t).
Proof.
  induction l as [|x l IH]; intros d t Hs H; cbn [fold_left] in H.
  - right. split; [intros ct' Hin; destruct Hin|exact H].
  - inversion Hs as [|? ? Hl Hx]; subst. rewrite Forall_forall in Hx.
    destruct (IH _ _ Hl H) as [(ct & Hin & Hid & Ht & Hmax)|[Hnone Hd]].
    + left. exists ct. repeat split; auto; [now right|].
      intros ct' [<-|Hin'] Hid'; [|now apply Hmax].
      rewrite <- Ht. now apply Hx.
    + unfold bind_tag, dict_set in Hd. cbn [dict_get] in Hd.
      destruct (str_eqb (CommitTag.commit_id x) id) eqn:E.
      * apply str_eqb_eq in E. injection Hd as Hd. left. exists x.
        repeat split; auto; [now left|].
        intros ct' [<-|Hin'] Hid'; [rewrite <- Hd; apply str_le_refl|].
        now destruct (Hnone ct' Hin').
      * right. split; [|exact Hd].
        intros ct' [<-|Hin']; [|now apply Hnone].
        intros C. apply str_eqb_eq in C. congruence.
Qed.

Lemma fold_bind_tag_bound id : forall l d ct,
  In ct l -> CommitTag.commit_id ct = id -> dict_get (fold_left bind_tag l d) id <> None.
Proof.
  assert (Hkeep : forall l d, dict_get d id <> None -> dict_get (fold_left bind_tag l d) id <> None).
  { induction l as [|x l IH]; intros d H; [exact H|]. cbn [fold_left]. apply IH.
    unfold bind_tag, dict_set. cbn [dict_get].
    destruct (str_eqb (CommitTag.commit_id x) id); [discriminate|exact H]. }
  induction l as [|x l IH]; intros d ct Hin Hid; [destruct Hin|].
  destruct Hin as [<-|Hin]; cbn [fold_left].
  - apply Hkeep. unfold bind_tag, dict_set. cbn [dict_get].
    apply str_eqb_eq in Hid. rewrite Hid. discriminate.
  - now apply (IH _ ct).
Qed.

(** C9: when the tag records hold a commit id, [id_to_newest_tag] binds the
    id to the tag of one of its records, and no record of that id has a tag
    above it in the order of the bytes; when the id is HEAD's, this tag is
    the one returned, with no commits. *)
Theorem newest_tag_is_lexicographically_greatest
    (commit_tags : list CommitTag.t) (id : str) (commit_tag : CommitTag.t) :
  In commit_tag commit_tags -> CommitTag.commit_id commit_tag = id ->
  exists t,
    dict_get (GitRunner.id_to_newest_tag commit_tags) id = Some t /\
    (exists ct, In ct commit_tags /\ CommitTag.commit_id ct = id /\ CommitTag.tag ct = t) /\
    (forall ct, In ct commit_tags -> CommitTag.commit_id ct = id ->
       str_ltb t (CommitTag.tag ct) = false) /\
    (forall check_git git_dir,
       GitRunner.query_local_repository_commits_to_existing_tag_from_id
         check_git git_dir id commit_tags = Ok (t, [])).
Proof.
  intros Hin Hid.
  assert (Hb : dict_get (GitRunner.id_to_newest_tag commit_tags) id <> None).
  { apply (fold_bind_tag_bound id _ _ commit_tag); [now apply sorted_in|exact Hid]. }
  destruct (dict_get (GitRunner.id_to_newest_tag commit_tags) id) as [t|] eqn:E; [|congruence].
  exists t. split; [reflexivity|].
  destruct (fold_bind_tag_greatest id _ _ _ (sorted_ordered commit_tags) E)
    as [(ct & Hct & Hcid & Ht & Hmax)|[_ C]]; [|discriminate].
  repeat split.
  - exists ct. repeat split; auto. now apply sorted_in.
  - intros ct' Hin' Hid'. apply Hmax; [now apply sorted_in|exact Hid'].
  - intros check_git git_dir.
    unfold GitRunner.query_local_repository_commits_to_existing_tag_from_id. now rewrite E.
Qed.

Lemma newest_tag_is_lexicographically_greatest_witness :
  exists t,
    dict_get (GitRunner.id_to_newest_tag twice_tagged) ($"a1") = Some t /\
    (exists ct, In ct twice_tagged /\ CommitTag.commit_id ct = $"a1" /\ CommitTag.tag ct = t) /\
    (forall ct, In ct twice_tagged -> CommitTag.commit_id ct = $"a1" ->
       str_ltb t (CommitTag.tag ct) = false) /\
    (forall check_git git_dir,
       GitRunner.query_local_repository_commits_to_existing_tag_from_id
         check_git git_dir ($"a1") twice_tagged = Ok (t, [])).
Proof.
  apply (newest_tag_is_lexicographically_greatest twice_tagged ($"a1")
           (tag_record "a1" "release-10.0.0")).
  - left. reflexivity.
  - reflexivity.
Defined.

(** the tag chosen is the greatest text, not the greatest version *)
Lemma greatest_text_not_greatest_version :
  dict_get (GitRunner.id_to_newest_tag twice_tagged) ($"a1") = Some ($"release-9.0.0").
Proof. reflexivity. Qed.

(** ** Splitting a log into blocks *)

Lemma startswith_true p : forall s, startswith p s = true <-> exists b, s = p ++ b.
Proof.
  induction p as [|a p IH]; intros s; cbn [startswith app].
  - split; [intros _; now exists s|reflexivity].
  - destruct s as [|c s].
    + split; [discriminate|intros [b E]; discriminate].
    + rewrite andb_true_iff, IH. split.
      * intros [E [b ->]]. apply Ascii.eqb_eq in E. subst. now exists b.
      * intros [b E]. injection E as -> ->. split; [apply Ascii.eqb_refl|now exists b].
Qed.

Lemma split_aux_skip sep : forall x rest cur,
  split_aux sep (length x) cur (x ++ rest) = split_aux sep 0 cur rest.
Proof. induction x as [|c x IH]; intros rest cur; [reflexivity|]. cbn. apply IH. Qed.

Lemma split_aux_first sep rest : sep <> [] -> forall pre cur,
  (forall i, i < length pre -> startswith sep (skipn i (pre ++ sep ++ rest)) = false) ->
  split_aux sep 0 cur (pre ++ sep ++ rest) = (rev cur ++ pre) :: split_aux sep 0 [] rest.
Proof.
  intros Hsep. induction pre as [|c pre IH]; intros cur H.
  - destruct sep as [|c sep]; [congruence|]. cbn [app split_aux].
    assert (E : startswith (c :: sep) (c :: sep ++ rest) = true)
      by (apply startswith_true; now exists rest).
    rewrite E, app_nil_r. f_equal.
    replace (length (c :: sep) - 1) with (length sep) by (cbn [length]; lia).
    apply split_aux_skip.
  - pose proof (H 0 ltac:(cbn; lia)) as H0. cbn [skipn app] in H0.
    cbn [app split_aux]. rewrite H0, IH.
    + cbn [rev]. now rewrite <- app_assoc.
    + intros i Hi. apply (H (S i)). cbn. lia.
Qed.

Lemma split_aux_none sep : forall s cur,
  (forall i, i < length s -> startswith sep (skipn i s) = false) ->
  split_aux sep 0 cur s = [rev cur ++ s].
Proof.
  induction s as [|c s IH]; intros cur H; cbn [split_aux].
  - now rewrite app_nil_r.
  - pose proof (H 0 ltac:(cbn; lia)) as H0. cbn [skipn] in H0. rewrite H0, IH.
    + cbn [rev]. now rewrite <- app_assoc.
    + intros i Hi. apply (H (S i)). cbn. lia.
Qed.

Lemma not_occurs_no_start sep s :
  ~ occurs sep s -> forall i, i < length s -> startswith sep (skipn i s) = false.
Proof.
  intros H i _. destruct (startswith sep (skipn i s)) eqn:E; [|reflexivity].
  exfalso. apply H. apply startswith_true in E as [b E].
  exists (firstn i s), b. now rewrite <- E, firstn_skipn.
Qed.

(** a commit separator that starts inside [p] and is found in
    [p ++ commit_sep ++ tail] lies within [p]: the separator has one line
    feed, its first byte *)
Lemma commit_sep_within p tail :
  p <> [] -> startswith commit_sep (p ++ commit_sep ++ tail) = true ->
  exists b, p = commit_sep ++ b.
Proof.
  intros Hp H.
  unfold commit_sep in *.
  destruct p as [|c1 [|c2 [|c3 [|c4 [|c5 [|c6 [|c7 [|c8 b]]]]]]]]; [congruence|..];
    cbn [list_ascii_of_string app startswith] in H;
    repeat match type of H with
           | (_ && _)%bool = true =>
               let E := fresh "E" in
               apply andb_prop in H as [E H];
               try (vm_compute in E; discriminate E);
               apply Ascii.eqb_eq in E
           end.
  subst. now exists b.
Qed.

Lemma commit_sep_no_start pre rest :
  ~ occurs commit_sep pre ->
  forall i, i < length pre -> startswith commit_sep (skipn i (pre ++ commit_sep ++ rest)) = false.
Proof.
  intros H i Hi.
  destruct (startswith commit_sep (skipn i (pre ++ commit_sep ++ rest))) eqn:E; [|reflexivity].
  exfalso. apply H.
  rewrite skipn_app in E. replace (i - length pre) with 0 in E by lia. cbn [skipn] in E.
  apply commit_sep_within in E as [b E].
  - exists (firstn i pre), b. now rewrite <- E, firstn_skipn.
  - intros C. apply (f_equal (@length _)) in C. rewrite length_skipn in C. cbn in C. lia.
Qed.

Lemma split_first_commit pre rest :
  ~ occurs commit_sep pre ->
  split commit_sep (pre ++ commit_sep ++ rest) = pre :: split commit_sep rest.
Proof.
  intros H. unfold split. rewrite split_aux_first; [reflexivity|discriminate|].
  now apply commit_sep_no_start.
Qed.

Lemma split_no_commit s : ~ occurs commit_sep s -> split commit_sep s = [s].
Proof. intros H. unfold split. rewrite split_aux_none; [reflexivity|]. now apply not_occurs_no_start. Qed.

Lemma dropwhile_all p : forall s, forallb p s = true -> dropwhile p s = [].
Proof.
  induction s as [|c s IH]; [reflexivity|]. cbn [forallb dropwhile]. intros H.
  apply andb_prop in H as [Hc Hs]. rewrite Hc. now apply IH.
Qed.

Lemma strip_blank text : forallb isspace text = true -> strip text = [].
Proof. intros H. unfold strip, lstrip. now rewrite dropwhile_all. Qed.

(** ** The log parser *)

(** C10, as the code has it: the input is stripped of blanks at both ends
    first.  What stands in the stripped text before its first line that
    begins with [commit ] is discarded without an error: the records are
    those of the blocks from that line on.  When the stripped text has no
    such line everything is discarded, and an empty or blank input gives the
    empty list and no error. *)
Theorem text_before_first_commit_is_discarded (response_text : str) :
  (forallb isspace response_text = true ->
     CommitMessage.make_list_from_result response_text = Ok []) /\
  (~ occurs commit_sep (NL :: strip response_text) ->
     CommitMessage.make_list_from_result response_text = Ok []) /\
  (forall pre rest,
     NL :: strip response_text = pre ++ commit_sep ++ rest ->
     ~ occurs commit_sep pre ->
     CommitMessage.make_list_from_result response_text =
       mapM CommitMessage.make (split commit_sep rest)).
Proof.
  unfold CommitMessage.make_list_from_result. fold commit_sep. repeat split.
  - intros H. now rewrite strip_blank.
  - intros H. now rewrite split_no_commit.
  - intros pre rest E H. now rewrite E, split_first_commit.
Qed.

Lemma text_before_first_commit_is_discarded_witness :
  CommitMessage.make_list_from_result log_after_warning =
    mapM CommitMessage.make (split commit_sep (skipn 7 one_commit_log)).
Proof.
  apply (proj2 (proj2 (text_before_first_commit_is_discarded log_after_warning))
           (NL :: $"warning: refname is ambiguous") (skipn 7 one_commit_log)).
  - reflexivity.
  - intros (a & b & E).
    assert (H : In "c"%char (NL :: $"warning: refname is ambiguous")).
    { rewrite E. apply in_or_app. right. cbn. tauto. }
    cbn in H. intuition discriminate.
Defined.

Lemma log_after_warning_parsed :
  CommitMessage.make_list_from_result log_after_warning = Ok [one_commit_record] /\
  CommitMessage.make_list_from_result one_commit_log = Ok [one_commit_record] /\
  CommitMessage.make_list_from_result ($" " ++ [NL] ++ $"  ") = Ok [] /\
  CommitMessage.make_list_from_result ($"no commits here") = Ok [].
Proof. repeat split. Qed.

(** C10 as stated fails: in the text below the first line that begins with
    [commit ] is the second one, and the line before it is not discarded:
    once the input is stripped that line begins with [commit ] too, it is
    taken for a block, and parsing it raises. *)
Lemma indented_commit_line_is_not_discarded :
  split [NL] log_after_indented_commit = $"  commit x" :: split [NL] one_commit_log /\
  startswith ($"commit ") ($"  commit x") = false /\
  CommitMessage.make_list_from_result one_commit_log = Ok [one_commit_record] /\
  CommitMessage.make_list_from_result log_after_indented_commit
    = Raise CommitMessage.none_has_no_end.
Proof. repeat split. Qed.

(** ** Malformed blocks *)

Lemma make_raises entry e : CommitMessage.make entry = Raise e -> e = CommitMessage.none_has_no_end.
Proof.
  unfold CommitMessage.make.
  destruct (re_match CommitMessage._MEDIUM_PRETTY_COMMIT_MATCHER entry); [discriminate|].
  now intros [= <-].
Qed.

Lemma mapM_raises {A B} (f : A -> exc B) e0 :
  (forall x e, f x = Raise e -> e = e0) ->
  forall l x, In x l -> f x = Raise e0 -> mapM f l = Raise e0.
Proof.
  intros Hf. induction l as [|y l IH]; intros x Hin Hx; [destruct Hin|].
  cbn [mapM]. destruct (f y) as [b|e] eqn:Ey; cbn [bind].
  - destruct Hin as [->|Hin]; [congruence|]. now rewrite (IH x Hin Hx).
  - now rewrite (Hf y e Ey).
Qed.

(** C3, as the code has it: a block whose header does not match the three
    lines expected makes [make] raise for that block, and the failure is not
    local: [make_list_from_result] raises for the whole log and returns no
    record, whatever the other blocks are. *)
Theorem malformed_block_fails_the_whole_log (response_text entry : str) :
  In entry (tl (split commit_sep (NL :: strip response_text))) ->
  re_match CommitMessage._MEDIUM_PRETTY_COMMIT_MATCHER entry = None ->
  (exists e, CommitMessage.make entry = Raise e) /\
  (exists e, CommitMessage.make_list_from_result response_text = Raise e).
Proof.
  intros Hin Hno.
  assert (H : CommitMessage.make entry = Raise CommitMessage.none_has_no_end).
  { unfold CommitMessage.make. now rewrite Hno. }
  split; [exists CommitMessage.none_has_no_end; exact H|].
  exists CommitMessage.none_has_no_end.
  unfold CommitMessage.make_list_from_result. fold commit_sep.
  apply (mapM_raises CommitMessage.make _ make_raises _ entry Hin H).
Qed.

Lemma malformed_block_fails_the_whole_log_witness :
  (exists e, CommitMessage.make malformed_entry = Raise e) /\
  (exists e, CommitMessage.make_list_from_result log_with_malformed_block = Raise e).
Proof.
  apply (malformed_block_fails_the_whole_log log_with_malformed_block malformed_entry).
  - right. left. reflexivity.
  - reflexivity.
Defined.

(** C3 as stated fails: the first block of this log is well formed and the
    second is not; the exception raised for the second is Python's
    complaint about [None], which does not hold the block's text, and it
    ends the parse of the log, so the first block's record is not returned. *)
Lemma malformed_block_is_not_local :
  tl (split commit_sep (NL :: strip log_with_malformed_block))
    = [skipn 7 one_commit_log ++ [NL]; malformed_entry] /\
  CommitMessage.make (skipn 7 one_commit_log ++ [NL]) = Ok one_commit_record /\
  CommitMessage.make malformed_entry
    = Raise (AttributeError ($"'NoneType' object has no attribute 'end'")) /\
  CommitMessage.make_list_from_result log_with_malformed_block
    = Raise (AttributeError ($"'NoneType' object has no attribute 'end'")).
Proof. repeat split. Qed.

(** ** The repository summary *)

Lemma find_baseline_none d : forall lines tag count,
  (forall line, In line lines -> dict_get d (first_token line) = None) ->
  tag = None ->
  fst (GitRunner.find_baseline d lines tag count) = None.
Proof.
  induction lines as [|line rest IH]; intros tag count H E; cbn [GitRunner.find_baseline].
  - exact E.
  - rewrite (H line (or_introl eq_refl)). apply IH; [|reflexivity].
    intros l Hl. apply H. now right.
Qed.

(** X4: when HEAD carries no tag and no line of [git log --pretty=oneline <HEAD>]
    starts with a tagged commit id, the query raises [ValueError] with the
    message that names HEAD's id and the directory; no tag is guessed. *)
Theorem no_baseline_tag_is_an_error
    (check_git : str -> str -> exc str) (git_dir commit_id oneline : str)
    (commit_tags : list CommitTag.t) :
  dict_get (GitRunner.id_to_newest_tag commit_tags) commit_id = None ->
  check_git git_dir ($"log --pretty=oneline " ++ commit_id) = Ok oneline ->
  (forall line, In line (split [NL] oneline) ->
     dict_get (GitRunner.id_to_newest_tag commit_tags) (first_token line) = None) ->
  GitRunner.query_local_repository_commits_to_existing_tag_from_id
    check_git git_dir commit_id commit_tags
  = Raise (GitRunner.no_baseline commit_id git_dir).
Proof.
  intros Hhead Hlog Hnone.
  unfold GitRunner.query_local_repository_commits_to_existing_tag_from_id.
  rewrite Hhead, Hlog. cbn [bind].
  pose proof (find_baseline_none _ (split [NL] oneline) None 0 Hnone eq_refl) as H.
  destruct (GitRunner.find_baseline _ (split [NL] oneline) None 0) as [tag count].
  cbn [fst] in H. now rewrite H.
Qed.

Lemma no_baseline_tag_is_an_error_witness :
  GitRunner.query_local_repository_commits_to_existing_tag_from_id
    pending_git ($"repo") ($"c3") [tag_record "z9" "version-1.0.0"]
  = Raise (GitRunner.no_baseline ($"c3") ($"repo")).
Proof.
  apply (no_baseline_tag_is_an_error pending_git ($"repo") ($"c3")
           (lines_text ["c3 squash of topic"; "b2 tidy"; "a1 first release"]%string)).
  - reflexivity.
  - reflexivity.
  - intros line H. cbn in H. destruct H as [<-|[<-|[<-|[]]]]; reflexivity.
Defined.

(** C1, as the code has it: when HEAD carries no tag, the commits of the
    summary are the records parsed from the text of [git log -n <count>
    --pretty=medium <HEAD>], as [make_list_from_result] returns them; they
    do not pass through [normalize_message_list].  The severity is computed
    from these same records, and the summary's tag and version are those of
    the baseline version bumped at that level. *)
Theorem summary_commits_are_the_parsed_records
    (check_git : str -> str -> exc str) (git_dir : str)
    (all_tags : list CommitTag.t) (current_id : str) (summary : RepositorySummary.t) :
  GitRunner.query_tag_commits check_git git_dir GitRunner.version_tag_pattern = Ok all_tags ->
  GitRunner.query_local_repository_commit_id check_git git_dir = Ok current_id ->
  dict_get (GitRunner.id_to_newest_tag all_tags) current_id = None ->
  GitRunner.collect_repository_summary check_git git_dir = Ok summary ->
  exists count text baseline current_semver,
    check_git git_dir ($"log -n " ++ str_of_int (Z.of_nat count)
                         ++ $" --pretty=medium " ++ current_id) = Ok text /\
    CommitMessage.make_list_from_result text = Ok (RepositorySummary.commit_messages summary) /\
    SemanticVersion.make baseline = Ok current_semver /\
    (RepositorySummary.commit_messages summary <> [] ->
       exists next_semver,
         SemanticVersion.next current_semver
           (CommitMessage.determine_semver_implication_on_list
              (RepositorySummary.commit_messages summary)
              SpecNone SpecNone SpecNone SemanticVersion.MINOR_INDEX) = Ok next_semver /\
         RepositorySummary.tag summary = SemanticVersion.to_tag next_semver /\
         RepositorySummary.version summary = SemanticVersion.to_version next_semver).
Proof.
  intros Htags Hid Hnone H.
  unfold GitRunner.collect_repository_summary in H. rewrite Htags, Hid in H. cbn [bind] in H.
  unfold GitRunner.query_local_repository_commits_to_existing_tag_from_id in H.
  rewrite Hnone in H.
  destruct (check_git git_dir ($"log --pretty=oneline " ++ current_id)) as [oneline|e];
    cbn [bind] in H; [|discriminate].
  destruct (GitRunner.find_baseline _ (split [NL] oneline) None 0) as [[baseline|] count];
    [|discriminate].
  exists count.
  destruct (check_git git_dir _) as [text|e]; cbn [bind] in H; [|discriminate].
  exists text, baseline.
  destruct (CommitMessage.make_list_from_result text) as [msgs|e]; cbn [bind] in H; [|discriminate].
  destruct (SemanticVersion.make baseline) as [current_semver|e]; cbn [bind] in H; [|discriminate].
  exists current_semver.
  destruct msgs as [|m msgs].
  - injection H as <-. cbn [RepositorySummary.commit_messages]. repeat split. congruence.
  - destruct (SemanticVersion.next current_semver _) as [next_semver|e] eqn:En;
      cbn [bind] in H; [|discriminate].
    injection H as <-. cbn [RepositorySummary.commit_messages RepositorySummary.tag
                            RepositorySummary.version].
    repeat split. intros _. exists next_semver. repeat split. exact En.
Qed.

Lemma summary_commits_are_the_parsed_records_witness :
  exists count text baseline current_semver,
    pending_git ($"repo") ($"log -n " ++ str_of_int (Z.of_nat count)
                             ++ $" --pretty=medium " ++ $"c3") = Ok text /\
    CommitMessage.make_list_from_result text = Ok (RepositorySummary.commit_messages pending_summary) /\
    SemanticVersion.make baseline = Ok current_semver /\
    (RepositorySummary.commit_messages pending_summary <> [] ->
       exists next_semver,
         SemanticVersion.next current_semver
           (CommitMessage.determine_semver_implication_on_list
              (RepositorySummary.commit_messages pending_summary)
              SpecNone SpecNone SpecNone SemanticVersion.MINOR_INDEX) = Ok next_semver /\
         RepositorySummary.tag pending_summary = SemanticVersion.to_tag next_semver /\
         RepositorySummary.version pending_summary = SemanticVersion.to_version next_semver).
Proof.
  apply (summary_commits_are_the_parsed_records pending_git ($"repo")
           [tag_record "a1" "version-1.0.0"] ($"c3") pending_summary); reflexivity.
Defined.

(** C1 as stated fails: HEAD has two commits above the tagged one; the
    summary holds the two records as parsed, while the normalized list has
    three and drops the text that says BREAKING CHANGE; the proposed tag is
    the MAJOR successor, where the normalized list would give MINOR. *)
Lemma summary_commits_are_not_normalized :
  GitRunner.collect_repository_summary pending_git ($"repo") = Ok pending_summary /\
  CommitMessage.make_list_from_result pending_log = Ok pending_parsed /\
  CommitMessage.normalize_message_list pending_parsed = Ok pending_normalized /\
  RepositorySummary.commit_messages pending_summary <> pending_normalized /\
  CommitMessage.determine_semver_implication_on_list pending_parsed
    SpecNone SpecNone SpecNone SemanticVersion.MINOR_INDEX = Some SemanticVersion.MAJOR_INDEX /\
  CommitMessage.determine_semver_implication_on_list pending_normalized
    SpecNone SpecNone SpecNone SemanticVersion.MINOR_INDEX = Some SemanticVersion.MINOR_INDEX.
Proof. repeat split. discriminate. Qed.

(** ** SemanticVersion: differences, successors and tags *)

Lemma str_eqb_refl a : str_eqb a a = true.
Proof. now apply str_eqb_eq. Qed.

(** X5: two versions differ in no component exactly when they are equal, and
    the most significant difference does not depend on which of the two is
    asked. *)
Theorem diff_index_none_iff_equal (self arg : SemanticVersion.t) :
  (SemanticVersion.most_significant_diff_index self arg = None <-> self = arg) /\
  SemanticVersion.most_significant_diff_index self arg
  = SemanticVersion.most_significant_diff_index arg self.
Proof.
  destruct self as [s1 a1 b1 c1], arg as [s2 a2 b2 c2].
  unfold SemanticVersion.most_significant_diff_index.
  cbn [SemanticVersion.series_name SemanticVersion.major SemanticVersion.minor
       SemanticVersion.patch].
  assert (Es : str_eqb s2 s1 = str_eqb s1 s2).
  { destruct (str_eqb s2 s1) eqn:E1, (str_eqb s1 s2) eqn:E2; try reflexivity.
    - apply str_eqb_eq in E1. subst. now rewrite str_eqb_refl in E2.
    - apply str_eqb_eq in E2. subst. now rewrite str_eqb_refl in E1. }
  rewrite Es, (Z.eqb_sym a2 a1), (Z.eqb_sym b2 b1), (Z.eqb_sym c2 c1).
  split; [|reflexivity].
  destruct (str_eqb s1 s2) eqn:E1; cbn [negb].
  - apply str_eqb_eq in E1. subst s2.
    destruct (Z.eqb_spec a1 a2); cbn [negb]; [subst a2|split; [discriminate|congruence]].
    destruct (Z.eqb_spec b1 b2); cbn [negb]; [subst b2|split; [discriminate|congruence]].
    destruct (Z.eqb_spec c1 c2); cbn [negb]; [subst c2|split; [discriminate|congruence]].
    split; reflexivity.
  - split; [discriminate|]. intros E. injection E as -> _ _ _.
    now rewrite str_eqb_refl in E1.
Qed.

(** X6: the successor of a version at one of the three levels differs from
    the version at that level and at no more significant one. *)
Theorem diff_index_of_next (v w : SemanticVersion.t) (i : Z) :
  is_severity i ->
  SemanticVersion.next v (Some i) = Ok w ->
  SemanticVersion.most_significant_diff_index v w = Some i.
Proof.
  intros Hi H. destruct v as [s a b c].
  unfold SemanticVersion.most_significant_diff_index.
  destruct Hi as [-> | [-> | ->]]; cbn in H; injection H as <-;
    cbn [SemanticVersion.series_name SemanticVersion.major SemanticVersion.minor
         SemanticVersion.patch];
    rewrite str_eqb_refl; cbn [negb];
    repeat match goal with
           | |- context [(?x =? ?y)%Z] => destruct (Z.eqb_spec x y); try lia; cbn [negb]
           end; reflexivity.
Qed.

Lemma diff_index_of_next_witness :
  SemanticVersion.most_significant_diff_index sample_version
    {| SemanticVersion.series_name := $"release"; SemanticVersion.major := 1;
       SemanticVersion.minor := 21; SemanticVersion.patch := 0 |}
  = Some SemanticVersion.MINOR_INDEX.
Proof.
  apply (diff_index_of_next sample_version _ SemanticVersion.MINOR_INDEX).
  - right. left. reflexivity.
  - reflexivity.
Defined.

Lemma decimal_value_nonneg : forall s acc,
  (0 <= acc)%Z -> (0 <= fold_left (fun a c => (10 * a + digit_val c)%Z) s acc)%Z.
Proof.
  induction s as [|c s IH]; intros acc H; cbn [fold_left]; [exact H|].
  apply IH. unfold digit_val. lia.
Qed.

(** what [make] returns was read off a text that begins as a tag *)
Lemma make_ok_inv tag v :
  SemanticVersion.make tag = Ok v ->
  exists series a b c rest,
    tag = semver_text series a b c rest /\
    series <> [] /\ forallb dot series = true /\
    digit_run a /\ digit_run b /\ digit_run c /\
    v = {| SemanticVersion.series_name := series;
           SemanticVersion.major := decimal_value a;
           SemanticVersion.minor := decimal_value b;
           SemanticVersion.patch := decimal_value c |}.
Proof.
  intros Hv.
  destruct (run SemanticVersion.SEMVER_MATCHER accept None 0 tag []) as [res|] eqn:Hrun.
  - destruct (semver_run_inv _ _ Hrun)
      as (series & a & b & c & rest & E & H1 & H2 & Ha & Hb & Hc & Hcaps).
    exists series, a, b, c, rest.
    rewrite (make_of_run _ _ _ _ _ _ _ Hrun E Hcaps Ha Hb Hc) in Hv. injection Hv as <-.
    repeat split; try assumption; try apply Ha; try apply Hb; try apply Hc.
  - unfold SemanticVersion.make, re_match in Hv. rewrite Hrun in Hv. discriminate.
Qed.

Lemma make_gives_writable tag v :
  SemanticVersion.make tag = Ok v -> writable_version v.
Proof.
  intros H. apply make_ok_inv in H as (series & a & b & c & rest & _ & H1 & H2 & _ & _ & _ & ->).
  unfold writable_version, decimal_value.
  cbn [SemanticVersion.series_name SemanticVersion.major SemanticVersion.minor
       SemanticVersion.patch].
  repeat split; try assumption; apply decimal_value_nonneg; lia.
Qed.

Lemma make_of_written v :
  writable_version v -> SemanticVersion.make (SemanticVersion.to_tag v) = Ok v.
Proof.
  intros (Hne & Hdot & Hma & Hmi & Hpa). destruct v as [series ma mi pa].
  cbn [SemanticVersion.series_name SemanticVersion.major
       SemanticVersion.minor SemanticVersion.patch] in Hne, Hdot, Hma, Hmi, Hpa.
  rewrite to_tag_text. cbn [SemanticVersion.series_name SemanticVersion.major
                             SemanticVersion.minor SemanticVersion.patch].
  destruct (semver_run_exact series (str_of_int ma) (str_of_int mi) (str_of_int pa))
    as [e Hrun]; try assumption; try (now apply str_of_int_digits).
  rewrite (make_of_run _ _ _ _ _ _ _ Hrun eq_refl eq_refl); try (now apply str_of_int_digits).
  pose proof (int_str_of_int _ Hma) as Ia. pose proof (int_str_of_int _ Hmi) as Ib.
  pose proof (int_str_of_int _ Hpa) as Ic.
  rewrite (int_digit_run _ (str_of_int_digits _ Hma)) in Ia.
  rewrite (int_digit_run _ (str_of_int_digits _ Hmi)) in Ib.
  rewrite (int_digit_run _ (str_of_int_digits _ Hpa)) in Ic.
  injection Ia as Ia. injection Ib as Ib. injection Ic as Ic.
  now rewrite Ia, Ib, Ic.
Qed.

Lemma next_keeps_writable v w at_index :
  writable_version v -> SemanticVersion.next v at_index = Ok w -> writable_version w.
Proof.
  intros (Hne & Hdot & Hma & Hmi & Hpa) H. unfold SemanticVersion.next in H.
  destruct at_index as [i|]; [|discriminate].
  repeat match type of H with
         | (if ?b then _ else _) = _ => destruct b
         end; try discriminate; injection H as <-; unfold writable_version;
    cbn [SemanticVersion.series_name SemanticVersion.major SemanticVersion.minor
         SemanticVersion.patch]; repeat split; try assumption; lia.
Qed.

(** X7: a version that [make] read from a tag text is read back from the tag
    text [to_tag] writes for it, and so is each of its successors: the tag
    proposed for the next release always parses to the version it was
    written from. *)
Theorem parsed_version_round_trips (tag : str) (v : SemanticVersion.t) :
  SemanticVersion.make tag = Ok v ->
  SemanticVersion.make (SemanticVersion.to_tag v) = Ok v /\
  (forall at_index w, SemanticVersion.next v at_index = Ok w ->
     SemanticVersion.make (SemanticVersion.to_tag w) = Ok w).
Proof.
  intros H. apply make_gives_writable in H. split.
  - now apply make_of_written.
  - intros at_index w Hw. apply make_of_written. now apply (next_keeps_writable v w at_index).
Qed.

Lemma parsed_version_round_trips_witness :
  SemanticVersion.make (SemanticVersion.to_tag sample_version) = Ok sample_version /\
  (forall at_index w, SemanticVersion.next sample_version at_index = Ok w ->
     SemanticVersion.make (SemanticVersion.to_tag w) = Ok w).
Proof.
  apply (parsed_version_round_trips ($"release-01.20.3 (stale)") sample_version). reflexivity.
Defined.

(** ** Splitting at one byte *)

Lemma split_char_step c cur x t :
  split_aux [c] 0 cur (x :: t) =
    if Ascii.eqb c x then rev cur :: split_aux [c] 0 [] t else split_aux [c] 0 (x :: cur) t.
Proof. cbn [split_aux startswith length Nat.sub]. now rewrite andb_true_r. Qed.

Lemma split_aux_nonempty sep : forall s skip cur, split_aux sep skip cur s <> [].
Proof.
  induction s as [|x t IH]; intros skip cur; cbn [split_aux]; [discriminate|].
  destruct skip; [|apply IH]. destruct (startswith sep (x :: t)); [discriminate|apply IH].
Qed.

Lemma split_char_none c : forall s cur,
  free_of c s = true -> split_aux [c] 0 cur s = [rev cur ++ s].
Proof.
  induction s as [|x t IH]; intros cur H.
  - cbn [split_aux]. now rewrite app_nil_r.
  - cbn [free_of forallb] in H. apply andb_prop in H as [Hx Ht].
    rewrite split_char_step. destruct (Ascii.eqb c x); [discriminate|].
    rewrite IH by exact Ht. cbn [rev]. now rewrite <- app_assoc.
Qed.

Lemma split_char_first c b : forall a cur,
  free_of c a = true ->
  split_aux [c] 0 cur (a ++ c :: b) = (rev cur ++ a) :: split_aux [c] 0 [] b.
Proof.
  induction a as [|x t IH]; intros cur H.
  - cbn [app]. rewrite split_char_step, Ascii.eqb_refl. now rewrite app_nil_r.
  - cbn [free_of forallb] in H. apply andb_prop in H as [Hx Ht].
    cbn [app]. rewrite split_char_step. destruct (Ascii.eqb c x); [discriminate|].
    rewrite IH by exact Ht. cbn [rev]. now rewrite <- app_assoc.
Qed.

Lemma last_cons_nonempty {A} (x : A) l d : l <> [] -> last (x :: l) d = last l d.
Proof. destruct l; [congruence|reflexivity]. Qed.

(** the last piece is what follows the last separator *)
Lemma split_char_last c tail : free_of c tail = true -> forall s cur,
  last (split_aux [c] 0 cur (s ++ c :: tail)) [] = tail.
Proof.
  intros Ht. induction s as [|x t IH]; intros cur.
  - cbn [app]. rewrite split_char_step, Ascii.eqb_refl.
    rewrite split_char_none by exact Ht. reflexivity.
  - cbn [app]. rewrite split_char_step. destruct (Ascii.eqb c x); [|apply IH].
    rewrite last_cons_nonempty by apply split_aux_nonempty. apply IH.
Qed.

Lemma nth_last {A} (l : list A) d : nth (length l - 1) l d = last l d.
Proof.
  induction l as [|x l IH]; [reflexivity|].
  destruct l as [|y l]; [reflexivity|].
  replace (length (x :: y :: l) - 1) with (S (length (y :: l) - 1)) by (cbn [length]; lia).
  exact IH.
Qed.

(** ** CommitTag *)

(** X8: a line [<id> <path>/<tag>] of [git show-ref --tags], in which the id,
    the path and the tag hold no blank and the tag holds no slash, is read as
    the record of that id and that tag. *)
Theorem commit_tag_of_ref_line (id path tag : str) :
  free_of SP id = true -> free_of SP path = true -> free_of SP tag = true ->
  free_of "/" tag = true ->
  CommitTag.make (id ++ SP :: path ++ "/"%char :: tag) =
    Ok {| CommitTag.commit_id := id; CommitTag.tag := tag; CommitTag.version := tag |}.
Proof.
  intros Hid Hpath Htag Hslash. unfold CommitTag.make, split.
  rewrite split_char_first by exact Hid.
  rewrite split_char_none.
  2:{ unfold free_of in *. rewrite forallb_app. cbn [forallb]. now rewrite Hpath, Htag. }
  cbn [rev app hd nth_error]. fold (split ["/"%char] (path ++ "/"%char :: tag)).
  rewrite nth_last. unfold split. rewrite split_char_last by exact Hslash. reflexivity.
Qed.

Lemma commit_tag_of_ref_line_witness :
  CommitTag.make ($"a1 refs/tags/version-1.0.0") =
    Ok {| CommitTag.commit_id := $"a1"; CommitTag.tag := $"version-1.0.0";
          CommitTag.version := $"version-1.0.0" |}.
Proof.
  apply (commit_tag_of_ref_line ($"a1") ($"refs/tags") ($"version-1.0.0")); reflexivity.
Defined.

Lemma commit_tag_make_raises line e : CommitTag.make line = Raise e -> e = index_error.
Proof.
  unfold CommitTag.make. destruct (nth_error (split [SP] line) 1); [discriminate|].
  now intros [= <-].
Qed.

Lemma commit_tag_without_blank line :
  free_of SP line = true -> CommitTag.make line = Raise index_error.
Proof.
  intros H. unfold CommitTag.make, split. rewrite split_char_none by exact H. reflexivity.
Qed.

(** X9: when a line of the output of [git show-ref --tags] holds no blank,
    as the one line of an empty output does, [query_tag_commits] raises
    [IndexError] and returns no tag. *)
Theorem tag_listing_without_blank_raises
    (check_git : str -> str -> exc str) (git_dir : str) (tag_pattern : regex)
    (tag_ref_result line : str) :
  check_git git_dir ($"show-ref --tags") = Ok tag_ref_result ->
  In line (split [NL] tag_ref_result) -> free_of SP line = true ->
  GitRunner.query_tag_commits check_git git_dir tag_pattern = Raise index_error.
Proof.
  intros Hgit Hin Hline. unfold GitRunner.query_tag_commits. rewrite Hgit. cbn [bind].
  rewrite (mapM_raises CommitTag.make index_error commit_tag_make_raises _ line Hin
             (commit_tag_without_blank line Hline)).
  reflexivity.
Qed.

Lemma tag_listing_without_blank_raises_witness :
  GitRunner.query_tag_commits (fun _ _ => Ok []) ($"repo") GitRunner.version_tag_pattern
  = Raise index_error.
Proof.
  apply (tag_listing_without_blank_raises (fun _ _ => Ok []) ($"repo")
           GitRunner.version_tag_pattern [] []); [reflexivity|now left|reflexivity].
Defined.

(** ** The tags of a repository *)

Lemma strongly_sorted_snoc {A} (R : A -> A -> Prop) x : forall l,
  StronglySorted R l -> Forall (fun y => R y x) l -> StronglySorted R (l ++ [x]).
Proof.
  induction l as [|y l IH]; intros Hs Hf; cbn [app].
  - repeat constructor.
  - inversion Hs as [|? ? Hl Hy]; subst. inversion Hf as [|? ? Hyx Hlx]; subst.
    constructor; [now apply IH|].
    apply Forall_app. split; [exact Hy|]. now constructor.
Qed.

Lemma strongly_sorted_rev {A} (R : A -> A -> Prop) : forall l,
  StronglySorted R l -> StronglySorted (fun x y => R y x) (rev l).
Proof.
  induction l as [|x l IH]; intros Hs; cbn [rev]; [constructor|].
  inversion Hs as [|? ? Hl Hx]; subst.
  apply strongly_sorted_snoc; [now apply IH|].
  apply Forall_rev. exact Hx.
Qed.

Lemma mapM_ok_in {A B} (f : A -> exc B) : forall l r,
  mapM f l = Ok r -> forall b, In b r <-> exists a, In a l /\ f a = Ok b.
Proof.
  induction l as [|x l IH]; intros r H b; cbn [mapM] in H.
  - injection H as <-. split; [intros []|intros (a & [] & _)].
  - destruct (f x) as [y|e] eqn:Ex; cbn [bind] in H; [|discriminate].
    destruct (mapM f l) as [r'|e] eqn:Er; cbn [bind] in H; [|discriminate].
    injection H as <-. cbn [In]. rewrite (IH r' eq_refl b). split.
    + intros [<-|(a & Ha & Hb)]; [exists x; auto|exists a; auto].
    + intros (a & [<-|Ha] & Hb); [left; congruence|right; now exists a].
Qed.

(** X10: the tags [query_tag_commits] returns are those read from the lines
    of [git show-ref --tags] whose tag the pattern matches, each of them, and
    they stand in descending order of the tag text. *)
Theorem tag_listing_is_filtered_and_descending
    (check_git : str -> str -> exc str) (git_dir : str) (tag_pattern : regex)
    (tags : list CommitTag.t) :
  GitRunner.query_tag_commits check_git git_dir tag_pattern = Ok tags ->
  exists tag_ref_result,
    check_git git_dir ($"show-ref --tags") = Ok tag_ref_result /\
    (forall ct, In ct tags <->
       tag_matches tag_pattern ct = true /\
       exists line, In line (split [NL] tag_ref_result) /\ CommitTag.make line = Ok ct) /\
    StronglySorted tag_ge tags.
Proof.
  unfold GitRunner.query_tag_commits. intros H.
  destruct (check_git git_dir ($"show-ref --tags")) as [text|e]; cbn [bind] in H; [|discriminate].
  destruct (mapM CommitTag.make (split [NL] text)) as [cts|e] eqn:Em; cbn [bind] in H;
    [|discriminate].
  injection H as <-. exists text. split; [reflexivity|]. split.
  - intros ct. unfold sorted_reverse. rewrite <- in_rev, sorted_in, <- in_rev, filter_In.
    rewrite (mapM_ok_in CommitTag.make _ _ Em ct). unfold tag_matches. tauto.
  - unfold sorted_reverse. apply (strongly_sorted_rev tag_le). apply sorted_ordered.
Qed.

Lemma tag_listing_is_filtered_and_descending_witness :
  exists tag_ref_result,
    (fun _ _ => Ok show_ref_output) ($"repo") ($"show-ref --tags") = Ok tag_ref_result /\
    (forall ct,
       In ct [tag_record "d4" "version-1.9.0"; tag_record "c3" "version-1.10.0";
              tag_record "a1" "version-1.0.0"] <->
       tag_matches GitRunner.version_tag_pattern ct = true /\
       exists line, In line (split [NL] tag_ref_result) /\ CommitTag.make line = Ok ct) /\
    StronglySorted tag_ge
      [tag_record "d4" "version-1.9.0"; tag_record "c3" "version-1.10.0";
       tag_record "a1" "version-1.0.0"].
Proof.
  apply (tag_listing_is_filtered_and_descending (fun _ _ => Ok show_ref_output) ($"repo")
           GitRunner.version_tag_pattern). reflexivity.
Defined.

(** ** Tags that name a version *)

Lemma between_digits c : between "0" "9" c = isdigit c.
Proof. reflexivity. Qed.

Lemma forallb_between_digits a : forallb (between "0" "9") a = forallb isdigit a.
Proof. induction a as [|x a IH]; [reflexivity|]. cbn [forallb]. now rewrite IH, between_digits. Qed.

(** as [semver_run_exact], with text after the patch number that holds no
    dash and does not go on with a digit *)
Lemma semver_run_exact_rest series a b c rest :
  series <> [] -> forallb dot series = true ->
  digit_run a -> digit_run b -> digit_run c ->
  forallb not_dash rest = true ->
  match rest with [] => True | x :: _ => isdigit x = false end ->
  exists e, run SemanticVersion.SEMVER_MATCHER accept None 0 (semver_text series a b c rest) []
  = Some {| res_end := e; res_caps := semver_caps series a b c |}.
Proof.
  intros Hne Hdot [Ha Hda] [Hb Hdb] [Hc Hdc] Hrest Hhead.
  unfold SemanticVersion.SEMVER_MATCHER, seqs, plus, semver_text.
  cbn [fold_right run].
  eexists.
  apply rep_greedy_longest.
  - exact Hdot.
  - now apply nonempty_length.
  - cbn [run Ascii.eqb Bool.eqb].
    apply rep_greedy_munch; [exact Hda|now apply nonempty_length|reflexivity|].
    cbn [Ascii.eqb Bool.eqb].
    apply rep_greedy_munch; [exact Hdb|now apply nonempty_length|reflexivity|].
    cbn [Ascii.eqb Bool.eqb].
    apply rep_greedy_munch; [exact Hdc|now apply nonempty_length|exact Hhead|].
    unfold accept, semver_caps. cbn [Nat.add]. reflexivity.
  - intros u1 u2 E Hu1 _. apply suffix_of_cons in E as [l1 E]; [|exact Hu1].
    assert (H : forallb not_dash (a ++ "."%char :: b ++ "."%char :: c ++ rest) = true).
    { repeat first [rewrite forallb_app | progress cbn [forallb]].
      rewrite !isdigit_not_dash by assumption. now rewrite Hrest. }
    rewrite E in H. apply forallb_suffix in H.
    cbn [run]. destruct u2 as [|d t]; [reflexivity|].
    cbn [forallb] in H. apply andb_prop in H as [H _]. unfold not_dash in H.
    destruct (Ascii.eqb d "-"); [discriminate|reflexivity].
Qed.

(** the texts [version_tag_pattern] matches *)
Lemma version_tag_pattern_inv tag m :
  re_match GitRunner.version_tag_pattern tag = Some m ->
  exists a b c rest,
    tag = semver_text ($"version") a b c rest /\
    digit_run a /\ digit_run b /\ digit_run c /\ (rest = [] \/ rest = [NL]).
Proof.
  unfold re_match.
  destruct (run GitRunner.version_tag_pattern accept None 0 tag []) as [res|] eqn:H;
    [intros _|discriminate].
  unfold GitRunner.version_tag_pattern, seqs, plus in H.
  cbn [fold_right run lit list_ascii_of_string at_bos Nat.eqb] in H.
  do 8 (destruct tag as [|d tag]; [discriminate|];
        match type of H with
        | (if Ascii.eqb ?x ?y then _ else _) = _ =>
            destruct (Ascii.eqb_spec x y); [subst d|discriminate]
        end).
  apply rep_greedy_some in H as (a & u & -> & Hl1 & Hd1 & H).
  destruct u as [|d u]; [discriminate|].
  destruct (Ascii.eqb_spec d "."); [subst d|discriminate].
  apply rep_greedy_some in H as (b & u' & -> & Hl2 & Hd2 & H).
  destruct u' as [|d u]; [discriminate|].
  destruct (Ascii.eqb_spec d "."); [subst d|discriminate].
  apply rep_greedy_some in H as (c & rest & -> & Hl3 & Hd3 & H).
  exists a, b, c, rest. rewrite forallb_between_digits in Hd1, Hd2, Hd3.
  unfold digit_run. repeat split; try assumption; try (intros ->; cbn in *; lia).
  destruct rest as [|x [|y rest]]; cbn [at_eos] in H; [now left| |discriminate].
  destruct (Ascii.eqb_spec x NL); [subst; now right|discriminate].
Qed.

Lemma matched_version_tag_parses tag m :
  re_match GitRunner.version_tag_pattern tag = Some m ->
  exists a b c,
    digit_run a /\ digit_run b /\ digit_run c /\
    SemanticVersion.make tag =
      Ok {| SemanticVersion.series_name := $"version";
            SemanticVersion.major := decimal_value a;
            SemanticVersion.minor := decimal_value b;
            SemanticVersion.patch := decimal_value c |}.
Proof.
  intros H. apply version_tag_pattern_inv in H as (a & b & c & rest & -> & Ha & Hb & Hc & Hr).
  exists a, b, c. repeat split; try apply Ha; try apply Hb; try apply Hc.
  destruct (semver_run_exact_rest ($"version") a b c rest) as [e Hrun]; try assumption;
    try discriminate; try reflexivity.
  - destruct Hr as [->| ->]; reflexivity.
  - destruct Hr as [->| ->]; [exact I|reflexivity].
  - now apply (make_of_run _ _ _ _ _ _ _ Hrun eq_refl eq_refl).
Qed.

(** X11: every tag text that the release pattern of [collect_repository_summary]
    matches is parsed by [SemanticVersion.make]; the series read is
    [version] and the components are the three numbers of the text. *)
Theorem release_tags_always_parse (tag : str) (m : Match) :
  re_match GitRunner.version_tag_pattern tag = Some m ->
  exists a b c rest,
    tag = semver_text ($"version") a b c rest /\ (rest = [] \/ rest = [NL]) /\
    SemanticVersion.make tag =
      Ok {| SemanticVersion.series_name := $"version";
            SemanticVersion.major := decimal_value a;
            SemanticVersion.minor := decimal_value b;
            SemanticVersion.patch := decimal_value c |}.
Proof.
  intros H. destruct (version_tag_pattern_inv _ _ H) as (a & b & c & rest & E & Ha & Hb & Hc & Hr).
  exists a, b, c, rest. repeat split; try assumption. subst tag.
  destruct (semver_run_exact_rest ($"version") a b c rest) as [e Hrun]; try assumption;
    try discriminate; try reflexivity.
  - destruct Hr as [->| ->]; reflexivity.
  - destruct Hr as [->| ->]; [exact I|reflexivity].
  - now apply (make_of_run _ _ _ _ _ _ _ Hrun eq_refl eq_refl).
Qed.

Lemma release_tags_always_parse_witness :
  exists a b c rest,
    $"version-1.10.0" = semver_text ($"version") a b c rest /\ (rest = [] \/ rest = [NL]) /\
    SemanticVersion.make ($"version-1.10.0") =
      Ok {| SemanticVersion.series_name := $"version";
            SemanticVersion.major := decimal_value a;
            SemanticVersion.minor := decimal_value b;
            SemanticVersion.patch := decimal_value c |}.
Proof.
  apply (release_tags_always_parse ($"version-1.10.0")
           {| m_string := $"version-1.10.0"; m_start := 0; m_end := 14; m_caps := [] |}).
  reflexivity.
Defined.

(** ** What a summary holds *)

(** X12: in every summary [collect_repository_summary] returns, the commit
    id is the one [git rev-parse HEAD] printed, the tag parses as a
    version, and the version text is the one written for that version: tag
    and version of a summary always agree. *)
Theorem summary_tag_and_version_agree
    (check_git : str -> str -> exc str) (git_dir : str) (summary : RepositorySummary.t) :
  GitRunner.collect_repository_summary check_git git_dir = Ok summary ->
  GitRunner.query_local_repository_commit_id check_git git_dir
    = Ok (RepositorySummary.commit_id summary) /\
  exists v,
    SemanticVersion.make (RepositorySummary.tag summary) = Ok v /\
    RepositorySummary.version summary = SemanticVersion.to_version v.
Proof.
  unfold GitRunner.collect_repository_summary. intros H.
  destruct (GitRunner.query_tag_commits check_git git_dir GitRunner.version_tag_pattern)
    as [all_tags|e]; cbn [bind] in H; [|discriminate].
  destruct (GitRunner.query_local_repository_commit_id check_git git_dir)
    as [current_id|e]; cbn [bind] in H; [|discriminate].
  destruct (GitRunner.query_local_repository_commits_to_existing_tag_from_id
              check_git git_dir current_id all_tags) as [[tag msgs]|e];
    cbn [bind] in H; [|discriminate].
  destruct (SemanticVersion.make tag) as [current_semver|e] eqn:Em; cbn [bind] in H;
    [|discriminate].
  destruct msgs as [|m msgs].
  - injection H as <-. cbn [RepositorySummary.commit_id RepositorySummary.tag
                            RepositorySummary.version].
    split; [reflexivity|]. now exists current_semver.
  - destruct (SemanticVersion.next current_semver _) as [next_semver|e] eqn:En;
      cbn [bind] in H; [|discriminate].
    injection H as <-. cbn [RepositorySummary.commit_id RepositorySummary.tag
                            RepositorySummary.version].
    split; [reflexivity|]. exists next_semver. split; [|reflexivity].
    apply make_of_written. eapply next_keeps_writable; [|exact En].
    now apply (make_gives_writable tag).
Qed.

Lemma summary_tag_and_version_agree_witness :
  GitRunner.query_local_repository_commit_id pending_git ($"repo")
    = Ok (RepositorySummary.commit_id pending_summary) /\
  exists v,
    SemanticVersion.make (RepositorySummary.tag pending_summary) = Ok v /\
    RepositorySummary.version pending_summary = SemanticVersion.to_version v.
Proof.
  apply (summary_tag_and_version_agree pending_git ($"repo") pending_summary). reflexivity.
Defined.

Lemma query_tag_commits_in check_git git_dir tag_pattern tags :
  GitRunner.query_tag_commits check_git git_dir tag_pattern = Ok tags ->
  forall ct, In ct tags -> tag_matches tag_pattern ct = true.
Proof.
  unfold GitRunner.query_tag_commits. intros H.
  destruct (check_git git_dir ($"show-ref --tags")) as [text|e]; cbn [bind] in H; [|discriminate].
  destruct (mapM CommitTag.make (split [NL] text)) as [cts|e]; cbn [bind] in H; [|discriminate].
  injection H as <-. intros ct Hin. unfold sorted_reverse in Hin.
  rewrite <- in_rev, sorted_in, <- in_rev, filter_In in Hin. apply Hin.
Qed.

(** the tag bound to an id is the tag of one of the records of that id *)
Lemma id_to_newest_tag_some commit_tags id ct :
  In ct commit_tags -> CommitTag.commit_id ct = id ->
  exists ct', In ct' commit_tags /\ CommitTag.commit_id ct' = id /\
              dict_get (GitRunner.id_to_newest_tag commit_tags) id = Some (CommitTag.tag ct').
Proof.
  intros Hin Hid.
  assert (Hb : dict_get (GitRunner.id_to_newest_tag commit_tags) id <> None).
  { apply (fold_bind_tag_bound id _ _ ct); [now apply sorted_in|exact Hid]. }
  destruct (dict_get (GitRunner.id_to_newest_tag commit_tags) id) as [t|] eqn:E; [|congruence].
  destruct (fold_bind_tag_greatest id _ _ _ (sorted_ordered commit_tags) E)
    as [(ct' & Hct & Hcid & Ht & _)|[_ C]]; [|discriminate].
  exists ct'. repeat split; [now apply sorted_in|exact Hcid|now rewrite Ht].
Qed.

(** X13: when the commit [git rev-parse HEAD] prints carries a release tag,
    the summary is made without reading any log: it holds no commits, its
    tag is a release tag of that commit, and its version is the version
    text of that tag.  No error is raised. *)
Theorem tagged_head_summary
    (check_git : str -> str -> exc str) (git_dir current_id : str)
    (all_tags : list CommitTag.t) (commit_tag : CommitTag.t) :
  GitRunner.query_tag_commits check_git git_dir GitRunner.version_tag_pattern = Ok all_tags ->
  GitRunner.query_local_repository_commit_id check_git git_dir = Ok current_id ->
  In commit_tag all_tags -> CommitTag.commit_id commit_tag = current_id ->
  exists ct v,
    In ct all_tags /\ CommitTag.commit_id ct = current_id /\
    SemanticVersion.make (CommitTag.tag ct) = Ok v /\
    GitRunner.collect_repository_summary check_git git_dir =
      Ok {| RepositorySummary.commit_id := current_id;
            RepositorySummary.tag := CommitTag.tag ct;
            RepositorySummary.version := SemanticVersion.to_version v;
            RepositorySummary.commit_messages := [] |}.
Proof.
  intros Htags Hid Hin Hc.
  destruct (id_to_newest_tag_some all_tags current_id commit_tag Hin Hc)
    as (ct & Hct & Hcid & Hget).
  pose proof (query_tag_commits_in _ _ _ _ Htags ct Hct) as Hm. unfold tag_matches in Hm.
  destruct (re_match GitRunner.version_tag_pattern (CommitTag.tag ct)) as [m|] eqn:Em;
    [|discriminate].
  destruct (matched_version_tag_parses _ _ Em) as (a & b & c & _ & _ & _ & Hmake).
  eexists ct, _. repeat split; [exact Hct|exact Hcid|exact Hmake|].
  unfold GitRunner.collect_repository_summary. rewrite Htags, Hid. cbn [bind].
  unfold GitRunner.query_local_repository_commits_to_existing_tag_from_id.
  rewrite Hget. cbn [bind]. rewrite Hmake. reflexivity.
Qed.

Lemma tagged_head_summary_witness :
  exists ct v,
    In ct [tag_record "c3" "version-1.10.0"] /\ CommitTag.commit_id ct = $"c3" /\
    SemanticVersion.make (CommitTag.tag ct) = Ok v /\
    GitRunner.collect_repository_summary tagged_git ($"repo") =
      Ok {| RepositorySummary.commit_id := $"c3";
            RepositorySummary.tag := CommitTag.tag ct;
            RepositorySummary.version := SemanticVersion.to_version v;
            RepositorySummary.commit_messages := [] |}.
Proof.
  apply (tagged_head_summary tagged_git ($"repo") ($"c3") [tag_record "c3" "version-1.10.0"]
           (tag_record "c3" "version-1.10.0")).
  - reflexivity.
  - reflexivity.
  - now left.
  - reflexivity.
Defined.

(** ** The message of a parsed block *)

Lemma dropwhile_suffix p : forall s, exists a, s = a ++ dropwhile p s.
Proof.
  induction s as [|c t [a IH]]; [now exists []|]. cbn [dropwhile].
  destruct (p c); [|now exists []]. exists (c :: a). cbn [app]. now rewrite <- IH.
Qed.

Lemma dropwhile_idem p : forall s, dropwhile p (dropwhile p s) = dropwhile p s.
Proof.
  induction s as [|c t IH]; [reflexivity|]. cbn [dropwhile].
  destruct (p c) eqn:E; [exact IH|]. cbn [dropwhile]. now rewrite E.
Qed.

Lemma rstrip_idem s : rstrip (rstrip s) = rstrip s.
Proof. unfold rstrip. now rewrite rev_involutive, dropwhile_idem. Qed.

Lemma free_of_rev c s : free_of c (rev s) = free_of c s.
Proof.
  unfold free_of. induction s as [|x t IH]; [reflexivity|].
  cbn [rev forallb]. rewrite forallb_app, IH. cbn [forallb]. rewrite andb_true_r.
  apply andb_comm.
Qed.

Lemma free_of_rstrip c s : free_of c s = true -> free_of c (rstrip s) = true.
Proof.
  intros H. unfold rstrip. rewrite free_of_rev.
  destruct (dropwhile_suffix isspace (rev s)) as [a E].
  rewrite <- free_of_rev, E in H. unfold free_of in *. now apply forallb_suffix in H.
Qed.

Lemma split_aux_free c : forall s cur,
  free_of c cur = true -> Forall (fun piece => free_of c piece = true) (split_aux [c] 0 cur s).
Proof.
  induction s as [|x t IH]; intros cur H.
  - cbn [split_aux]. constructor; [now rewrite free_of_rev|constructor].
  - rewrite split_char_step. destruct (Ascii.eqb c x) eqn:E.
    + constructor; [now rewrite free_of_rev|]. now apply IH.
    + apply IH. cbn [free_of forallb]. fold (free_of c cur). now rewrite E, H.
Qed.

(** splitting what was joined gives the pieces back *)
Lemma split_join_char c : forall ls,
  ls <> [] -> Forall (fun piece => free_of c piece = true) ls -> split [c] (join [c] ls) = ls.
Proof.
  induction ls as [|x ls IH]; intros Hne Hall; [congruence|].
  inversion Hall as [|? ? Hx Hls]; subst. unfold split in *.
  destruct ls as [|y ls].
  - cbn [join]. now rewrite split_char_none.
  - change (join [c] (x :: y :: ls)) with (x ++ c :: join [c] (y :: ls)).
    rewrite split_char_first by exact Hx. cbn [rev app].
    rewrite IH; [reflexivity|discriminate|exact Hls].
Qed.

Lemma dropwhile_list_suffix {A} (p : A -> bool) : forall l,
  exists a, l = a ++ dropwhile_list p l.
Proof.
  induction l as [|x t [a IH]]; [now exists []|]. cbn [dropwhile_list].
  destruct (p x); [|now exists []]. exists (x :: a). cbn [app]. now rewrite <- IH.
Qed.

Lemma dropwhile_list_hd {A} (p : A -> bool) d : forall l,
  dropwhile_list p l <> [] -> p (hd d (dropwhile_list p l)) = false.
Proof.
  induction l as [|x t IH]; intros H; [now cbn in H|]. cbn [dropwhile_list] in *.
  destruct (p x) eqn:E; [now apply IH|exact E].
Qed.

Lemma last_rev {A} (l : list A) d : last (rev l) d = hd d l.
Proof. destruct l as [|x l]; [reflexivity|]. cbn [rev hd]. apply last_last. Qed.

Lemma hd_app_nonempty {A} (l1 l2 : list A) d : l1 <> [] -> hd d (l1 ++ l2) = hd d l1.
Proof. destruct l1; [congruence|reflexivity]. Qed.

Lemma not_is_empty (s : str) : CommitMessage.is_empty s = false -> s <> [].
Proof. now destruct s. Qed.

(** what [make] keeps of the lines of a text: blank lines are cut from both ends *)
Lemma trimmed_lines_spec (lines : list str) :
  let kept := rev (dropwhile_list CommitMessage.is_empty
                     (rev (dropwhile_list CommitMessage.is_empty lines))) in
  (forall line, In line kept -> In line lines) /\
  (kept <> [] -> hd [] kept <> [] /\ last kept [] <> []).
Proof.
  set (inner := dropwhile_list CommitMessage.is_empty lines).
  set (outer := dropwhile_list CommitMessage.is_empty (rev inner)).
  cbv zeta.
  destruct (dropwhile_list_suffix CommitMessage.is_empty lines) as [a Ea]. fold inner in Ea.
  destruct (dropwhile_list_suffix CommitMessage.is_empty (rev inner)) as [b Eb]. fold outer in Eb.
  assert (Ei : inner = rev outer ++ rev b).
  { rewrite <- (rev_involutive inner), Eb. apply rev_app_distr. }
  split.
  - intros line Hin. rewrite Ea, Ei. apply in_or_app. right. apply in_or_app. now left.
  - intros Hne. split.
    + assert (Hinner : inner <> []).
      { rewrite Ei. intros C. apply app_eq_nil in C as [C _]. contradiction. }
      pose proof (dropwhile_list_hd CommitMessage.is_empty [] lines Hinner) as H.
      fold inner in H. rewrite Ei, hd_app_nonempty in H by exact Hne.
      apply not_is_empty. exact H.
    + rewrite last_rev.
      assert (Houter : outer <> []).
      { intros C. rewrite C in Hne. now apply Hne. }
      pose proof (dropwhile_list_hd CommitMessage.is_empty [] (rev inner) Houter) as H.
      fold outer in H. apply not_is_empty. exact H.
Qed.

Lemma made_message_lines (entry : str) (cm : CommitMessage.t) :
  CommitMessage.make entry = Ok cm ->
  Forall (fun line => rstrip line = line) (split [NL] (CommitMessage.message cm)) /\
  (CommitMessage.message cm <> [] ->
   hd [] (split [NL] (CommitMessage.message cm)) <> [] /\
   last (split [NL] (CommitMessage.message cm)) [] <> []).
Proof.
  unfold CommitMessage.make. intros H.
  destruct (re_match CommitMessage._MEDIUM_PRETTY_COMMIT_MATCHER entry) as [found|];
    [|discriminate].
  injection H as <-. cbn [CommitMessage.message].
  set (lines := map rstrip (split [NL] (skipn (end_ found 3) entry))).
  destruct (trimmed_lines_spec lines) as [Hin Hends].
  set (kept := rev (dropwhile_list CommitMessage.is_empty
                      (rev (dropwhile_list CommitMessage.is_empty lines)))) in *.
  assert (Hlines : forall line, In line kept -> rstrip line = line /\ free_of NL line = true).
  { intros line Hl. apply Hin in Hl. unfold lines in Hl. apply in_map_iff in Hl as (raw & <- & Hraw).
    split; [apply rstrip_idem|]. apply free_of_rstrip.
    pose proof (split_aux_free NL (skipn (end_ found 3) entry) [] eq_refl) as Hfree.
    rewrite Forall_forall in Hfree. now apply Hfree. }
  destruct kept as [|x kept'] eqn:Ek.
  - cbn [join]. split; [|congruence]. repeat constructor.
  - rewrite split_join_char; [|discriminate|].
    2:{ apply Forall_forall. intros line Hl. now apply Hlines. }
    split.
    + apply Forall_forall. intros line Hl. now apply Hlines.
    + intros _. apply Hends. discriminate.
Qed.

(** X14: the message of every record [CommitMessage.make] returns is clean:
    no line of it ends in white space, and unless the message is empty its
    first and its last line are not empty. *)
Theorem made_message_is_trimmed (entry : str) (cm : CommitMessage.t) :
  CommitMessage.make entry = Ok cm ->
  Forall (fun line => rstrip line = line) (split [NL] (CommitMessage.message cm)) /\
  (CommitMessage.message cm <> [] ->
   hd [] (split [NL] (CommitMessage.message cm)) <> [] /\
   last (split [NL] (CommitMessage.message cm)) [] <> []).
Proof. exact (made_message_lines entry cm). Qed.

Lemma made_message_is_trimmed_witness :
  Forall (fun line => rstrip line = line) (split [NL] (CommitMessage.message one_commit_record)) /\
  (CommitMessage.message one_commit_record <> [] ->
   hd [] (split [NL] (CommitMessage.message one_commit_record)) <> [] /\
   last (split [NL] (CommitMessage.message one_commit_record)) [] <> []).
Proof.
  apply (made_message_is_trimmed
           (lines_text ["abc123";
                        "Author: Ann <ann@example.com>";
                        "Date:   Mon Jan 1 00:00:00 2018 +0000";
                        "";
                        "    fix(core): first"]%string)).
  reflexivity.
Defined.

(** ** Reading a block *)

Lemma free_of_dot s : free_of NL s = true -> forallb dot s = true.
Proof.
  unfold free_of. induction s as [|c t IH]; [reflexivity|]. cbn [forallb].
  intros H. apply andb_prop in H as [Hc Ht]. rewrite (IH Ht), andb_true_r.
  unfold dot. now rewrite Ascii.eqb_sym.
Qed.

Lemma not_blank_head s rest :
  starts_with_blank s = false ->
  match s ++ NL :: rest with [] => True | c :: _ => only SP c = false end.
Proof. destruct s as [|c t]; [reflexivity|]. intros H. exact H. Qed.

Ltac flatten_text :=
  repeat first [rewrite <- app_assoc | progress cbn [app list_ascii_of_string]].

Lemma medium_run id blanks1 author blanks2 date body :
  id <> [] -> free_of NL id = true ->
  forallb (only SP) blanks1 = true ->
  author <> [] -> free_of NL author = true -> starts_with_blank author = false ->
  forallb (only SP) blanks2 = true ->
  free_of NL date = true -> starts_with_blank date = false ->
  exists e p2 p3,
    run CommitMessage._MEDIUM_PRETTY_COMMIT_MATCHER accept None 0
        (medium_entry id blanks1 author blanks2 date body) [] =
      Some {| res_end := e;
              res_caps := [(3, (p3, p3 + length date)); (2, (p2, p2 + length author));
                           (1, (0, 0 + length id))] |} /\
    p2 = length id + 8 + length blanks1 /\
    p3 = p2 + length author + 6 + length blanks2.
Proof.
  intros Hid Hidf Hb1 Hau Hauf Haub Hb2 Hdf Hdb.
  unfold CommitMessage._MEDIUM_PRETTY_COMMIT_MATCHER, seqs, plus, star, medium_entry.
  cbn [fold_right run]. do 3 eexists. split.
  - apply rep_greedy_munch;
      [now apply free_of_dot|now apply nonempty_length|reflexivity|].
    cbn [lit list_ascii_of_string run app]. rewrite !Ascii.eqb_refl.
    apply rep_greedy_munch; [exact Hb1|apply Nat.le_0_l| |].
    { destruct author as [|c t]; [congruence|exact Haub]. }
    apply rep_greedy_munch;
      [now apply free_of_dot|now apply nonempty_length|reflexivity|].
    rewrite !Ascii.eqb_refl.
    apply rep_greedy_munch; [exact Hb2|apply Nat.le_0_l|now apply not_blank_head|].
    apply rep_greedy_munch; [now apply free_of_dot|apply Nat.le_0_l|reflexivity|].
    rewrite Ascii.eqb_refl. unfold accept. reflexivity.
  - split; lia.
Qed.

(** X15: a block of [git log --pretty=medium] is read back field by field.
    When the id, the author and the date hold no line feed, id and author are
    not empty, and author and date do not start with a blank, [make] returns
    the id, the author and the date as they stand, whatever the number of
    blanks after [Author:] and [Date:], and the message is the text below the
    date line, its lines right-stripped and the blank lines at both ends cut. *)
Theorem make_reads_medium_block (id blanks1 author blanks2 date body : str) :
  id <> [] -> free_of NL id = true ->
  forallb (only SP) blanks1 = true ->
  author <> [] -> free_of NL author = true -> starts_with_blank author = false ->
  forallb (only SP) blanks2 = true ->
  free_of NL date = true -> starts_with_blank date = false ->
  CommitMessage.make (medium_entry id blanks1 author blanks2 date body) =
    Ok {| CommitMessage.commit_id := id; CommitMessage.author := author;
          CommitMessage.date := date; CommitMessage.message := message_text body |}.
Proof.
  intros Hid Hidf Hb1 Hau Hauf Haub Hb2 Hdf Hdb.
  destruct (medium_run id blanks1 author blanks2 date body Hid Hidf Hb1 Hau Hauf Haub Hb2 Hdf Hdb)
    as (e & p2 & p3 & Hrun & Hp2 & Hp3).
  unfold CommitMessage.make, re_match. rewrite Hrun. cbn [res_end res_caps].
  set (entry := medium_entry id blanks1 author blanks2 date body).
  set (m := {| m_string := entry; m_start := 0; m_end := e;
               m_caps := [(3, (p3, p3 + length date)); (2, (p2, p2 + length author));
                          (1, (0, 0 + length id))] |}).
  assert (G1 : group m 1 = id).
  { apply (group_span m 1 [] id
             (NL :: $"Author:" ++ blanks1 ++ author ++ NL :: $"Date:" ++ blanks2 ++ date
                 ++ NL :: body) 0 (0 + length id)); reflexivity. }
  assert (G2 : group m 2 = author).
  { apply (group_span m 2 (id ++ NL :: $"Author:" ++ blanks1) author
             (NL :: $"Date:" ++ blanks2 ++ date ++ NL :: body) p2 (p2 + length author)).
    - cbn [m_string m]. unfold entry, medium_entry.
      now flatten_text.
    - reflexivity.
    - rewrite Hp2, length_app. cbn [length list_ascii_of_string]. rewrite length_app.
      cbn [length]. lia.
    - reflexivity. }
  set (pre := id ++ NL :: $"Author:" ++ blanks1 ++ author ++ NL :: $"Date:" ++ blanks2).
  assert (E3 : entry = pre ++ date ++ NL :: body).
  { unfold pre, entry, medium_entry. now flatten_text. }
  assert (L3 : p3 = length pre).
  { rewrite Hp3, Hp2. unfold pre. cbn [app list_ascii_of_string].
    repeat first [rewrite length_app | progress cbn [length]]. lia. }
  clearbody pre.
  assert (G3 : group m 3 = date).
  { apply (group_span m 3 pre date (NL :: body) p3 (p3 + length date) E3);
      [reflexivity|exact L3|reflexivity]. }
  rewrite G1, G2, G3.
  assert (T : skipn (end_ m 3) entry = NL :: body).
  { unfold end_. cbn [m_caps m span_of Nat.eqb]. rewrite E3, app_assoc.
    replace (p3 + length date) with (length (pre ++ date)) by (rewrite length_app; lia).
    apply slice_to_end. }
  rewrite T. unfold message_text, split. rewrite split_char_step, Ascii.eqb_refl.
  cbn [rev map]. change (rstrip []) with (@nil ascii). cbn [dropwhile_list CommitMessage.is_empty].
  reflexivity.
Qed.

Lemma make_reads_medium_block_witness :
  CommitMessage.make
    (medium_entry ($"abc123") ($" ") ($"Ann <ann@example.com>") ($"   ")
       ($"Mon Jan 1 00:00:00 2018 +0000") (lines_text [""; "    fix(core): first  "; ""]%string)) =
    Ok {| CommitMessage.commit_id := $"abc123";
          CommitMessage.author := $"Ann <ann@example.com>";
          CommitMessage.date := $"Mon Jan 1 00:00:00 2018 +0000";
          CommitMessage.message :=
            message_text (lines_text [""; "    fix(core): first  "; ""]%string) |}.
Proof.
  apply make_reads_medium_block; first [reflexivity | discriminate].
Defined.

(** ** Pass B: what every record keeps *)

Lemma summaries_loop_frame (mk : str -> CommitMessage.t) lines : forall todo index prev result,
  let '(_, result') := CommitMessage.summaries_loop mk lines todo index prev result in
  forall out, In out result' -> In out result \/ exists text, out = mk (rstrip text).
Proof.
  induction todo as [|line rest IH]; intros index prev result.
  - cbn [CommitMessage.summaries_loop]. intros out H. now left.
  - cbn [CommitMessage.summaries_loop].
    destruct (re_match CommitMessage._EMBEDDED_SUMMARY_MATCHER line).
    + set (result1 := if (prev >=? 0)%Z then _ else result).
      specialize (IH (S index) (Z.of_nat index) result1).
      destruct (CommitMessage.summaries_loop mk lines rest (S index) (Z.of_nat index) result1)
        as [prev' result'].
      intros out H. apply IH in H as [H|H]; [|now right].
      unfold result1 in H. destruct (prev >=? 0)%Z; [|now left].
      apply in_app_or in H as [H|[<-|[]]]; [now left|right; eexists; reflexivity].
    + apply IH.
Qed.

Lemma unpack_embedded_summary_frame commit_message out :
  In out (CommitMessage.unpack_embedded_summary commit_message) ->
  exists text, out = with_message commit_message (rstrip text).
Proof.
  unfold CommitMessage.unpack_embedded_summary.
  set (mk := fun text => _).
  pose proof (summaries_loop_frame mk (split [NL] (CommitMessage.message commit_message))
                (split [NL] (CommitMessage.message commit_message)) 0 (-1)%Z []) as H.
  destruct (CommitMessage.summaries_loop mk _ _ 0 (-1)%Z []) as [prev result].
  intros Hin. apply in_app_or in Hin as [Hin|[<-|[]]].
  - apply H in Hin as [[]|Hin]. exact Hin.
  - eexists. reflexivity.
Qed.

Lemma unpack_embedded_summary_nonempty commit_message :
  1 <= length (CommitMessage.unpack_embedded_summary commit_message).
Proof.
  unfold CommitMessage.unpack_embedded_summary.
  destruct (CommitMessage.summaries_loop _ _ _ 0 (-1)%Z []) as [prev result].
  rewrite length_app. cbn [length]. lia.
Qed.

(** X16: the second pass of [normalize_message_list] changes messages only.
    Every record it returns carries the commit id, the author and the date of
    one of the records it was given, and a message without trailing white
    space; and it returns at least as many records as it was given. *)
Theorem summaries_pass_changes_messages_only (msg_list : list CommitMessage.t) :
  (forall out, In out (CommitMessage._unpack_embedded_summaries msg_list) ->
     exists commit_message,
       In commit_message msg_list /\
       out = with_message commit_message (CommitMessage.message out) /\
       rstrip (CommitMessage.message out) = CommitMessage.message out) /\
  length msg_list <= length (CommitMessage._unpack_embedded_summaries msg_list).
Proof.
  unfold CommitMessage._unpack_embedded_summaries. split.
  - intros out H. apply in_flat_map in H as (cm & Hcm & Hout).
    apply unpack_embedded_summary_frame in Hout as [text ->].
    exists cm. cbn [with_message CommitMessage.message]. repeat split; [exact Hcm|].
    apply rstrip_idem.
  - induction msg_list as [|cm l IH]; [apply Nat.le_refl|].
    cbn [flat_map length]. rewrite length_app.
    pose proof (unpack_embedded_summary_nonempty cm). lia.
Qed.

(** ** Pass B: records without a summary line *)

Lemma join_cons_nonempty sep (x : str) l : l <> [] -> join sep (x :: l) = x ++ sep ++ join sep l.
Proof. destruct l; [congruence|reflexivity]. Qed.

(** joining what was split gives the text back *)
Lemma join_split_char c : forall s cur, join [c] (split_aux [c] 0 cur s) = rev cur ++ s.
Proof.
  induction s as [|x t IH]; intros cur.
  - cbn [split_aux join]. now rewrite app_nil_r.
  - rewrite split_char_step. destruct (Ascii.eqb_spec c x) as [->|].
    + rewrite join_cons_nonempty by apply split_aux_nonempty. now rewrite IH.
    + rewrite IH. cbn [rev]. now rewrite <- app_assoc.
Qed.

(** the text ends with its last line *)
Lemma split_char_suffix c : forall s cur,
  exists a, rev cur ++ s = a ++ last (split_aux [c] 0 cur s) [].
Proof.
  induction s as [|x t IH]; intros cur.
  - exists []. cbn [split_aux last app]. apply app_nil_r.
  - rewrite split_char_step. destruct (Ascii.eqb c x).
    + rewrite last_cons_nonempty by apply split_aux_nonempty.
      destruct (IH []) as [a E]. cbn [rev app] in E. exists (rev cur ++ x :: a).
      rewrite <- app_assoc. cbn [app]. now rewrite <- E.
    + destruct (IH (x :: cur)) as [a E]. exists a. rewrite <- E. cbn [rev].
      now rewrite <- app_assoc.
Qed.

Lemma rstrip_after a l : l <> [] -> rstrip l = l -> rstrip (a ++ l) = a ++ l.
Proof.
  intros Hne H. unfold rstrip in *. rewrite rev_app_distr.
  apply (f_equal (@rev ascii)) in H. rewrite rev_involutive in H.
  destruct (rev l) as [|x r] eqn:E.
  - apply (f_equal (@rev ascii)) in E. rewrite rev_involutive in E. contradiction.
  - cbn [dropwhile] in H. cbn [app dropwhile]. destruct (isspace x).
    + exfalso. destruct (dropwhile_suffix isspace r) as [b Eb].
      rewrite H in Eb. apply (f_equal (@length ascii)) in Eb.
      rewrite length_app in Eb. cbn [length] in Eb. lia.
    + change (x :: r ++ rev a) with ((x :: r) ++ rev a).
      rewrite <- E, <- rev_app_distr. apply rev_involutive.
Qed.

Lemma last_in {A} (l : list A) d : l <> [] -> In (last l d) l.
Proof.
  intros H. destruct (exists_last H) as (l' & y & ->).
  rewrite last_last. apply in_or_app. right. now left.
Qed.

Lemma made_message_rstripped entry cm :
  CommitMessage.make entry = Ok cm -> rstrip (CommitMessage.message cm) = CommitMessage.message cm.
Proof.
  intros H. destruct (made_message_lines entry cm H) as [Hall Hends].
  destruct (CommitMessage.message cm) as [|x t] eqn:E; [reflexivity|].
  destruct Hends as [_ Hlast]; [discriminate|].
  destruct (split_char_suffix NL (x :: t) []) as [a Ea]. cbn [rev app] in Ea.
  fold (split [NL] (x :: t)) in Ea. rewrite Ea. apply rstrip_after; [exact Hlast|].
  rewrite Forall_forall in Hall. apply Hall.
  apply last_in. apply split_aux_nonempty.
Qed.

Lemma unpack_plain_summary commit_message :
  forallb (fun line => negb (is_summary_line line))
          (split [NL] (CommitMessage.message commit_message)) = true ->
  CommitMessage.unpack_embedded_summary commit_message =
    [with_message commit_message (rstrip (CommitMessage.message commit_message))].
Proof.
  intros H. unfold CommitMessage.unpack_embedded_summary.
  pose proof (summaries_loop_skip (with_message commit_message)
                (split [NL] (CommitMessage.message commit_message)) _ [] 0 [] H) as Hs.
  rewrite app_nil_r in Hs. unfold with_message in Hs. rewrite Hs.
  cbn [CommitMessage.summaries_loop Z.ltb Z.compare Z.to_nat skipn app].
  unfold split. rewrite join_split_char. reflexivity.
Qed.

(** X17: a record none of whose message lines opens a summary comes out of
    the second pass alone, with its message right-stripped and nothing else
    changed. *)
Theorem record_without_summary_is_kept (commit_message : CommitMessage.t) :
  forallb (fun line => negb (is_summary_line line))
          (split [NL] (CommitMessage.message commit_message)) = true ->
  CommitMessage.unpack_embedded_summary commit_message =
    [with_message commit_message (rstrip (CommitMessage.message commit_message))].
Proof.
  intros H. now apply unpack_plain_summary.
Qed.

Lemma record_without_summary_is_kept_witness :
  CommitMessage.unpack_embedded_summary plain_commit =
    [with_message plain_commit (rstrip (CommitMessage.message plain_commit))].
Proof.
  apply (record_without_summary_is_kept plain_commit). reflexivity.
Defined.

(** X18: a record that [CommitMessage.make] returned, whose message holds no
    embedded commit header and no summary line, goes through
    [normalize_message_list] unchanged. *)
Theorem plain_parsed_record_is_normal (entry : str) (commit_message : CommitMessage.t) :
  CommitMessage.make entry = Ok commit_message ->
  re_search CommitMessage._EMBEDDED_COMMIT_MATCHER (CommitMessage.message commit_message) = None ->
  forallb (fun line => negb (is_summary_line line))
          (split [NL] (CommitMessage.message commit_message)) = true ->
  CommitMessage.normalize_message_list [commit_message] = Ok [commit_message].
Proof.
  intros Hmake Hsearch Hplain.
  unfold CommitMessage.normalize_message_list.
  cbn [CommitMessage._unpack_embedded_commits]. unfold CommitMessage.unpack_embedded_commit.
  rewrite Hsearch. cbn [bind app].
  unfold CommitMessage._unpack_embedded_summaries. cbn [flat_map].
  rewrite (unpack_plain_summary commit_message Hplain), app_nil_r.
  rewrite (made_message_rstripped entry commit_message Hmake).
  destruct commit_message. reflexivity.
Qed.

Lemma plain_parsed_record_is_normal_witness :
  CommitMessage.normalize_message_list [plain_record] = Ok [plain_record].
Proof.
  apply (plain_parsed_record_is_normal plain_entry plain_record); reflexivity.
Defined.

(** ** Cloning one of several branches *)

Section CloneBranch.

Variable world : Type.
Variable run_git : world -> str -> str -> (Z * str) * world.
Variables origin_url base_dir clone_command : str.

Lemma clone_loop_skips branches : forall tried w w1 remaining,
  missing_until run_git w base_dir clone_command tried = Some w1 ->
  remaining <> [] ->
  GitRunner.clone_loop run_git w origin_url base_dir clone_command branches (tried ++ remaining) =
  GitRunner.clone_loop run_git w1 origin_url base_dir clone_command branches remaining.
Proof.
  induction tried as [|b tried IH]; intros w w1 remaining H Hne.
  - injection H as ->. reflexivity.
  - cbn [missing_until] in H. cbn [app GitRunner.clone_loop].
    unfold branch_command in H.
    destruct (run_git w base_dir (clone_command ++ $" -b " ++ b)) as [[retcode stdout] w'].
    unfold reports_missing in H. cbn [fst snd] in H.
    destruct (retcode =? 0)%Z; [discriminate|]. cbn [negb andb] in H.
    destruct (contains _ stdout); [|discriminate]. cbn [negb].
    rewrite <- (IH w' w1 remaining H Hne).
    destruct (tried ++ remaining) eqn:E; [|reflexivity].
    apply app_eq_nil in E as [_ E]. contradiction.
Qed.

(** X19: [__check_clone_branch] tries the branches in the order given and
    stops at the first one that git does not report as missing from the
    remote: when the clones of the branches before it all fail with
    [Remote branch ... not found], and the clone of [branch] returns 0, the
    method returns; when it fails in another way, [CalledProcessError] is
    raised with the full command line, the return code and the output of
    that clone.  Either way git is not run for the branches after it. *)
Theorem clone_stops_at_first_decisive_branch
    (w w1 w2 : world) (tried : list str) (branch : str) (rest : list str)
    (retcode : Z) (stdout : str) :
  missing_until run_git w base_dir clone_command tried = Some w1 ->
  run_git w1 base_dir (branch_command clone_command branch) = ((retcode, stdout), w2) ->
  reports_missing branch (retcode, stdout) = false ->
  GitRunner.__check_clone_branch run_git w origin_url base_dir clone_command
      (tried ++ branch :: rest) =
    (if (retcode =? 0)%Z then GitRunner.Cloned
     else GitRunner.CalledProcessError
            ($"git -C " ++ [DQUOTE] ++ base_dir ++ [DQUOTE] ++ $" "
               ++ branch_command clone_command branch)
            retcode stdout,
     w2).
Proof.
  intros Htried Hrun Hdec. unfold GitRunner.__check_clone_branch.
  rewrite (clone_loop_skips _ tried w w1 (branch :: rest) Htried) by discriminate.
  cbn [GitRunner.clone_loop]. unfold branch_command in *. rewrite Hrun.
  unfold reports_missing in Hdec. cbn [fst snd] in Hdec.
  destruct (retcode =? 0)%Z; [reflexivity|]. cbn [negb andb] in Hdec. now rewrite Hdec.
Qed.

(** X20: when the clone of every branch fails with [Remote branch ... not
    found], [__check_clone_branch] raises the [ValueError] that names all the
    branches it was given and the origin, after one clone for each branch;
    given no branch at all it raises [IndexError] without running git. *)
Theorem clone_of_missing_branches (w w1 : world) (branches : list str) :
  missing_until run_git w base_dir clone_command branches = Some w1 ->
  GitRunner.__check_clone_branch run_git w origin_url base_dir clone_command branches =
    (match branches with
     | [] => GitRunner.PopFromEmptyList
     | _ :: _ => GitRunner.BranchesDoNotExist branches origin_url
     end, w1).
Proof.
  intros H. unfold GitRunner.__check_clone_branch.
  destruct branches as [|b l] using rev_ind.
  - injection H as ->. reflexivity.
  - clear IHl.
    assert (Hsplit : exists w0, missing_until run_git w base_dir clone_command l = Some w0 /\
                                missing_until run_git w0 base_dir clone_command [b] = Some w1).
    { clear -H. revert w H. induction l as [|x l IH]; intros w H.
      - exists w. split; [reflexivity|exact H].
      - cbn [app missing_until] in *.
        destruct (run_git w base_dir (branch_command clone_command x)) as [answer w'].
        destruct (reports_missing x answer); [|discriminate]. now apply IH. }
    destruct Hsplit as (w0 & Hl & Hb).
    rewrite (clone_loop_skips _ l w w0 [b] Hl) by discriminate.
    cbn [missing_until] in Hb. cbn [GitRunner.clone_loop]. unfold branch_command in Hb.
    destruct (run_git w0 base_dir (clone_command ++ $" -b " ++ b)) as [[retcode stdout] w'].
    unfold reports_missing in Hb. cbn [fst snd] in Hb.
    destruct (retcode =? 0)%Z; [discriminate|]. cbn [negb andb] in Hb.
    destruct (contains _ stdout); [|discriminate]. injection Hb as ->. cbn [negb].
    destruct (l ++ [b]) eqn:E; [|reflexivity].
    apply app_eq_nil in E as [_ E]. discriminate.
Qed.

End CloneBranch.

Lemma clone_stops_at_first_decisive_branch_witness :
  GitRunner.__check_clone_branch master_only 0 ($"origin") ($"/build") ($"clone origin")
      ([$"release-1.0.x"] ++ $"master" :: [$"develop"]) =
    (if (0 =? 0)%Z then GitRunner.Cloned
     else GitRunner.CalledProcessError
            ($"git -C " ++ [DQUOTE] ++ $"/build" ++ [DQUOTE] ++ $" "
               ++ branch_command ($"clone origin") ($"master"))
            0%Z ($"Cloning into 'repo'..."),
     2).
Proof.
  apply (clone_stops_at_first_decisive_branch nat master_only ($"origin") ($"/build")
           ($"clone origin") 0 1 2 [$"release-1.0.x"] ($"master") [$"develop"] 0%Z
           ($"Cloning into 'repo'...")); reflexivity.
Defined.

Lemma clone_of_missing_branches_witness :
  GitRunner.__check_clone_branch master_only 0 ($"origin") ($"/build") ($"clone origin")
      [$"release-1.0.x"] =
    (GitRunner.BranchesDoNotExist [$"release-1.0.x"] ($"origin"), 1).
Proof.
  apply (clone_of_missing_branches nat master_only ($"origin") ($"/build") ($"clone origin")
           0 1 [$"release-1.0.x"]). reflexivity.
Defined.

(** ** Addresses of a repository *)

Lemma free_of_not_only c s :
  free_of c s = true -> forallb (fun x => negb (only c x)) s = true.
Proof.
  unfold free_of, only. induction s as [|x t IH]; [reflexivity|]. cbn [forallb].
  intros H. apply andb_prop in H as [Hx Ht]. rewrite (IH Ht), andb_true_r.
  now rewrite Ascii.eqb_sym.
Qed.

(** a run of the class up to the end of the text *)
Lemma rep_greedy_all p k w lo prev pos cs r :
  forallb p w = true -> lo <= length w ->
  k (last_of prev w) (pos + length w) [] cs = Some r ->
  rep_greedy p k lo prev pos w cs = Some r.
Proof.
  intros Hw Hlo Hk. rewrite <- (app_nil_r w) at 1. now apply rep_greedy_munch.
Qed.

Lemma three_groups (r : regex) (s : str) e p1 p2 p3 pre host c1 owner path :
  ngroups r = 3 ->
  s = pre ++ host ++ c1 :: owner ++ "/"%char :: path ->
  p1 = length pre -> p2 = p1 + length host + 1 -> p3 = p2 + length owner + 1 ->
  groups r {| m_string := s; m_start := 0; m_end := e;
              m_caps := [(3, (p3, p3 + length path)); (2, (p2, p2 + length owner));
                         (1, (p1, p1 + length host))] |} =
    [Some host; Some owner; Some path].
Proof.
  intros Hn -> Hp1 Hp2 Hp3. unfold groups. rewrite Hn.
  cbn [seq map m_caps m_string span_of Nat.eqb].
  rewrite (slice_mid pre host (c1 :: owner ++ "/"%char :: path) p1 (p1 + length host))
    by (exact Hp1 || reflexivity).
  replace (pre ++ host ++ c1 :: owner ++ "/"%char :: path)
    with ((pre ++ host ++ [c1]) ++ owner ++ "/"%char :: path)
    by (now repeat (rewrite <- app_assoc; cbn [app])).
  rewrite (slice_mid (pre ++ host ++ [c1]) owner ("/"%char :: path) p2 (p2 + length owner))
    by (reflexivity || (rewrite !length_app; cbn [length]; lia)).
  replace ((pre ++ host ++ [c1]) ++ owner ++ "/"%char :: path)
    with ((pre ++ host ++ c1 :: owner ++ ["/"%char]) ++ path ++ [])
    by (rewrite app_nil_r; now repeat (rewrite <- app_assoc; cbn [app])).
  rewrite (slice_mid (pre ++ host ++ c1 :: owner ++ ["/"%char]) path [] p3 (p3 + length path))
    by (reflexivity ||
        (repeat first [rewrite length_app | progress cbn [length]]; lia)).
  reflexivity.
Qed.

Lemma endswith_after_slash pre path :
  endswith ($".git") path = false -> endswith ($".git") (pre ++ "/"%char :: path) = false.
Proof.
  unfold endswith. rewrite rev_app_distr. cbn [rev list_ascii_of_string app].
  rewrite <- app_assoc. cbn [app].
  destruct (rev path) as [|a [|b [|c [|d r]]]]; cbn [app startswith]; intros H.
  - reflexivity.
  - destruct (Ascii.eqb "t" a); reflexivity.
  - destruct (Ascii.eqb "t" a), (Ascii.eqb "i" b); reflexivity.
  - destruct (Ascii.eqb "t" a), (Ascii.eqb "i" b), (Ascii.eqb "g" c); reflexivity.
  - exact H.
Qed.

(** the text that is matched against the two patterns *)
Lemma gitless_url_of base suffix :
  endswith ($".git") base = false -> optional_dot_git suffix ->
  (if endswith ($".git") (base ++ suffix)
   then firstn (length (base ++ suffix) - length ($".git")) (base ++ suffix)
   else base ++ suffix) = base.
Proof.
  intros H [-> | ->].
  - rewrite app_nil_r, H. reflexivity.
  - assert (E : endswith ($".git") (base ++ $".git") = true).
    { unfold endswith. rewrite rev_app_distr. cbn [rev list_ascii_of_string app startswith].
      now rewrite !Ascii.eqb_refl. }
    rewrite E, length_app. cbn [length list_ascii_of_string].
    replace (length base + 4 - 4) with (length base) by lia.
    rewrite firstn_app, firstn_all, Nat.sub_diag. cbn [firstn]. apply app_nil_r.
Qed.

Lemma groups_eqb_refl : forall g, GitRunner.groups_eqb g g = true.
Proof.
  induction g as [|a g IH]; [reflexivity|]. cbn [GitRunner.groups_eqb]. rewrite IH.
  destruct a as [x|]; [|reflexivity]. cbn [GitRunner.group_eqb]. now rewrite str_eqb_refl.
Qed.

Section Addresses.

Variable abspath : str -> str.

Variables proto host owner path : str.
Hypothesis proto_nonempty : proto <> [].
Hypothesis proto_chars : forallb (either lower (between "0" "9")) proto = true.
Hypothesis host_nonempty : host <> [].
Hypothesis host_no_slash : free_of "/" host = true.
Hypothesis host_no_colon : free_of ":" host = true.
Hypothesis owner_nonempty : owner <> [].
Hypothesis owner_no_slash : free_of "/" owner = true.
Hypothesis path_nonempty : path <> [].
Hypothesis path_one_line : free_of NL path = true.
Hypothesis path_without_postfix : endswith ($".git") path = false.

Lemma web_key :
  exists found,
    re_match GitRunner.url_pattern (web_url proto host owner path) = Some found /\
    groups GitRunner.url_pattern found = [Some host; Some owner; Some path].
Proof.
  assert (Hrun : exists e p1 p2 p3,
    run GitRunner.url_pattern accept None 0 (web_url proto host owner path) [] =
      Some {| res_end := e;
              res_caps := [(3, (p3, p3 + length path)); (2, (p2, p2 + length owner));
                           (1, (p1, p1 + length host))] |} /\
    p1 = length (proto ++ $"://") /\ p2 = p1 + length host + 1 /\ p3 = p2 + length owner + 1).
  { unfold GitRunner.url_pattern, seqs, plus, web_url. cbn [fold_right run].
    do 4 eexists. split.
    - apply rep_greedy_munch; [exact proto_chars|now apply nonempty_length|reflexivity|].
      cbn [lit list_ascii_of_string run app]. rewrite !Ascii.eqb_refl.
      apply rep_greedy_munch;
        [now apply free_of_not_only|now apply nonempty_length|reflexivity|].
      rewrite Ascii.eqb_refl.
      apply rep_greedy_munch;
        [now apply free_of_not_only|now apply nonempty_length|reflexivity|].
      rewrite Ascii.eqb_refl.
      apply rep_greedy_all; [now apply free_of_dot|now apply nonempty_length|].
      unfold accept. reflexivity.
    - rewrite length_app. cbn [length list_ascii_of_string]. repeat split; lia. }
  destruct Hrun as (e & p1 & p2 & p3 & Hrun & Hp1 & Hp2 & Hp3).
  unfold re_match. rewrite Hrun. eexists. split; [reflexivity|].
  cbn [res_end res_caps].
  apply (three_groups _ _ e p1 p2 p3 (proto ++ $"://") host "/"%char owner path);
    [reflexivity| |exact Hp1|exact Hp2|exact Hp3].
  unfold web_url. now rewrite <- app_assoc.
Qed.

Lemma ssh_key :
  re_match GitRunner.url_pattern (ssh_url host owner path) = None /\
  exists found,
    re_match GitRunner.ssh_pattern (ssh_url host owner path) = Some found /\
    groups GitRunner.ssh_pattern found = [Some host; Some owner; Some path].
Proof.
  split; [reflexivity|].
  assert (Hrun : exists e p1 p2 p3,
    run GitRunner.ssh_pattern accept None 0 (ssh_url host owner path) [] =
      Some {| res_end := e;
              res_caps := [(3, (p3, p3 + length path)); (2, (p2, p2 + length owner));
                           (1, (p1, p1 + length host))] |} /\
    p1 = 4 /\ p2 = p1 + length host + 1 /\ p3 = p2 + length owner + 1).
  { unfold GitRunner.ssh_pattern, seqs, plus, ssh_url. cbn [fold_right run].
    do 4 eexists. split.
    - cbn [lit list_ascii_of_string run app]. rewrite !Ascii.eqb_refl.
      apply rep_greedy_munch;
        [now apply free_of_not_only|now apply nonempty_length|reflexivity|].
      rewrite Ascii.eqb_refl.
      apply rep_greedy_munch;
        [now apply free_of_not_only|now apply nonempty_length|reflexivity|].
      rewrite Ascii.eqb_refl.
      apply rep_greedy_all; [now apply free_of_dot|now apply nonempty_length|].
      unfold accept. reflexivity.
    - repeat split; lia. }
  destruct Hrun as (e & p1 & p2 & p3 & Hrun & Hp1 & Hp2 & Hp3).
  unfold re_match. rewrite Hrun. eexists. split; [reflexivity|].
  cbn [res_end res_caps].
  apply (three_groups _ _ e p1 p2 p3 ($"git@") host ":"%char owner path);
    [reflexivity|reflexivity|exact Hp1|exact Hp2|exact Hp3].
Qed.

Lemma web_url_normalized suffix :
  optional_dot_git suffix ->
  GitRunner.__normalize_repo_url abspath (web_url proto host owner path ++ suffix) =
    GitRunner.KeyGroups [Some host; Some owner; Some path].
Proof.
  intros Hs. unfold GitRunner.__normalize_repo_url. cbv zeta.
  rewrite gitless_url_of; [|unfold web_url|exact Hs].
  2:{ replace (proto ++ $"://" ++ host ++ "/"%char :: owner ++ "/"%char :: path)
        with ((proto ++ $"://" ++ host ++ "/"%char :: owner) ++ "/"%char :: path)
        by (now repeat (rewrite <- app_assoc; cbn [app])).
      now apply endswith_after_slash. }
  destruct web_key as (found & -> & ->). reflexivity.
Qed.

Lemma ssh_url_normalized suffix :
  optional_dot_git suffix ->
  GitRunner.__normalize_repo_url abspath (ssh_url host owner path ++ suffix) =
    GitRunner.KeyGroups [Some host; Some owner; Some path].
Proof.
  intros Hs. unfold GitRunner.__normalize_repo_url. cbv zeta.
  rewrite gitless_url_of; [|unfold ssh_url|exact Hs].
  2:{ replace ($"git@" ++ host ++ ":"%char :: owner ++ "/"%char :: path)
        with (($"git@" ++ host ++ ":"%char :: owner) ++ "/"%char :: path)
        by (now repeat (rewrite <- app_assoc; cbn [app])).
      now apply endswith_after_slash. }
  destruct ssh_key as (-> & found & -> & ->). reflexivity.
Qed.

(** X21: the web address [proto://host/owner/path] and the ssh address
    [git@host:owner/path] of a repository, each with or without the postfix
    [.git], are normalized to the same triple of host, owner and path, so
    [is_same_repo] holds between any two of them, whatever the protocol. *)
Theorem addresses_of_one_repository_agree (first_suffix second_suffix : str) :
  optional_dot_git first_suffix -> optional_dot_git second_suffix ->
  GitRunner.__normalize_repo_url abspath (web_url proto host owner path ++ first_suffix) =
    GitRunner.KeyGroups [Some host; Some owner; Some path] /\
  GitRunner.__normalize_repo_url abspath (ssh_url host owner path ++ second_suffix) =
    GitRunner.KeyGroups [Some host; Some owner; Some path] /\
  GitRunner.is_same_repo abspath (web_url proto host owner path ++ first_suffix)
    (ssh_url host owner path ++ second_suffix) = true.
Proof.
  intros H1 H2. pose proof (web_url_normalized first_suffix H1) as E1.
  pose proof (ssh_url_normalized second_suffix H2) as E2.
  split; [exact E1|]. split; [exact E2|].
  unfold GitRunner.is_same_repo. cbv zeta. rewrite E1, E2.
  cbn [GitRunner.repo_key_eqb]. apply groups_eqb_refl.
Qed.

End Addresses.

Lemma addresses_of_one_repository_agree_witness :
  GitRunner.__normalize_repo_url abspath_of_absolute
      (web_url ($"https") ($"github.com") ($"spinnaker") ($"clouddriver") ++ $".git") =
    GitRunner.KeyGroups [Some ($"github.com"); Some ($"spinnaker"); Some ($"clouddriver")] /\
  GitRunner.__normalize_repo_url abspath_of_absolute
      (ssh_url ($"github.com") ($"spinnaker") ($"clouddriver") ++ []) =
    GitRunner.KeyGroups [Some ($"github.com"); Some ($"spinnaker"); Some ($"clouddriver")] /\
  GitRunner.is_same_repo abspath_of_absolute
    (web_url ($"https") ($"github.com") ($"spinnaker") ($"clouddriver") ++ $".git")
    (ssh_url ($"github.com") ($"spinnaker") ($"clouddriver") ++ []) = true.
Proof.
  apply (addresses_of_one_repository_agree abspath_of_absolute
           ($"https") ($"github.com") ($"spinnaker") ($"clouddriver"));
    first [discriminate | reflexivity | now left | now right].
Defined.

(** ** RemoteGitRepository *)

(** [rfind_from] gives what was found so far when the byte does not occur,
    and the index of its last occurrence otherwise *)
Lemma rfind_from_spec c : forall s i found,
  (free_of c s = true /\ rfind_from c s i found = found) \/
  (exists pre tail, s = pre ++ c :: tail /\ free_of c tail = true /\
                    rfind_from c s i found = Z.of_nat (i + length pre)).
Proof.
  induction s as [|x t IH]; intros i found.
  - left. split; reflexivity.
  - cbn [rfind_from].
    destruct (IH (S i) (if Ascii.eqb x c then Z.of_nat i else found))
      as [[Hfree E]|(pre & tail & -> & Hfree & E)].
    + destruct (Ascii.eqb_spec x c) as [->|Hne].
      * right. exists [], t. cbn [app length]. rewrite Nat.add_0_r. auto.
      * left. split; [|exact E]. cbn [free_of forallb]. fold (free_of c t). rewrite Hfree.
        destruct (Ascii.eqb_spec c x) as [->|]; [congruence|reflexivity].
    + right. exists (x :: pre), tail. cbn [app length]. split; [reflexivity|].
      split; [exact Hfree|]. rewrite E. f_equal. lia.
Qed.

(** X22: [make_from_url] names a repository after the tail of its URL: the
    name holds no slash, and the URL is either the name itself (when the URL
    holds no slash) or some text, a slash, and the name.  The URL is kept as
    given, and [upstream_url] is the URL of the upstream reference, if any. *)
Theorem repository_name_is_url_tail (url : str) (upstream_ref : option RemoteGitRepository.t) :
  let repository := RemoteGitRepository.make_from_url url upstream_ref in
  free_of "/" (RemoteGitRepository.name repository) = true /\
  (url = RemoteGitRepository.name repository \/
   exists pre, url = pre ++ "/"%char :: RemoteGitRepository.name repository) /\
  RemoteGitRepository.url repository = url /\
  RemoteGitRepository.upstream_url repository = option_map RemoteGitRepository.url upstream_ref.
Proof.
  cbv zeta. unfold RemoteGitRepository.make_from_url, rfind.
  cbn [RemoteGitRepository.name RemoteGitRepository.url].
  split; [|split; [|split]].
  - destruct (rfind_from_spec "/" url 0 (-1)%Z) as [[Hfree ->]|(pre & tail & -> & Hfree & ->)].
    + exact Hfree.
    + cbn [Nat.add]. replace (Z.to_nat (Z.of_nat (length pre) + 1)) with (S (length pre)) by lia.
      change (pre ++ "/"%char :: tail) with (pre ++ ["/"%char] ++ tail).
      rewrite app_assoc.
      replace (S (length pre)) with (length (pre ++ ["/"%char]))
        by (rewrite length_app; cbn [length]; lia).
      now rewrite slice_to_end.
  - destruct (rfind_from_spec "/" url 0 (-1)%Z) as [[Hfree ->]|(pre & tail & E & Hfree & ->)].
    + left. reflexivity.
    + right. exists pre. rewrite E at 1. f_equal. f_equal.
      cbn [Nat.add]. replace (Z.to_nat (Z.of_nat (length pre) + 1)) with (S (length pre)) by lia.
      rewrite E. change (pre ++ "/"%char :: tail) with (pre ++ ["/"%char] ++ tail).
      rewrite app_assoc.
      replace (S (length pre)) with (length (pre ++ ["/"%char]))
        by (rewrite length_app; cbn [length]; lia).
      now rewrite slice_to_end.
  - reflexivity.
  - unfold RemoteGitRepository.upstream_url. cbn [RemoteGitRepository.upstream_ref].
    destruct upstream_ref; reflexivity.
Qed.

(** ** What [SemanticVersion.make] raises *)

(** X23: [SemanticVersion.make] raises nothing but the [ValueError] for a
    malformed tag, and raises it exactly when the pattern does not match at
    the start of the tag: once the pattern has matched, the three [int]
    conversions of its groups cannot fail. *)
Theorem make_raises_only_malformed_tag (tag : str) (e : error) :
  SemanticVersion.make tag = Raise e <->
  re_match SemanticVersion.SEMVER_MATCHER tag = None /\ e = SemanticVersion.malformed_tag tag.
Proof.
  split.
  - intros H.
    destruct (run SemanticVersion.SEMVER_MATCHER accept None 0 tag []) as [res|] eqn:Hrun.
    + destruct (semver_run_inv _ _ Hrun)
        as (series & a & b & c & rest & E & _ & _ & Ha & Hb & Hc & Hcaps).
      rewrite (make_of_run _ _ _ _ _ _ _ Hrun E Hcaps Ha Hb Hc) in H. discriminate.
    + unfold SemanticVersion.make, re_match in *. rewrite Hrun in *.
      injection H as <-. split; reflexivity.
  - intros [H ->]. unfold SemanticVersion.make. now rewrite H.
Qed.

(** ** Records are normalized one by one *)

(** X24: [normalize_message_list] treats every record on its own and keeps
    the order: the result for a list put together from two lists is the
    result for the first followed by the result for the second, and an
    exception raised for either one is raised for the whole. *)
Theorem normalize_message_list_app (first second : list CommitMessage.t) :
  CommitMessage.normalize_message_list (first ++ second) =
    (a <- CommitMessage.normalize_message_list first ;;
     b <- CommitMessage.normalize_message_list second ;;
     Ok (a ++ b)).
Proof.
  unfold CommitMessage.normalize_message_list, CommitMessage._unpack_embedded_summaries.
  rewrite unpack_embedded_commits_app.
  destruct (CommitMessage._unpack_embedded_commits first) as [a|e]; cbn [bind]; [|reflexivity].
  destruct (CommitMessage._unpack_embedded_commits second) as [b|e]; cbn [bind]; [|reflexivity].
  now rewrite flat_map_app.
Qed.

(** ** The baseline of an untagged commit *)

Lemma find_baseline_first d tag line rest : forall before count,
  (forall l, In l before -> dict_get d (first_token l) = None) ->
  dict_get d (first_token line) = Some tag -> tag <> [] ->
  forall seen,
  GitRunner.find_baseline d (before ++ line :: rest) seen count =
    (Some tag, count + length before).
Proof.
  induction before as [|l before IH]; intros count Hbefore Hline Hne seen;
    cbn [app GitRunner.find_baseline length].
  - rewrite Hline. destruct tag; [congruence|]. now rewrite Nat.add_0_r.
  - rewrite (Hbefore l (or_introl eq_refl)).
    rewrite IH; [f_equal; lia| |exact Hline|exact Hne].
    intros l' Hl'. apply Hbefore. now right.
Qed.

(** X25: for a commit that carries no tag, the baseline is the tag of the
    first line of [git log --pretty=oneline <id>] whose commit id is tagged,
    and the commits returned are those parsed from [git log -n <count>
    --pretty=medium <id>], where [count] is the number of lines above that
    line; tags further down the log play no part. *)
Theorem baseline_is_nearest_tagged_commit
    (check_git : str -> str -> exc str) (git_dir commit_id oneline : str)
    (commit_tags : list CommitTag.t) (before : list str) (line : str) (rest : list str)
    (tag : str) :
  dict_get (GitRunner.id_to_newest_tag commit_tags) commit_id = None ->
  check_git git_dir ($"log --pretty=oneline " ++ commit_id) = Ok oneline ->
  split [NL] oneline = before ++ line :: rest ->
  (forall l, In l before ->
     dict_get (GitRunner.id_to_newest_tag commit_tags) (first_token l) = None) ->
  dict_get (GitRunner.id_to_newest_tag commit_tags) (first_token line) = Some tag ->
  tag <> [] ->
  GitRunner.query_local_repository_commits_to_existing_tag_from_id
    check_git git_dir commit_id commit_tags =
    (result <- check_git git_dir
                 ($"log -n " ++ str_of_int (Z.of_nat (length before))
                    ++ $" --pretty=medium " ++ commit_id) ;;
     messages <- CommitMessage.make_list_from_result result ;;
     Ok (tag, messages)).
Proof.
  intros Hhead Hlog Hsplit Hbefore Hline Hne.
  unfold GitRunner.query_local_repository_commits_to_existing_tag_from_id.
  rewrite Hhead, Hlog. cbn [bind]. rewrite Hsplit.
  rewrite (find_baseline_first _ tag line rest before 0 Hbefore Hline Hne None).
  reflexivity.
Qed.

Lemma baseline_is_nearest_tagged_commit_witness :
  GitRunner.query_local_repository_commits_to_existing_tag_from_id
    two_above_git ($"repo") ($"c3")
    [tag_record "a1" "version-1.0.0"; tag_record "z0" "version-0.9.0"] =
    (result <- two_above_git ($"repo")
                 ($"log -n " ++ str_of_int (Z.of_nat (length [$"c3 squash of topic"; $"b2 tidy"]))
                    ++ $" --pretty=medium " ++ $"c3") ;;
     messages <- CommitMessage.make_list_from_result result ;;
     Ok ($"version-1.0.0", messages)).
Proof.
  apply (baseline_is_nearest_tagged_commit two_above_git ($"repo") ($"c3")
           (lines_text ["c3 squash of topic"; "b2 tidy"; "a1 first release"; "z0 start"]%string)
           [tag_record "a1" "version-1.0.0"; tag_record "z0" "version-0.9.0"]
           [$"c3 squash of topic"; $"b2 tidy"] ($"a1 first release") [$"z0 start"]
           ($"version-1.0.0")).
  - reflexivity.
  - reflexivity.
  - reflexivity.
  - intros l H. cbn [In] in H. destruct H as [<-|[<-|[]]]; reflexivity.
  - reflexivity.
  - discriminate.
Defined.

(** ** Deleting a local branch *)

Lemma str_eqb_neq a b : a <> b -> str_eqb a b = false.
Proof. unfold str_eqb. intros H. destruct (list_eq_dec ascii_dec a b); [contradiction|reflexivity]. Qed.

(** X26: [git branch -l] prints the branch that is checked out after a star
    and every other branch after two blanks.  On such a listing
    [delete_local_branch_if_exists] deletes nothing unless the branch asked
    for is the one checked out: the lines without a star are compared as
    they stand, blanks included, so no [git branch -D] is run and the method
    returns after the listing alone. *)
Theorem indented_branch_is_not_deleted
    (world : Type) (check_git : world -> str -> str -> exc str * world)
    (w w1 : world) (git_dir branch listing : str) :
  check_git w git_dir ($"branch -l") = (Ok listing, w1) ->
  branch <> [] -> startswith ($" ") branch = false ->
  (forall line, In line (split [NL] listing) ->
     if startswith ($"*") line then strip (skipn 1 line) <> branch
     else line = [] \/ startswith ($" ") line = true) ->
  GitRunner.delete_local_branch_if_exists check_git w git_dir branch = (Ok tt, w1).
Proof.
  intros Hlist Hne Hblank Hlines. unfold GitRunner.delete_local_branch_if_exists.
  rewrite Hlist. cbv zeta.
  assert (E : existsb (str_eqb branch)
                (map (fun elem => if startswith ($"*") elem then strip (skipn 1 elem) else elem)
                     (split [NL] listing)) = false).
  { induction (split [NL] listing) as [|line lines IH]; [reflexivity|].
    cbn [map existsb]. rewrite IH by (intros l Hl; apply Hlines; now right).
    rewrite orb_false_r. specialize (Hlines line (or_introl eq_refl)).
    destruct (startswith ($"*") line).
    - apply str_eqb_neq. congruence.
    - apply str_eqb_neq. destruct Hlines as [->|Hl]; [exact Hne|].
      intros <-. rewrite Hl in Hblank. discriminate. }
  rewrite E. reflexivity.
Qed.

Lemma indented_branch_is_not_deleted_witness :
  GitRunner.delete_local_branch_if_exists two_branches_git 0 ($"repo") ($"feature") = (Ok tt, 1).
Proof.
  apply (indented_branch_is_not_deleted nat two_branches_git 0 1 ($"repo") ($"feature")
           (lines_text ["* master"; "  feature"; ""]%string)).
  - reflexivity.
  - discriminate.
  - reflexivity.
  - intros line H. cbn in H. destruct H as [<-|[<-|[<-|[]]]].
    + cbn. discriminate.
    + right. reflexivity.
    + left. reflexivity.
Defined.
